(** * A shallow embedding of [docs/generate_mars_gif.py]

    The generator builds a wireframe sphere, random shading strokes and a
    decorative "W" overlay, then renders a rotating animation frame by frame.

    Modelling decisions.
    - Python floats are idealised as real numbers ([R]); [math.sin],
      [math.cos] and [math.pi] are the Standard Library's [sin], [cos], [PI].
    - Python ints are [Z]; [range n] is the list [0; ...; n-1] (empty when
      [n <= 0]).
    - Exceptions are the [Raise] branch of [result].
    - [Point3D] objects live in a heap (a list indexed by address); a
      [Line] stores the addresses of its two endpoints, so that sharing of
      endpoints between segments is visible.
    - [Line] objects are stored by value in [all_lines]: every line object
      occurs exactly once in that list and the per-category lists are not
      read again after [__init__].
    - The global [random] module is an explicit stream threaded through the
      computation.
    - The image is the sequence of [draw.line] calls issued on it. *)

From Stdlib Require Import Reals Lra Lia ZArith List String Ascii Sorted Permutation.
From stdpp Require Import base list gmap.

Local Open Scope R_scope.

(** ** Exceptions and the state-and-error monad *)

Inductive exn : Type :=
| ZeroDivisionError
| IndexError
| ValueError.

Inductive result (A : Type) : Type :=
| Ok (a : A)
| Raise (e : exn).

Arguments Ok {A} a.
Arguments Raise {A} e.

(** ** Heap objects *)

(** Object addresses. *)
Abbreviation ref := nat.

Record Point3D : Type := mkPoint3D {
  x : R;
  y : R;
  z : R;
  rotated_x : R;
  rotated_y : R;
  rotated_z : R;
  projected_2d_x : R;
  projected_2d_y : R
}.

(** [Point3D.__init__] *)
Definition new_Point3D (x0 y0 z0 : R) : Point3D :=
  mkPoint3D x0 y0 z0 x0 y0 z0 0 0.

Record Line : Type := mkLine {
  point1 : ref;
  point2 : ref;
  color : string;
  width : R;
  is_artifact : bool
}.

(** [Line.__init__] *)
Definition new_Line (p1 p2 : ref) : Line :=
  mkLine p1 p2 "#FF6B35" 1 false.

(** ** The random source

    [floats] are the successive results of [random.random()], [ints] the raw
    draws behind [random.choice]; [cursor] counts the draws consumed. *)

Record Rng : Type := mkRng {
  floats : nat -> R;
  ints : nat -> nat;
  cursor : nat
}.

Definition advance (g : Rng) : Rng :=
  mkRng (floats g) (ints g) (S (cursor g)).

Record World : Type := mkWorld {
  heap : list Point3D;
  rng : Rng
}.

Definition M (A : Type) : Type := World -> result (A * World).

Definition ret {A} (a : A) : M A := fun w => Ok (a, w).

Definition bind {A B} (m : M A) (k : A -> M B) : M B :=
  fun w => match m w with
           | Ok (a, w') => k a w'
           | Raise e => Raise e
           end.

Definition raise {A} (e : exn) : M A := fun _ => Raise e.

Declare Scope py_scope.
Delimit Scope py_scope with py.
Notation "v <- m ; k" := (bind m (fun v => k))
  (at level 20, m at level 100, k at level 200, only parsing) : py_scope.
Local Open Scope py_scope.

(** [for a in xs: s = body(a, s)] *)
Fixpoint for_ {A S} (xs : list A) (body : A -> S -> M S) (s : S) : M S :=
  match xs with
  | [] => ret s
  | a :: xs' => s' <- body a s ; for_ xs' body s'
  end.

(** In-place update of every element of a list of objects held by value. *)
Fixpoint mapM {A B} (f : A -> M B) (xs : list A) : M (list B) :=
  match xs with
  | [] => ret []
  | a :: xs' => b <- f a ; bs <- mapM f xs' ; ret (b :: bs)
  end.

(** [range(n)] *)
Definition range (n : Z) : list Z :=
  map Z.of_nat (seq 0 (Z.to_nat n)).

(** Float division: raises on a zero divisor. *)
Definition pydiv (a b : R) : M R :=
  if Req_dec_T b 0 then raise ZeroDivisionError else ret (a / b).

(** [random.random()] *)
Definition random : M R :=
  fun w => Ok (floats (rng w) (cursor (rng w)), mkWorld (heap w) (advance (rng w))).

(** [random.choice(seq)]: [IndexError] on an empty sequence. *)
Definition choice (seq : list string) : M string :=
  fun w =>
    match seq !! (ints (rng w) (cursor (rng w)) mod length seq)%nat with
    | Some c => Ok (c, mkWorld (heap w) (advance (rng w)))
    | None => Raise IndexError
    end.

(** Object allocation: the new object gets the next free address. *)
Definition alloc (p : Point3D) : M ref :=
  fun w => Ok (length (heap w), mkWorld (heap w ++ [p]) (rng w)).

(** Dereference.  Addresses held by lines always point into the heap; the
    default is never observed on states built by [__init__]. *)
Definition deref (h : list Point3D) (r : ref) : Point3D :=
  default (new_Point3D 0 0 0) (h !! r).

Definition get_heap : M (list Point3D) := fun w => Ok (heap w, w).

Definition modify_point (r : ref) (f : Point3D -> Point3D) : M unit :=
  fun w => Ok (tt, mkWorld (<[r := f (deref (heap w) r)]> (heap w)) (rng w)).

(** [seq[i]] for a non-negative index. *)
Definition getitem {A} (l : list A) (i : Z) : M A :=
  match l !! Z.to_nat i with
  | Some a => ret a
  | None => raise IndexError
  end.

(** ** Configuration: the constants assigned at the top of [__init__] *)

Inductive Band : Type := light | medium | dark | shadow.

Record Config : Type := mkConfig {
  canvas_width : Z;
  canvas_height : Z;
  latitude_lines : Z;
  longitude_lines : Z;
  shading_density : Z;
  axial_tilt : R;
  colors : Band -> list string
}.

Definition mars_palette (b : Band) : list string :=
  match b with
  | light => ["#FF6B35"; "#FF8C42"; "#FFA552"; "#FFB366"]
  | medium => ["#C44536"; "#D4573B"; "#E06940"; "#B43D2F"]
  | dark => ["#8B2E1F"; "#6B1F14"; "#4A1410"; "#2C0D0A"]
  | shadow => ["#1A0806"; "#0D0403"; "#000000"]
  end%string.

Definition default_config : Config :=
  mkConfig 400 400 40 48 1200 (25.19 * PI / 180) mars_palette.

Definition radius (cfg : Config) : R :=
  IZR (Z.min (canvas_width cfg) (canvas_height cfg)) * 0.3.

Definition center_x (cfg : Config) : R := IZR (canvas_width cfg) / 2.
Definition center_y (cfg : Config) : R := IZR (canvas_height cfg) / 2.

(** The generator object after [__init__]. *)
Record Generator : Type := mkGenerator {
  config : Config;
  sphere_points : list ref;
  all_lines : list Line
}.

(** ** Geometry builder *)

(** The point at spherical angles [theta], [phi]. *)
Definition spherical (cfg : Config) (theta phi : R) : Point3D :=
  new_Point3D (radius cfg * sin theta * cos phi)
              (radius cfg * cos theta)
              (radius cfg * sin theta * sin phi).

Definition create_sphere_points (cfg : Config) : M (list ref) :=
  for_ (range (latitude_lines cfg + 1)) (fun lat points =>
    theta <- pydiv (IZR lat * PI) (IZR (latitude_lines cfg)) ;
    for_ (range (longitude_lines cfg + 1)) (fun lon points =>
      phi <- pydiv (IZR lon * 2 * PI) (IZR (longitude_lines cfg)) ;
      p <- alloc (spherical cfg theta phi) ;
      ret (points ++ [p])) points) [].

Definition create_structural_lines (cfg : Config) (sphere_points : list ref)
  : M (list Line) :=
  lines <- for_ (range (latitude_lines cfg + 1)) (fun lat lines =>
    for_ (range (longitude_lines cfg)) (fun lon lines =>
      let index := (lat * (longitude_lines cfg + 1) + lon)%Z in
      let next_index := (lat * (longitude_lines cfg + 1) + lon + 1)%Z in
      p1 <- getitem sphere_points index ;
      p2 <- getitem sphere_points next_index ;
      ret (lines ++ [new_Line p1 p2])) lines) [] ;
  for_ (range (longitude_lines cfg + 1)) (fun lon lines =>
    for_ (range (latitude_lines cfg)) (fun lat lines =>
      let index := (lat * (longitude_lines cfg + 1) + lon)%Z in
      let next_index := ((lat + 1) * (longitude_lines cfg + 1) + lon)%Z in
      p1 <- getitem sphere_points index ;
      p2 <- getitem sphere_points next_index ;
      ret (lines ++ [new_Line p1 p2])) lines) lines.

Definition create_shading_lines (cfg : Config) : M (list Line) :=
  for_ (range (shading_density cfg)) (fun _ lines =>
    u1 <- random ;
    let theta1 := u1 * PI in
    u2 <- random ;
    let phi1 := u2 * 2 * PI in
    bias <- random ;
    let final_phi1 :=
      if Rlt_dec bias 0.6 then phi1 * 0.5 + PI * 0.75 else phi1 in
    u3 <- random ;
    let theta2 := theta1 + (u3 - 0.5) * 0.5 in
    u4 <- random ;
    let phi2 := final_phi1 + (u4 - 0.5) * 0.5 in
    p1 <- alloc (spherical cfg theta1 final_phi1) ;
    p2 <- alloc (spherical cfg theta2 phi2) ;
    ret (lines ++ [new_Line p1 p2])) [].

(** The zig-zag defined inside the loop of [create_w_artifact]. *)
Definition w_shape (x0 : R) : R :=
  let normalized := frac_part x0 * 4 in
  if Rlt_dec normalized 1 then normalized
  else if Rlt_dec normalized 2 then 2 - normalized
  else if Rlt_dec normalized 3 then normalized - 2
  else 4 - normalized.

Definition create_w_artifact (cfg : Config) : M (list Line) :=
  let segments := 50%Z in
  let w_width := PI / 12 in
  let w_height := 0.225 in
  for_ (range segments) (fun i lines =>
    let t := IZR i / IZR segments in
    let next_t := IZR (i + 1) / IZR segments in
    let lat1 := (w_shape t - 0.5) * w_height in
    let lat2 := (w_shape next_t - 0.5) * w_height in
    let lon1 := t * w_width in
    let lon2 := next_t * w_width in
    let theta1 := PI / 2 - lat1 in
    let phi1 := lon1 in
    let theta2 := PI / 2 - lat2 in
    let phi2 := lon2 in
    p1 <- alloc (spherical cfg theta1 phi1) ;
    p2 <- alloc (spherical cfg theta2 phi2) ;
    let line := new_Line p1 p2 in
    ret (lines ++ [mkLine (point1 line) (point2 line) (color line) (width line) true])) [].

(** [MarsGifGenerator.__init__] *)
Definition init (cfg : Config) : M Generator :=
  sphere_points <- create_sphere_points cfg ;
  structural_lines <- create_structural_lines cfg sphere_points ;
  shading_lines <- create_shading_lines cfg ;
  w_artifact <- create_w_artifact cfg ;
  ret (mkGenerator cfg sphere_points (structural_lines ++ shading_lines ++ w_artifact)).

(** ** Transform engine *)

(** The dictionaries returned by [rotate_x] and [rotate_y]. *)
Record Vec3 : Type := mkVec3 { vx : R; vy : R; vz : R }.

Inductive point_or_dict : Type :=
| APoint (p : Point3D)
| ADict (d : Vec3).

Definition rotate_x (point : Point3D) (angle : R) : Vec3 :=
  let cos_a := cos angle in
  let sin_a := sin angle in
  mkVec3 (x point)
         (y point * cos_a - z point * sin_a)
         (y point * sin_a + z point * cos_a).

Definition rotate_y (pd : point_or_dict) (angle : R) : Vec3 :=
  let cos_a := cos angle in
  let sin_a := sin angle in
  let '(x0, y0, z0) :=
    match pd with
    | ADict d => (vx d, vy d, vz d)
    | APoint p => (x p, y p, z p)
    end in
  mkVec3 (x0 * cos_a + z0 * sin_a)
         y0
         (- x0 * sin_a + z0 * cos_a).

Definition perspective : R := 800.

Definition set_rotated (v : Vec3) (p : Point3D) : Point3D :=
  mkPoint3D (x p) (y p) (z p) (vx v) (vy v) (vz v)
            (projected_2d_x p) (projected_2d_y p).

Definition set_projected (px py : R) (p : Point3D) : Point3D :=
  mkPoint3D (x p) (y p) (z p) (rotated_x p) (rotated_y p) (rotated_z p) px py.

Definition project_3d (cfg : Config) (r : ref) : M R :=
  h <- get_heap ;
  let point := deref h r in
  scale <- pydiv perspective (perspective + rotated_z point) ;
  _ <- modify_point r
         (set_projected (rotated_x point * scale + center_x cfg)
                        (rotated_y point * scale + center_y cfg)) ;
  ret scale.

(** ** Shader *)

Definition get_color_for_point (cfg : Config) (point : Point3D) : M string :=
  let light_x := -0.5 in
  let light_y := -0.7 in
  let light_z := 1 in
  normal_x <- pydiv (rotated_x point) (radius cfg) ;
  normal_y <- pydiv (rotated_y point) (radius cfg) ;
  normal_z <- pydiv (rotated_z point) (radius cfg) ;
  let lighting := normal_x * light_x + normal_y * light_y + normal_z * light_z in
  if Rgt_dec lighting 0.5 then choice (colors cfg light)
  else if Rgt_dec lighting 0 then choice (colors cfg medium)
  else if Rgt_dec lighting (-0.3) then choice (colors cfg dark)
  else choice (colors cfg shadow).

(** ** [update_geometry] *)

(** The set of distinct endpoint objects collected by the first loop.  The
    order in which Python walks the set is not specified; [heap_after] below
    shows that the outcome does not depend on it. *)
Definition all_points (lines : list Line) : gset ref :=
  foldl (fun s line => s ∪ {[ point1 line ]} ∪ {[ point2 line ]}) ∅ lines.

(** Body of the loop over the points. *)
Definition update_point (cfg : Config) (angle_y : R) (r : ref) : M unit :=
  h <- get_heap ;
  let rotated := rotate_x (deref h r) (axial_tilt cfg) in
  let rotated := rotate_y (ADict rotated) angle_y in
  _ <- modify_point r (set_rotated rotated) ;
  _ <- project_3d cfg r ;
  ret tt.

Definition avg_z (h : list Point3D) (line : Line) : R :=
  (rotated_z (deref h (point1 line)) + rotated_z (deref h (point2 line))) / 2.

(** Body of the loop over the lines: the line with its new colour and
    width.  The midpoint is a temporary object that no line refers to; it is
    kept as a value and never enters the heap. *)
Definition update_line (cfg : Config) (line : Line) : M Line :=
  h <- get_heap ;
  let p1 := deref h (point1 line) in
  let p2 := deref h (point2 line) in
  let mid_point := new_Point3D ((rotated_x p1 + rotated_x p2) / 2)
                               ((rotated_y p1 + rotated_y p2) / 2)
                               ((rotated_z p1 + rotated_z p2) / 2) in
  if is_artifact line then
    let c := if Rgt_dec (avg_z h line) 0 then "#FF6B35"%string else "#8B2E1F"%string in
    ret (mkLine (point1 line) (point2 line) c 8.0 (is_artifact line))
  else
    c <- get_color_for_point cfg mid_point ;
    ret (mkLine (point1 line) (point2 line) c
                (if Rgt_dec (avg_z h line) 0 then 0.8 else 0.4)
                (is_artifact line)).

Definition update_geometry (gen : Generator) (angle_y : R) : M Generator :=
  _ <- for_ (elements (all_points (all_lines gen)))
            (fun point _ => update_point (config gen) angle_y point) tt ;
  lines <- mapM (update_line (config gen)) (all_lines gen) ;
  ret (mkGenerator (config gen) (sphere_points gen) lines).

(** ** Colour parsing

    A text is a Python string of code points below 256, one [ascii] for
    each code point. *)

Definition hex_digit (c : ascii) : option Z :=
  let n := Z.of_nat (nat_of_ascii c) in
  if ((48 <=? n) && (n <=? 57))%Z then Some (n - 48)%Z
  else if ((65 <=? n) && (n <=? 70))%Z then Some (n - 55)%Z
  else if ((97 <=? n) && (n <=? 102))%Z then Some (n - 87)%Z
  else None.

Fixpoint hex_digits (s : string) (acc : Z) : option Z :=
  match s with
  | EmptyString => Some acc
  | String c s' =>
      match hex_digit c with
      | Some d => hex_digits s' (16 * acc + d)%Z
      | None => None
      end
  end.

(** White space as [int()] strips it from a text of code points below 256:
    tab to carriage return, the space, and the Latin-1 spaces U+0085 and
    U+00A0.  The separators U+001C to U+001F are not stripped. *)
Definition is_space (c : ascii) : bool :=
  let n := nat_of_ascii c in
  ((9 <=? n) && (n <=? 13) || (n =? 32) || (n =? 133) || (n =? 160))%nat.

Fixpoint lstrip_space (s : string) : string :=
  match s with
  | String c s' => if is_space c then lstrip_space s' else s
  | EmptyString => s
  end.

Fixpoint rstrip_space (s : string) : string :=
  match s with
  | EmptyString => EmptyString
  | String c s' =>
      match rstrip_space s' with
      | EmptyString => if is_space c then EmptyString else String c EmptyString
      | t => String c t
      end
  end.

(** [int(s, 16)] on the slices of at most two characters that [hex_to_rgb]
    passes: surrounding white space, an optional sign, then hex digits (a
    [0x] prefix or an underscore needs at least three characters). *)
Definition int16 (s : string) : result Z :=
  let body := rstrip_space (lstrip_space s) in
  let '(sign, digits) :=
    match body with
    | String "+" d => (1%Z, d)
    | String "-" d => ((-1)%Z, d)
    | d => (1%Z, d)
    end in
  match digits with
  | EmptyString => Raise ValueError
  | _ => match hex_digits digits 0 with
         | Some n => Ok (sign * n)%Z
         | None => Raise ValueError
         end
  end.

(** [hex_color.lstrip('#')] *)
Fixpoint lstrip_hash (s : string) : string :=
  match s with
  | String "#" s' => lstrip_hash s'
  | _ => s
  end.

(** A computation that reads and writes no state. *)
Definition lift {A} (r : result A) : M A :=
  fun w => match r with
           | Ok a => Ok (a, w)
           | Raise e => Raise e
           end.

Definition hex_to_rgb (hex_color : string) : M (Z * Z * Z) :=
  let hex_color := lstrip_hash hex_color in
  r <- lift (int16 (substring 0 2 hex_color)) ;
  g <- lift (int16 (substring 2 2 hex_color)) ;
  b <- lift (int16 (substring 4 2 hex_color)) ;
  ret (r, g, b).

(** ** Frame renderer *)

(** [int(x)] on a float: truncation toward zero. *)
Definition py_int (r : R) : Z :=
  if Rle_dec 0 r then Int_part r else (- Int_part (- r))%Z.

(** One call of [draw.line] on the image. *)
Record Stroke : Type := mkStroke {
  from_x : R;
  from_y : R;
  to_x : R;
  to_y : R;
  fill : Z * Z * Z * Z;
  stroke_width : Z
}.

Definition opacity_of (s : Stroke) : Z := snd (fill s).

Record Image : Type := mkImage {
  image_width : Z;
  image_height : Z;
  strokes : list Stroke
}.

(** [sorted(lines, key=...)]: stable, ascending. *)
Fixpoint insert_by {A} (key : A -> R) (a : A) (l : list A) : list A :=
  match l with
  | [] => [a]
  | b :: l' => if Rle_dec (key a) (key b) then a :: b :: l'
               else b :: insert_by key a l'
  end.

Definition sorted {A} (key : A -> R) (l : list A) : list A :=
  foldr (insert_by key) [] l.

Definition opacity (h : list Point3D) (line : Line) : Z :=
  py_int (255 * (if Rgt_dec (avg_z h line) 0 then 0.9 else 0.5)).

(** The integer width used by the width simulation. *)
Definition pixel_width (line : Line) : Z := Z.max 1 (py_int (width line)).

(** The [draw.line] calls issued for one line: the two nested loops over
    [range(width)]. *)
Definition draw_line (h : list Point3D) (line : Line) (rgba : Z * Z * Z * Z)
  : list Stroke :=
  let width := pixel_width line in
  let p1 := deref h (point1 line) in
  let p2 := deref h (point2 line) in
  flat_map (fun i =>
    map (fun j =>
      let offset_x := (i - width / 2)%Z in
      let offset_y := (j - width / 2)%Z in
      mkStroke (projected_2d_x p1 + IZR offset_x) (projected_2d_y p1 + IZR offset_y)
               (projected_2d_x p2 + IZR offset_x) (projected_2d_y p2 + IZR offset_y)
               rgba 1)
      (range width))
    (range width).

Definition draw_frame (gen : Generator) (angle_y : R) : M (Image * Generator) :=
  let img := mkImage (canvas_width (config gen)) (canvas_height (config gen)) [] in
  gen <- update_geometry gen angle_y ;
  h <- get_heap ;
  let sorted_lines := sorted (avg_z h) (all_lines gen) in
  img <- for_ sorted_lines (fun line img =>
    rgb <- hex_to_rgb (color line) ;
    let '(r, g, b) := rgb in
    ret (mkImage (image_width img) (image_height img)
                 (strokes img ++ draw_line h line (r, g, b, opacity h line)))) img ;
  ret (img, gen).

(** ** Animation driver *)

Definition start_angle : R := - PI / 6.

(** The loop of [generate_gif]: the frames rendered so far and the
    generator as the last frame left it. *)
Definition render_frames (gen : Generator) (frames : Z)
  : M (list Image * Generator) :=
  for_ (range frames) (fun frame '(images, gen) =>
    step <- pydiv (IZR frame * 2 * PI) (IZR frames) ;
    let angle_y := start_angle + step in
    r <- draw_frame gen angle_y ;
    ret (images ++ [fst r], snd r)) ([], gen).

(** [generate_gif]: what is handed to the encoder.  [images[0]] raises
    [IndexError] when no frame was rendered. *)
Definition generate_gif (gen : Generator) (frames : Z) (duration : Z)
  : M (list Image * Z) :=
  r <- render_frames gen frames ;
  first <- getitem (fst r) 0 ;
  ret (first :: skipn 1 (fst r), duration).

(** * Notions used by the statements *)

(** The vertex at grid position ([lat], [lon]). *)
Definition vertex (cfg : Config) (lat lon : Z) : Point3D :=
  spherical cfg (IZR lat * PI / IZR (latitude_lines cfg))
                (IZR lon * 2 * PI / IZR (longitude_lines cfg)).

Definition grid_row (cfg : Config) (lat : Z) : list Point3D :=
  map (vertex cfg lat) (range (longitude_lines cfg + 1)).

Definition grid (cfg : Config) : list Point3D :=
  flat_map (grid_row cfg) (range (latitude_lines cfg + 1)).

(** The object stored at index [i] of a list of references. *)
Definition at_index (pts : list ref) (i : Z) : ref :=
  default 0%nat (pts !! Z.to_nat i).

Definition latitude_segment (cfg : Config) (pts : list ref) (lat lon : Z) : Line :=
  new_Line (at_index pts (lat * (longitude_lines cfg + 1) + lon))
           (at_index pts (lat * (longitude_lines cfg + 1) + lon + 1)).

Definition longitude_segment (cfg : Config) (pts : list ref) (lon lat : Z) : Line :=
  new_Line (at_index pts (lat * (longitude_lines cfg + 1) + lon))
           (at_index pts ((lat + 1) * (longitude_lines cfg + 1) + lon)).

Definition latitude_segments (cfg : Config) (pts : list ref) : list Line :=
  flat_map (fun lat => map (latitude_segment cfg pts lat) (range (longitude_lines cfg)))
           (range (latitude_lines cfg + 1)).

Definition longitude_segments (cfg : Config) (pts : list ref) : list Line :=
  flat_map (fun lon => map (longitude_segment cfg pts lon) (range (latitude_lines cfg)))
           (range (longitude_lines cfg + 1)).

(** Two indices of the vertex list are neighbours along a latitude band,
    or along a meridian. *)
Definition latitude_neighbours (cfg : Config) (i j : Z) : Prop :=
  exists lat lon, (0 <= lat <= latitude_lines cfg)%Z /\
                  (0 <= lon < longitude_lines cfg)%Z /\
                  i = (lat * (longitude_lines cfg + 1) + lon)%Z /\
                  j = (lat * (longitude_lines cfg + 1) + (lon + 1))%Z.

Definition longitude_neighbours (cfg : Config) (i j : Z) : Prop :=
  exists lat lon, (0 <= lat < latitude_lines cfg)%Z /\
                  (0 <= lon <= longitude_lines cfg)%Z /\
                  i = (lat * (longitude_lines cfg + 1) + lon)%Z /\
                  j = ((lat + 1) * (longitude_lines cfg + 1) + lon)%Z.

(** A line whose endpoints are the very objects stored at indices [i] and
    [j] of the vertex list. *)
Definition joins (pts : list ref) (line : Line) (i j : Z) : Prop :=
  pts !! Z.to_nat i = Some (point1 line) /\ pts !! Z.to_nat j = Some (point2 line).

(** Axial tilt about X, then spin about Y, as [update_geometry] chains them. *)
Definition rotate (cfg : Config) (angle_y : R) (p : Point3D) : Vec3 :=
  rotate_y (ADict (rotate_x p (axial_tilt cfg))) angle_y.

(** The point as one frame leaves it: rotated from [x], [y], [z], then
    projected. *)
Definition transformed (cfg : Config) (angle_y : R) (p : Point3D) : Point3D :=
  let v := rotate cfg angle_y p in
  let scale := perspective / (perspective + vz v) in
  set_projected (vx v * scale + center_x cfg) (vy v * scale + center_y cfg)
                (set_rotated v p).

(** The squared distance of the original position from the origin. *)
Definition norm2 (p : Point3D) : R := x p * x p + y p * y p + z p * z p.

(** The point lies strictly inside the ball whose radius is the focal
    length. *)
Definition visible (p : Point3D) : Prop := norm2 p < perspective * perspective.

(** The heap after the loop over the points in [pts]: exactly the listed
    objects are transformed, each from its own [x], [y], [z]. *)
Definition heap_after (cfg : Config) (a : R) (pts : list ref) (h : list Point3D)
  : list Point3D :=
  imap (fun i p => if decide (i ∈ pts) then transformed cfg a p else p) h.

(** The midpoint object built by [update_geometry] for a line. *)
Definition mid_point (h : list Point3D) (line : Line) : Point3D :=
  let p1 := deref h (point1 line) in
  let p2 := deref h (point2 line) in
  new_Point3D ((rotated_x p1 + rotated_x p2) / 2)
              ((rotated_y p1 + rotated_y p2) / 2)
              ((rotated_z p1 + rotated_z p2) / 2).

(** The lighting scalar of [get_color_for_point]. *)
Definition lighting (cfg : Config) (point : Point3D) : R :=
  rotated_x point / radius cfg * -0.5
  + rotated_y point / radius cfg * -0.7
  + rotated_z point / radius cfg * 1.

(** The palette key reached by the threshold chain. *)
Definition band_of (s : R) : Band :=
  if Rgt_dec s 0.5 then light
  else if Rgt_dec s 0 then medium
  else if Rgt_dec s (-0.3) then dark
  else shadow.

(** What the line loop does to one line, read off the heap [h] of the
    current frame. *)
Definition shaded (cfg : Config) (h : list Point3D) (line line' : Line) : Prop :=
  point1 line' = point1 line /\
  point2 line' = point2 line /\
  is_artifact line' = is_artifact line /\
  if is_artifact line then
    color line' = (if Rgt_dec (avg_z h line) 0 then "#FF6B35" else "#8B2E1F")%string /\
    width line' = 8.0
  else
    color line' ∈ colors cfg (band_of (lighting cfg (mid_point h line))) /\
    width line' = if Rgt_dec (avg_z h line) 0 then 0.8 else 0.4.

(** Every non-overlay line can be given a colour on the heap [h] of the
    current frame: the palette its lighting selects is not empty. *)
Definition shadable (gen : Generator) (h : list Point3D) : Prop :=
  forall line, line ∈ all_lines gen -> is_artifact line = false ->
    colors (config gen) (band_of (lighting (config gen) (mid_point h line))) <> [].

(** A small concrete scene: two points of the default sphere joined by one
    structural line, and a constant random stream. *)
Definition demo_rng : Rng := mkRng (fun _ => 0) (fun _ => 0%nat) 0.

Definition demo_world : World :=
  mkWorld [new_Point3D 120 0 0; new_Point3D 0 120 0] demo_rng.

Definition demo_gen : Generator :=
  mkGenerator default_config [0%nat; 1%nat] [new_Line 0 1].

(** The two rotations as the specification writes them. *)
Definition Rx (t : R) (v : R * R * R) : R * R * R :=
  let '(x0, y0, z0) := v in
  (x0, y0 * cos t - z0 * sin t, y0 * sin t + z0 * cos t).

Definition Ry (a : R) (v : R * R * R) : R * R * R :=
  let '(x0, y0, z0) := v in
  (x0 * cos a + z0 * sin a, y0, - x0 * sin a + z0 * cos a).

(** The dot product of the specification. *)
Definition dot3 (u v : R * R * R) : R :=
  let '(u1, u2, u3) := u in
  let '(v1, v2, v3) := v in
  u1 * v1 + u2 * v2 + u3 * v3.

(** The fixed light vector of the specification. *)
Definition light_vector : R * R * R := (-0.5, -0.7, 1).

(** The rotated position of the segment's midpoint divided by the radius. *)
Definition mid_normal (cfg : Config) (h : list Point3D) (line : Line) : R * R * R :=
  let p1 := deref h (point1 line) in
  let p2 := deref h (point2 line) in
  ((rotated_x p1 + rotated_x p2) / 2 / radius cfg,
   (rotated_y p1 + rotated_y p2) / 2 / radius cfg,
   (rotated_z p1 + rotated_z p2) / 2 / radius cfg).

(** Ascending order of a key. *)
Definition key_le {A} (key : A -> R) (a b : A) : Prop := key a <= key b.

(** The colour string is accepted by [hex_to_rgb], whatever the state. *)
Definition parses (c : string) (rgb : Z * Z * Z) : Prop :=
  forall w, hex_to_rgb c w = Ok (rgb, w).

Definition valid_palette (cfg : Config) : Prop :=
  forall b c, c ∈ colors cfg b -> exists rgb, parses c rgb.

(** The strokes that one line contributes to the image. *)
Definition rendering (h : list Point3D) (line : Line) (group : list Stroke) : Prop :=
  exists r g b,
    parses (color line) (r, g, b) /\
    group = draw_line h line (r, g, b, opacity h line).

(** A scene that can be rendered at every angle. *)
Record renderable (gen : Generator) (w : World) : Prop := mkRenderable {
  renderable_radius : radius (config gen) <> 0;
  renderable_visible : forall p, p ∈ heap w -> visible p;
  renderable_nonempty : forall b, colors (config gen) b <> [];
  renderable_valid : valid_palette (config gen)
}.

(** The [w] x [w] grid of one-pixel strokes of the specification: stroke
    ([i], [j]) is moved by ([i - w/2], [j - w/2]) from the projected
    endpoints [p1], [p2]. *)
Definition width_grid (p1 p2 : Point3D) (rgba : Z * Z * Z * Z) (w : Z) : list Stroke :=
  flat_map (fun i =>
    map (fun j =>
      mkStroke (projected_2d_x p1 + IZR (i - w / 2)) (projected_2d_y p1 + IZR (j - w / 2))
               (projected_2d_x p2 + IZR (i - w / 2)) (projected_2d_y p2 + IZR (j - w / 2))
               rgba 1)
      (range w))
    (range w).

(** The geometry of a line: its endpoint references and overlay flag. *)
Definition same_segment (l l' : Line) : Prop :=
  point1 l' = point1 l /\ point2 l' = point2 l /\ is_artifact l' = is_artifact l.

(** The object-space coordinates of a point. *)
Definition same_position (p p' : Point3D) : Prop :=
  x p' = x p /\ y p' = y p /\ z p' = z p.

(** The two endpoints of the [k]-th shading stroke, read off the random
    stream [g] that [create_shading_lines] starts from. *)
Definition shading_points (cfg : Config) (g : Rng) (k : nat) : Point3D * Point3D :=
  let c := (cursor g + 5 * k)%nat in
  let theta1 := floats g c * PI in
  let phi1 := floats g (S c) * 2 * PI in
  let bias := floats g (S (S c)) in
  let final_phi1 := if Rlt_dec bias 0.6 then phi1 * 0.5 + PI * 0.75 else phi1 in
  let theta2 := theta1 + (floats g (S (S (S c))) - 0.5) * 0.5 in
  let phi2 := final_phi1 + (floats g (S (S (S (S c)))) - 0.5) * 0.5 in
  (spherical cfg theta1 final_phi1, spherical cfg theta2 phi2).

Definition pair_list {A} (p : A * A) : list A := [fst p; snd p].

(** The [k]-th line of a run of lines whose endpoints were allocated two by
    two from address [base] on. *)
Definition fresh_line (base : nat) (artifact : bool) (k : nat) : Line :=
  mkLine (base + 2 * k) (base + 2 * k + 1) "#FF6B35" 1 artifact.

(** The two endpoints of the [i]-th overlay segment. *)
Definition artifact_points (cfg : Config) (k : nat) : Point3D * Point3D :=
  let i := Z.of_nat k in
  let t := IZR i / IZR 50 in
  let next_t := IZR (i + 1) / IZR 50 in
  (spherical cfg (PI / 2 - (w_shape t - 0.5) * 0.225) (t * (PI / 12)),
   spherical cfg (PI / 2 - (w_shape next_t - 0.5) * 0.225) (next_t * (PI / 12))).

Definition shading_heap (cfg : Config) (g : Rng) : list Point3D :=
  flat_map (fun k => pair_list (shading_points cfg g k))
           (seq 0 (Z.to_nat (shading_density cfg))).

Definition artifact_heap (cfg : Config) : list Point3D :=
  flat_map (fun k => pair_list (artifact_points cfg k)) (seq 0 50).

(** The geometry set, given the heap size [base] before [__init__]. *)
Definition init_lines (cfg : Config) (base : nat) (g : Rng) : list Line :=
  let pts := seq base (length (grid cfg)) in
  (latitude_segments cfg pts ++ longitude_segments cfg pts)
  ++ map (fresh_line (base + length (grid cfg)) false)
         (seq 0 (Z.to_nat (shading_density cfg)))
  ++ map (fresh_line (base + length (grid cfg) + length (shading_heap cfg g)) true)
         (seq 0 50).

(** The point is the image of some pair of spherical angles. *)
Definition on_sphere (cfg : Config) (p : Point3D) : Prop :=
  exists theta phi, p = spherical cfg theta phi.

(** A random stream whose first three draws are 0.5, 0.5 and 0: the first
    stroke samples [theta1 = pi/2], [phi1 = pi] and its bias draw 0 is
    below 0.6. *)
Definition back_stream : Rng :=
  mkRng (fun n => match n with
                  | O => 0.5
                  | S O => 0.5
                  | _ => 0
                  end)
        (fun _ => 0%nat) 0.






(** The generator and the state that [__init__] produces from an empty heap
    and the random stream [g], for the constants of the program. *)
Definition default_gen (g : Rng) : Generator :=
  mkGenerator default_config (seq 0 (length (grid default_config)))
              (init_lines default_config 0 g).

Definition default_world (g : Rng) : World :=
  mkWorld (grid default_config ++ shading_heap default_config g
           ++ artifact_heap default_config)
          (mkRng (floats g) (ints g) (cursor g + 5 * 1200)).


(** * Further code and notions for the properties beyond the claims *)

(** The overlay lines and the other lines of a geometry set. *)
Definition overlay_lines (lines : list Line) : list Line :=
  List.filter is_artifact lines.

Definition plain_lines (lines : list Line) : list Line :=
  List.filter (fun line => negb (is_artifact line)) lines.

(** The number of [draw.line] calls a line costs: its pixel width squared,
    64 for an overlay line and 1 for any other. *)
Definition stroke_cost (line : Line) : nat := if is_artifact line then 64%nat else 1%nat.

(** The endpoint references of a list of lines, in order. *)
Definition endpoints (lines : list Line) : list ref :=
  flat_map (fun line => [point1 line; point2 line]) lines.

(** The number of structural lines of a full grid. *)
Definition structural_count (cfg : Config) : nat :=
  (Z.to_nat (latitude_lines cfg + 1) * Z.to_nat (longitude_lines cfg)
   + Z.to_nat (longitude_lines cfg + 1) * Z.to_nat (latitude_lines cfg))%nat.


(** ** Colour darkening *)

(** The lowercase hexadecimal digit of a value between 0 and 15. *)
Definition hex_char (d : Z) : ascii :=
  ascii_of_nat (Z.to_nat (if (d <? 10)%Z then (48 + d)%Z else (87 + d)%Z)).

(** The digits of [n >= 0] in base 16 put in front of [acc], the most
    significant first; one digit at least. *)
Fixpoint hex_of (fuel : nat) (n : Z) (acc : string) : string :=
  match fuel with
  | O => acc
  | S fuel' =>
      let acc' := String (hex_char (n mod 16)) acc in
      if (n / 16 =? 0)%Z then acc' else hex_of fuel' (n / 16)%Z acc'
  end.

(** [format(n, 'x')] for [n >= 0]: a number has no more hexadecimal digits
    than binary ones. *)
Definition hex (n : Z) : string := hex_of (S (Z.to_nat (Z.log2 n))) n "".

(** [f"{n:02x}"]: the sign of a negative number, then the digits, padded
    with zeros to a total width of two. *)
Definition format_02x (n : Z) : string :=
  if (n <? 0)%Z then String "-" (hex (- n))
  else let s := hex n in
       if (String.length s <? 2)%nat then String "0" s else s.

(** [darken_color], with an integer [amount] as its default 20 is. *)
Definition darken_color (hex_color : string) (amount : Z) : M string :=
  rgb <- hex_to_rgb hex_color ;
  let '(r, g, b) := rgb in
  let r := Z.max 0 (r - amount) in
  let g := Z.max 0 (g - amount) in
  let b := Z.max 0 (b - amount) in
  ret (String "#" (format_02x r ++ format_02x g ++ format_02x b)%string).

(** The check that formatting a byte gives two hexadecimal digits that read
    back as the byte. *)
Definition byte_round_trip (n : Z) : bool :=
  match format_02x n with
  | String c1 (String c2 EmptyString) =>
      match hex_digit c1, hex_digit c2 with
      | Some d1, Some d2 => (16 * d1 + d2 =? n)%Z
      | _, _ => false
      end
  | _ => false
  end.

(** * Verification *)

(** ** Reasoning about the monad and its loops *)

Lemma bind_ok {A B} (m : M A) (k : A -> M B) w a w' :
  m w = Ok (a, w') -> bind m k w = k a w'.
Proof. intros H. unfold bind. now rewrite H. Qed.

Lemma bind_raise {A B} (m : M A) (k : A -> M B) w e :
  m w = Raise e -> bind m k w = Raise e.
Proof. intros H. unfold bind. now rewrite H. Qed.

(** Loop rule: an invariant indexed by the consumed prefix that every
    iteration re-establishes holds of the whole list when the loop ends,
    and the loop does end normally. *)
Lemma for_inv {A S} (I : list A -> S -> World -> Prop)
      (body : A -> S -> M S) (all : list A) :
  (forall done a rest s w,
      all = done ++ a :: rest -> I done s w ->
      exists s' w', body a s w = Ok (s', w') /\ I (done ++ [a]) s' w') ->
  forall xs done s w,
    all = done ++ xs -> I done s w ->
    exists s' w', for_ xs body s w = Ok (s', w') /\ I all s' w'.
Proof.
  intros Hstep xs. induction xs as [|a xs IH]; intros done s w Hall HI.
  - rewrite app_nil_r in Hall. subst. now exists s, w.
  - destruct (Hstep done a xs s w Hall HI) as (s1 & w1 & Hb & HI1).
    cbn [for_]. rewrite (bind_ok _ _ _ _ _ Hb).
    apply (IH (done ++ [a])); [|exact HI1].
    now rewrite <- app_assoc.
Qed.

Lemma for_inv0 {A S} (I : list A -> S -> World -> Prop)
      (body : A -> S -> M S) (all : list A) s w :
  I [] s w ->
  (forall done a rest s w,
      all = done ++ a :: rest -> I done s w ->
      exists s' w', body a s w = Ok (s', w') /\ I (done ++ [a]) s' w') ->
  exists s' w', for_ all body s w = Ok (s', w') /\ I all s' w'.
Proof.
  intros H0 Hstep. now apply (for_inv I body all Hstep all [] s w).
Qed.

(** The same for [mapM]: a relation between each element and its image. *)
Lemma mapM_inv {A B} (I : World -> Prop) (Q : A -> B -> Prop)
      (f : A -> M B) (xs : list A) :
  (forall a w, a ∈ xs -> I w -> exists b w', f a w = Ok (b, w') /\ I w' /\ Q a b) ->
  forall w, I w ->
    exists bs w', mapM f xs w = Ok (bs, w') /\ I w' /\ Forall2 Q xs bs.
Proof.
  induction xs as [|a xs IH]; intros Hstep w HI.
  - exists [], w. repeat split; auto.
  - destruct (Hstep a w) as (b & w1 & Hf & HI1 & HQ); [left | exact HI |].
    destruct (IH (fun a' w' Hin => Hstep a' w' (list_elem_of_further _ _ _ Hin)) w1 HI1)
      as (bs & w2 & Hm & HI2 & HQs).
    exists (b :: bs), w2. cbn [mapM].
    rewrite (bind_ok _ _ _ _ _ Hf), (bind_ok _ _ _ _ _ Hm).
    repeat split; auto.
Qed.

(** ** [range] *)

Lemma range_length n : length (range n) = Z.to_nat n.
Proof. unfold range. now rewrite length_map, length_seq. Qed.

Lemma range_lookup n (i : nat) :
  (i < Z.to_nat n)%nat -> range n !! i = Some (Z.of_nat i).
Proof.
  intros H. unfold range. rewrite list_lookup_fmap.
  rewrite lookup_seq_lt by exact H. reflexivity.
Qed.

Lemma range_elem n k : k ∈ range n <-> (0 <= k < n)%Z.
Proof.
  unfold range. rewrite list_elem_of_fmap. split.
  - intros (i & -> & Hi). apply elem_of_seq in Hi. lia.
  - intros H. exists (Z.to_nat k). split; [lia|]. apply elem_of_seq. lia.
Qed.

Lemma range_prefix n done a rest :
  range n = done ++ a :: rest -> a = Z.of_nat (length done) /\ (0 <= a < n)%Z.
Proof.
  intros H.
  assert (Hl : range n !! length done = Some a).
  { rewrite H. rewrite lookup_app_r by lia. now rewrite Nat.sub_diag. }
  assert (Hlt : (length done < Z.to_nat n)%nat).
  { apply lookup_lt_Some in Hl. now rewrite range_length in Hl. }
  rewrite range_lookup in Hl by exact Hlt. inversion Hl. split; lia.
Qed.

Lemma range_nonpos n : (n <= 0)%Z -> range n = [].
Proof. intros H. unfold range. now replace (Z.to_nat n) with 0%nat by lia. Qed.

(** ** The vertex grid and the structural segments *)

Lemma flat_map_const_length {A B} (f : A -> list B) (l : list A) n :
  (forall a, a ∈ l -> length (f a) = n) ->
  length (flat_map f l) = (length l * n)%nat.
Proof.
  induction l as [|a l IH]; intros H; [reflexivity|].
  cbn [flat_map]. rewrite length_app, (H a) by left.
  rewrite IH; [reflexivity|]. intros b Hb. apply H. now right.
Qed.

Lemma flat_map_const_lookup {A B} (f : A -> list B) (l : list A) n i j a :
  (forall a, a ∈ l -> length (f a) = n) ->
  l !! i = Some a -> (j < n)%nat ->
  flat_map f l !! (i * n + j)%nat = f a !! j.
Proof.
  revert i. induction l as [|b l IH]; intros i H Hi Hj; [discriminate|].
  cbn [flat_map]. destruct i as [|i].
  - inversion Hi; subst. cbn [Nat.mul Nat.add].
    apply lookup_app_l. rewrite (H a) by left. exact Hj.
  - rewrite lookup_app_r; rewrite (H b) by left; [|lia].
    replace (S i * n + j - n)%nat with (i * n + j)%nat by lia.
    apply IH; auto. intros c Hc. apply H. now right.
Qed.

Lemma elem_of_flat_map {A B} (f : A -> list B) (l : list A) b :
  b ∈ flat_map f l <-> exists a, a ∈ l /\ b ∈ f a.
Proof.
  rewrite !list_elem_of_In, in_flat_map. split.
  - intros (a & Ha & Hb). exists a. now rewrite !list_elem_of_In.
  - intros (a & Ha & Hb). exists a. now rewrite <- !list_elem_of_In.
Qed.

Lemma grid_row_length cfg lat :
  length (grid_row cfg lat) = Z.to_nat (longitude_lines cfg + 1).
Proof. unfold grid_row. now rewrite length_map, range_length. Qed.

Lemma grid_length cfg :
  length (grid cfg) =
  (Z.to_nat (latitude_lines cfg + 1) * Z.to_nat (longitude_lines cfg + 1))%nat.
Proof.
  unfold grid. rewrite (flat_map_const_length _ _ (Z.to_nat (longitude_lines cfg + 1))).
  - now rewrite range_length.
  - intros. apply grid_row_length.
Qed.

Lemma grid_lookup cfg lat lon :
  (0 <= lat <= latitude_lines cfg)%Z -> (0 <= lon <= longitude_lines cfg)%Z ->
  grid cfg !! Z.to_nat (lat * (longitude_lines cfg + 1) + lon) = Some (vertex cfg lat lon).
Proof.
  intros Hlat Hlon. unfold grid.
  replace (Z.to_nat (lat * (longitude_lines cfg + 1) + lon))
    with (Z.to_nat lat * Z.to_nat (longitude_lines cfg + 1) + Z.to_nat lon)%nat by nia.
  rewrite (flat_map_const_lookup _ _ (Z.to_nat (longitude_lines cfg + 1)) _ _ lat).
  - unfold grid_row. rewrite list_lookup_fmap, range_lookup by lia.
    cbn. now rewrite Z2Nat.id by lia.
  - intros. apply grid_row_length.
  - rewrite range_lookup by lia. now rewrite Z2Nat.id by lia.
  - lia.
Qed.

Lemma pydiv_ok a b w : b <> 0 -> pydiv a b w = Ok (a / b, w).
Proof. intros H. unfold pydiv. now destruct (Req_dec_T b 0). Qed.

Lemma pydiv_zero a w : pydiv a 0 w = Raise ZeroDivisionError.
Proof. unfold pydiv. destruct (Req_dec_T 0 0); [reflexivity | contradiction]. Qed.

Lemma IZR_neq0 n : (n <> 0)%Z -> IZR n <> 0.
Proof. intros H. now apply not_0_IZR. Qed.

(** One latitude band of [create_sphere_points]. *)
Lemma sphere_row_ok cfg lat points w :
  (longitude_lines cfg <> 0)%Z ->
  for_ (range (longitude_lines cfg + 1)) (fun lon points =>
      phi <- pydiv (IZR lon * 2 * PI) (IZR (longitude_lines cfg)) ;
      p <- alloc (spherical cfg (IZR lat * PI / IZR (latitude_lines cfg)) phi) ;
      ret (points ++ [p])) points w
  = Ok (points ++ seq (length (heap w)) (length (grid_row cfg lat)),
        mkWorld (heap w ++ grid_row cfg lat) (rng w)).
Proof.
  intros HN.
  pose (I := fun (done : list Z) (s : list ref) (w' : World) =>
               s = points ++ seq (length (heap w)) (length done) /\
               w' = mkWorld (heap w ++ map (vertex cfg lat) done) (rng w)).
  edestruct (for_inv0 I) as (s' & w' & Hrun & Hs & Hw); cycle 2.
  - rewrite Hrun, Hs, Hw. unfold grid_row. now rewrite length_map.
  - split; cbn; [now rewrite app_nil_r | destruct w; now rewrite app_nil_r].
  - intros done a rest s w0 Hall [Hs Hw]. subst s w0.
    rewrite (bind_ok _ _ _ _ _ (pydiv_ok _ _ _ (IZR_neq0 _ HN))).
    eexists _, _. split; [reflexivity|]. split; cbn.
    + rewrite length_app, length_map, length_app, seq_app, app_assoc. reflexivity.
    + now rewrite map_app, app_assoc.
Qed.

Lemma create_sphere_points_ok cfg w :
  (latitude_lines cfg <> 0)%Z -> (longitude_lines cfg <> 0)%Z ->
  create_sphere_points cfg w
  = Ok (seq (length (heap w)) (length (grid cfg)),
        mkWorld (heap w ++ grid cfg) (rng w)).
Proof.
  intros HL HN. unfold create_sphere_points.
  pose (I := fun (done : list Z) (s : list ref) (w' : World) =>
               s = seq (length (heap w)) (length (flat_map (grid_row cfg) done)) /\
               w' = mkWorld (heap w ++ flat_map (grid_row cfg) done) (rng w)).
  edestruct (for_inv0 I) as (s' & w' & Hrun & Hs & Hw); cycle 2.
  - rewrite Hrun, Hs, Hw. reflexivity.
  - split; cbn; [reflexivity | destruct w; now rewrite app_nil_r].
  - intros done a rest s w0 Hall [Hs Hw]. subst s w0.
    rewrite (bind_ok _ _ _ _ _ (pydiv_ok _ _ _ (IZR_neq0 _ HL))).
    rewrite sphere_row_ok by exact HN.
    eexists _, _. split; [reflexivity|]. split; cbn.
    + rewrite flat_map_app. cbn. rewrite app_nil_r.
      rewrite !length_app. rewrite seq_app. reflexivity.
    + rewrite flat_map_app. cbn. now rewrite app_nil_r, app_assoc.
Qed.

Lemma getitem_ok (pts : list ref) i w :
  (Z.to_nat i < length pts)%nat -> getitem pts i w = Ok (at_index pts i, w).
Proof.
  intros H. unfold getitem, at_index.
  destruct (lookup_lt_is_Some_2 pts (Z.to_nat i) H) as [a Ha].
  rewrite Ha. reflexivity.
Qed.

Lemma getitem_at_index (pts : list ref) i :
  (Z.to_nat i < length pts)%nat -> pts !! Z.to_nat i = Some (at_index pts i).
Proof.
  intros H. unfold at_index.
  destruct (lookup_lt_is_Some_2 pts (Z.to_nat i) H) as [a Ha].
  rewrite Ha. reflexivity.
Qed.

(** A loop that appends one computed line per element and touches nothing
    else. *)
Lemma append_loop_ok {A} (xs : list A) (mk : A -> Line)
      (body : A -> list Line -> M (list Line)) lines w :
  (forall a s w, a ∈ xs -> body a s w = Ok (s ++ [mk a], w)) ->
  for_ xs body lines w = Ok (lines ++ map mk xs, w).
Proof.
  revert lines. induction xs as [|a xs IH]; intros lines H; cbn [for_ map].
  - now rewrite app_nil_r.
  - rewrite (bind_ok _ _ _ _ _ (H a lines w ltac:(left))).
    rewrite IH; [now rewrite <- app_assoc|].
    intros b s w' Hb. apply H. now right.
Qed.

Lemma concat_loop_ok {A} (xs : list A) (mk : A -> list Line)
      (body : A -> list Line -> M (list Line)) lines w :
  (forall a s w, a ∈ xs -> body a s w = Ok (s ++ mk a, w)) ->
  for_ xs body lines w = Ok (lines ++ flat_map mk xs, w).
Proof.
  revert lines. induction xs as [|a xs IH]; intros lines H; cbn [for_ flat_map].
  - now rewrite app_nil_r.
  - rewrite (bind_ok _ _ _ _ _ (H a lines w ltac:(left))).
    rewrite IH; [now rewrite <- app_assoc|].
    intros b s w' Hb. apply H. now right.
Qed.

Lemma create_structural_lines_ok cfg pts w :
  (0 < latitude_lines cfg)%Z -> (0 < longitude_lines cfg)%Z ->
  length pts = (Z.to_nat (latitude_lines cfg + 1) * Z.to_nat (longitude_lines cfg + 1))%nat ->
  create_structural_lines cfg pts w
  = Ok (latitude_segments cfg pts ++ longitude_segments cfg pts, w).
Proof.
  intros HL HN Hlen. unfold create_structural_lines.
  erewrite bind_ok; cycle 1.
  { apply (concat_loop_ok _ (fun lat => map (latitude_segment cfg pts lat)
                                          (range (longitude_lines cfg)))).
    intros lat s w0 Hlat. apply range_elem in Hlat.
    apply append_loop_ok. intros lon s1 w1 Hlon. apply range_elem in Hlon.
    do 2 (erewrite bind_ok; [|apply getitem_ok; rewrite Hlen; nia]).
    reflexivity. }
  cbn [app].
  apply (concat_loop_ok _ (fun lon => map (longitude_segment cfg pts lon)
                                        (range (latitude_lines cfg)))).
  intros lon s w0 Hlon. apply range_elem in Hlon.
  apply append_loop_ok. intros lat s1 w1 Hlat. apply range_elem in Hlat.
  do 2 (erewrite bind_ok; [|apply getitem_ok; rewrite Hlen; nia]).
  reflexivity.
Qed.

Lemma latitude_segments_length cfg pts :
  length (latitude_segments cfg pts) =
  (Z.to_nat (latitude_lines cfg + 1) * Z.to_nat (longitude_lines cfg))%nat.
Proof.
  unfold latitude_segments.
  rewrite (flat_map_const_length _ _ (Z.to_nat (longitude_lines cfg))).
  - now rewrite range_length.
  - intros. now rewrite length_map, range_length.
Qed.

Lemma longitude_segments_length cfg pts :
  length (longitude_segments cfg pts) =
  (Z.to_nat (longitude_lines cfg + 1) * Z.to_nat (latitude_lines cfg))%nat.
Proof.
  unfold longitude_segments.
  rewrite (flat_map_const_length _ _ (Z.to_nat (latitude_lines cfg))).
  - now rewrite range_length.
  - intros. now rewrite length_map, range_length.
Qed.

(** C2. For positive [latitude_lines = L] and [longitude_lines = M],
    [create_sphere_points] allocates exactly [(L+1)*(M+1)] distinct vertex
    objects, vertex ([lat], [lon]) being stored at index [lat*(M+1)+lon];
    [create_structural_lines] then allocates no point at all and returns
    [(L+1)*M] latitude segments followed by [(M+1)*L] longitude segments,
    every one of which holds the references of two neighbouring grid
    vertices of that list. *)
Theorem grid_and_structural_counts (cfg : Config) (w : World) :
  (0 < latitude_lines cfg)%Z -> (0 < longitude_lines cfg)%Z ->
  exists pts w1 lat_lines lon_lines,
    create_sphere_points cfg w = Ok (pts, w1) /\
    Z.of_nat (length pts) = ((latitude_lines cfg + 1) * (longitude_lines cfg + 1))%Z /\
    NoDup pts /\
    (forall lat lon, (0 <= lat <= latitude_lines cfg)%Z ->
                     (0 <= lon <= longitude_lines cfg)%Z ->
       exists r, pts !! Z.to_nat (lat * (longitude_lines cfg + 1) + lon) = Some r /\
                 heap w !! r = None /\
                 heap w1 !! r = Some (vertex cfg lat lon)) /\
    create_structural_lines cfg pts w1 = Ok (lat_lines ++ lon_lines, w1) /\
    Z.of_nat (length lat_lines) = ((latitude_lines cfg + 1) * longitude_lines cfg)%Z /\
    Z.of_nat (length lon_lines) = ((longitude_lines cfg + 1) * latitude_lines cfg)%Z /\
    (forall line, line ∈ lat_lines ->
       exists i j, latitude_neighbours cfg i j /\ joins pts line i j) /\
    (forall line, line ∈ lon_lines ->
       exists i j, longitude_neighbours cfg i j /\ joins pts line i j).
Proof.
  intros HL HN.
  assert (Hlen : length (seq (length (heap w)) (length (grid cfg))) =
                 (Z.to_nat (latitude_lines cfg + 1) * Z.to_nat (longitude_lines cfg + 1))%nat)
    by (now rewrite length_seq, grid_length).
  eexists _, _, _, _. split; [apply create_sphere_points_ok; lia|].
  split; [rewrite Hlen; nia|].
  split; [apply NoDup_ListNoDup, List.seq_NoDup|].
  split.
  { intros lat lon Hlat Hlon.
    exists (length (heap w) + Z.to_nat (lat * (longitude_lines cfg + 1) + lon))%nat.
    split; [|split].
    - rewrite lookup_seq_lt; [reflexivity|]. rewrite grid_length. nia.
    - apply lookup_ge_None. lia.
    - cbn [heap]. rewrite lookup_app_r by lia.
      replace (length (heap w) + _ - length (heap w))%nat
        with (Z.to_nat (lat * (longitude_lines cfg + 1) + lon)) by lia.
      now apply grid_lookup. }
  split; [apply create_structural_lines_ok; [lia | lia | exact Hlen]|].
  split; [rewrite latitude_segments_length; nia|].
  split; [rewrite longitude_segments_length; nia|].
  split.
  - intros line Hin. unfold latitude_segments in Hin.
    apply elem_of_flat_map in Hin as (lat & Hlat & Hin).
    apply list_elem_of_fmap in Hin as (lon & -> & Hlon).
    apply range_elem in Hlat, Hlon.
    eexists _, _. split.
    + exists lat, lon. repeat split; try lia.
    + split; cbn [point1 point2 latitude_segment new_Line].
      * apply getitem_at_index. rewrite Hlen. nia.
      * replace (lat * (longitude_lines cfg + 1) + (lon + 1))%Z
          with (lat * (longitude_lines cfg + 1) + lon + 1)%Z by lia.
        apply getitem_at_index. rewrite Hlen. nia.
  - intros line Hin. unfold longitude_segments in Hin.
    apply elem_of_flat_map in Hin as (lon & Hlon & Hin).
    apply list_elem_of_fmap in Hin as (lat & -> & Hlat).
    apply range_elem in Hlat, Hlon.
    eexists _, _. split.
    + exists lat, lon. repeat split; try lia.
    + split; cbn [point1 point2 longitude_segment new_Line];
        apply getitem_at_index; rewrite Hlen; nia.
Qed.

Lemma grid_and_structural_counts_witness :
  exists pts w1 lines,
    create_sphere_points default_config demo_world = Ok (pts, w1) /\
    Z.of_nat (length pts) = 2009%Z /\
    create_structural_lines default_config pts w1 = Ok (lines, w1) /\
    Z.of_nat (length lines) = (1968 + 1960)%Z.
Proof.
  destruct (grid_and_structural_counts default_config demo_world eq_refl eq_refl)
    as (pts & w1 & lat_lines & lon_lines & Hpts & Hlen & _ & _ & Hlines & Hlat & Hlon & _).
  exists pts, w1, (lat_lines ++ lon_lines).
  split; [exact Hpts|]. split; [exact Hlen|]. split; [exact Hlines|].
  rewrite length_app, Nat2Z.inj_add, Hlat, Hlon. reflexivity.
Defined.

(** ** Rotation and projection *)

Lemma sin2_cos2' a : sin a * sin a + cos a * cos a = 1.
Proof. generalize (sin2_cos2 a). unfold Rsqr. auto. Qed.

Lemma rotate_x_norm p t :
  vx (rotate_x p t) * vx (rotate_x p t) + vy (rotate_x p t) * vy (rotate_x p t)
  + vz (rotate_x p t) * vz (rotate_x p t) = norm2 p.
Proof.
  unfold rotate_x, norm2. cbn [vx vy vz].
  transitivity (x p * x p + (y p * y p + z p * z p) * (sin t * sin t + cos t * cos t)).
  - ring.
  - rewrite sin2_cos2'. ring.
Qed.

Lemma rotate_y_norm d a :
  vx (rotate_y (ADict d) a) * vx (rotate_y (ADict d) a)
  + vy (rotate_y (ADict d) a) * vy (rotate_y (ADict d) a)
  + vz (rotate_y (ADict d) a) * vz (rotate_y (ADict d) a)
  = vx d * vx d + vy d * vy d + vz d * vz d.
Proof.
  unfold rotate_y. cbn [vx vy vz].
  transitivity ((vx d * vx d + vz d * vz d) * (sin a * sin a + cos a * cos a)
                + vy d * vy d).
  - ring.
  - rewrite sin2_cos2'. ring.
Qed.

Lemma rotate_norm cfg a p :
  vx (rotate cfg a p) * vx (rotate cfg a p) +
  vy (rotate cfg a p) * vy (rotate cfg a p) +
  vz (rotate cfg a p) * vz (rotate cfg a p) = norm2 p.
Proof. unfold rotate. now rewrite rotate_y_norm, rotate_x_norm. Qed.

Lemma visible_denominator cfg a p :
  visible p -> 0 < perspective + vz (rotate cfg a p).
Proof.
  unfold visible. intros H. pose proof (rotate_norm cfg a p) as Hn.
  set (v := rotate cfg a p) in *. unfold perspective in *.
  assert (Hz : vz v * vz v < 800 * 800) by nra.
  nra.
Qed.

Lemma spherical_norm cfg theta phi :
  norm2 (spherical cfg theta phi) = radius cfg * radius cfg.
Proof.
  unfold norm2, spherical, new_Point3D. cbn [x y z].
  transitivity
    (radius cfg * radius cfg *
     (sin theta * sin theta * (sin phi * sin phi + cos phi * cos phi)
      + cos theta * cos theta)).
  - ring.
  - rewrite sin2_cos2'. rewrite Rmult_1_r, sin2_cos2'. ring.
Qed.

Lemma deref_lookup h r p : h !! r = Some p -> deref h r = p.
Proof. intros H. unfold deref. now rewrite H. Qed.

Lemma deref_insert_eq h r p : (r < length h)%nat -> deref (<[r := p]> h) r = p.
Proof. intros H. unfold deref. now rewrite list_lookup_insert_eq. Qed.

Lemma update_point_ok cfg a r w :
  perspective + vz (rotate cfg a (deref (heap w) r)) <> 0 ->
  update_point cfg a r w =
  Ok (tt, mkWorld (<[r := transformed cfg a (deref (heap w) r)]> (heap w)) (rng w)).
Proof.
  intros Hden. unfold update_point, project_3d, get_heap, modify_point, bind, ret.
  cbn [heap rng].
  destruct (le_lt_dec (length (heap w)) r) as [Hge|Hlt].
  - (* a dangling address: every update is a no-op on the origin *)
    rewrite !list_insert_ge by (rewrite ?length_insert; lia).
    assert (Hd : deref (heap w) r = new_Point3D 0 0 0).
    { unfold deref. now rewrite lookup_ge_None_2. }
    rewrite Hd in *. cbn [rotated_z new_Point3D].
    rewrite pydiv_ok by (unfold perspective; lra). cbn [heap rng].
    rewrite list_insert_ge by lia. reflexivity.
  - rewrite deref_insert_eq by exact Hlt.
    cbn [set_rotated rotated_z rotated_x rotated_y].
    fold (rotate cfg a (deref (heap w) r)).
    rewrite pydiv_ok by exact Hden. cbn [heap rng].
    rewrite deref_insert_eq by exact Hlt.
    rewrite list_insert_insert_eq. reflexivity.
Qed.

Lemma heap_after_length cfg a pts h : length (heap_after cfg a pts h) = length h.
Proof. apply length_imap. Qed.

Lemma heap_after_lookup cfg a pts h i :
  heap_after cfg a pts h !! i =
  (fun p => if decide (i ∈ pts) then transformed cfg a p else p) <$> h !! i.
Proof. unfold heap_after. now rewrite list_lookup_imap. Qed.

Lemma heap_after_nil cfg a h : heap_after cfg a [] h = h.
Proof.
  apply list_eq. intros i. rewrite heap_after_lookup.
  destruct (h !! i); cbn; [|reflexivity].
  destruct (decide (i ∈ [])) as [Hin|]; [|reflexivity]. inversion Hin.
Qed.

Lemma visible_origin : visible (new_Point3D 0 0 0).
Proof. unfold visible, norm2, perspective. cbn. lra. Qed.

Lemma visible_deref h r :
  (forall p, p ∈ h -> visible p) -> visible (deref h r).
Proof.
  intros H. unfold deref. destruct (h !! r) as [p|] eqn:E; cbn.
  - apply H. now apply list_elem_of_lookup_2 in E.
  - apply visible_origin.
Qed.

Lemma points_loop_ok cfg a pts w :
  NoDup pts ->
  (forall p, p ∈ heap w -> visible p) ->
  for_ pts (fun point (_ : unit) => update_point cfg a point) tt w =
  Ok (tt, mkWorld (heap_after cfg a pts (heap w)) (rng w)).
Proof.
  intros Hnd Hvis.
  pose (I := fun (done : list ref) (_ : unit) (w' : World) =>
               w' = mkWorld (heap_after cfg a done (heap w)) (rng w)).
  edestruct (for_inv0 I) as ([] & w' & Hrun & Hw); cycle 2.
  - rewrite Hrun, Hw. reflexivity.
  - unfold I. rewrite heap_after_nil. now destruct w.
  - intros done r rest [] w0 Hall Hw. unfold I in Hw. subst w0.
    assert (Hr : r ∉ done).
    { rewrite Hall in Hnd. apply NoDup_app in Hnd as (_ & Hd & _).
      intros Hin. apply (Hd r Hin). left. }
    assert (Hd : deref (heap_after cfg a done (heap w)) r = deref (heap w) r).
    { unfold deref. rewrite heap_after_lookup.
      destruct (heap w !! r); cbn; [|reflexivity].
      now destruct (decide (r ∈ done)). }
    rewrite update_point_ok; cbn [heap rng]; rewrite Hd.
    2:{ apply Rgt_not_eq, Rlt_gt, visible_denominator, visible_deref, Hvis. }
    eexists tt, _. split; [reflexivity|]. unfold I. f_equal.
    apply list_eq. intros i. rewrite heap_after_lookup.
    destruct (decide (i = r)) as [->|Hne].
    + destruct (heap w !! r) as [p|] eqn:E.
      * rewrite list_lookup_insert_eq
          by (rewrite heap_after_length; now apply lookup_lt_Some in E).
        cbn. rewrite (deref_lookup _ _ _ E).
        destruct (decide (r ∈ done ++ [r])) as [|Hn]; [reflexivity|].
        exfalso. apply Hn. apply elem_of_app. right. left.
      * rewrite list_insert_ge
          by (rewrite heap_after_length; now apply lookup_ge_None in E).
        rewrite heap_after_lookup, E. reflexivity.
    + rewrite list_lookup_insert_ne by congruence.
      rewrite heap_after_lookup. destruct (heap w !! i); cbn; [|reflexivity].
      destruct (decide (i ∈ done)) as [Hi|Hi], (decide (i ∈ done ++ [r])) as [Hj|Hj];
        try reflexivity.
      * exfalso. apply Hj. apply elem_of_app. now left.
      * exfalso. apply elem_of_app in Hj as [Hj|Hj]; [contradiction|].
        apply list_elem_of_singleton in Hj. contradiction.
Qed.

(** Membership in the set of endpoint objects. *)
Lemma all_points_spec lines r :
  r ∈ all_points lines <->
  exists line, line ∈ lines /\ (r = point1 line \/ r = point2 line).
Proof.
  unfold all_points.
  assert (G : forall s : gset nat,
             r ∈ foldl (fun s line => s ∪ {[ point1 line ]} ∪ {[ point2 line ]}) s lines
                        <-> r ∈ s \/ exists line, line ∈ lines /\
                                     (r = point1 line \/ r = point2 line)).
  { induction lines as [|l lines IH]; intros s; cbn [foldl].
    - split; [now left|]. intros [H|(line & Hin & _)]; [exact H|inversion Hin].
    - rewrite IH. rewrite !elem_of_union, !elem_of_singleton. split.
      + intros [[[H|H]|H]|(line & Hin & H)].
        * now left.
        * right. exists l. split; [left|now left].
        * right. exists l. split; [left|now right].
        * right. exists line. split; [now right|exact H].
      + intros [H|(line & Hin & H)]; [now left; left; left|].
        apply elem_of_cons in Hin as [->|Hin].
        * left. destruct H as [H|H]; [left; now right | now right].
        * right. now exists line. }
  rewrite G. split; [|now right].
  intros [H|H]; [|exact H]. now apply not_elem_of_empty in H.
Qed.

(** ** Shading *)

Lemma get_color_for_point_band cfg point w :
  radius cfg <> 0 ->
  get_color_for_point cfg point w =
  choice (colors cfg (band_of (lighting cfg point))) w.
Proof.
  intros Hr. unfold get_color_for_point.
  rewrite !(bind_ok _ _ _ _ _ (pydiv_ok _ _ _ Hr)).
  fold (lighting cfg point). unfold band_of.
  repeat destruct (Rgt_dec _ _); reflexivity.
Qed.

Lemma get_color_for_point_radius0 cfg point w :
  radius cfg = 0 -> get_color_for_point cfg point w = Raise ZeroDivisionError.
Proof.
  intros Hr. unfold get_color_for_point. rewrite Hr.
  apply bind_raise, pydiv_zero.
Qed.

Lemma choice_ok (seq : list string) w :
  seq <> [] ->
  exists c, c ∈ seq /\ choice seq w = Ok (c, mkWorld (heap w) (advance (rng w))).
Proof.
  intros Hne. unfold choice.
  assert (Hlt : (ints (rng w) (cursor (rng w)) mod length seq < length seq)%nat).
  { apply Nat.mod_upper_bound. destruct seq; [contradiction | cbn; lia]. }
  destruct (lookup_lt_is_Some_2 _ _ Hlt) as [c Hc].
  exists c. rewrite Hc. split; [|reflexivity].
  now apply list_elem_of_lookup_2 in Hc.
Qed.

Lemma update_line_ok cfg line w :
  radius cfg <> 0 ->
  (is_artifact line = false ->
   colors cfg (band_of (lighting cfg (mid_point (heap w) line))) <> []) ->
  exists line' w',
    update_line cfg line w = Ok (line', w') /\ heap w' = heap w /\
    shaded cfg (heap w) line line'.
Proof.
  intros Hr Hpal. unfold update_line, get_heap.
  unfold bind at 1. unfold shaded.
  destruct (is_artifact line) eqn:Hart.
  - eexists _, w. split; [reflexivity|]. repeat split; cbn; auto.
  - fold (mid_point (heap w) line).
    destruct (choice_ok _ w (Hpal eq_refl)) as (c & Hc & Hrun).
    rewrite <- get_color_for_point_band in Hrun by exact Hr.
    rewrite (bind_ok _ _ _ _ _ Hrun).
    eexists _, _. split; [reflexivity|]. repeat split; cbn; auto.
Qed.

Lemma update_geometry_ok gen a w :
  radius (config gen) <> 0 ->
  (forall p, p ∈ heap w -> visible p) ->
  let h' := heap_after (config gen) a (elements (all_points (all_lines gen))) (heap w) in
  shadable gen h' ->
  exists lines' w',
    update_geometry gen a w
      = Ok (mkGenerator (config gen) (sphere_points gen) lines', w') /\
    heap w' = h' /\
    Forall2 (shaded (config gen) h') (all_lines gen) lines'.
Proof.
  intros Hr Hvis h' Hsh. unfold update_geometry.
  rewrite (bind_ok _ _ _ _ _ (points_loop_ok _ a _ w (NoDup_elements _) Hvis)).
  fold h'.
  destruct (mapM_inv (fun w0 => heap w0 = h') (shaded (config gen) h')
              (update_line (config gen)) (all_lines gen)) with (w := mkWorld h' (rng w))
    as (lines' & w' & Hrun & Hh & HQ); [|reflexivity|].
  - intros line w0 Hin Hw0.
    destruct (update_line_ok (config gen) line w0 Hr) as (line' & w1 & H1 & H2 & H3).
    { rewrite Hw0. now apply Hsh. }
    exists line', w1. rewrite Hw0 in *. auto.
  - exists lines', w'. rewrite (bind_ok _ _ _ _ _ Hrun). auto.
Qed.

(** ** A small concrete scene: two points of the default sphere joined by
    one structural line. *)

Lemma default_radius : radius default_config = 120.
Proof.
  unfold radius, default_config. cbn [canvas_width canvas_height].
  change (Z.min 400 400) with 400%Z. lra.
Qed.

Lemma default_radius_nonzero : radius default_config <> 0.
Proof. rewrite default_radius. lra. Qed.

Lemma mars_palette_nonempty b : mars_palette b <> [].
Proof. destruct b; discriminate. Qed.

Lemma demo_visible p : p ∈ heap demo_world -> visible p.
Proof.
  cbn. intros H. apply elem_of_cons in H as [->|H].
  - unfold visible, norm2, perspective. cbn. lra.
  - apply list_elem_of_singleton in H as ->.
    unfold visible, norm2, perspective. cbn. lra.
Qed.

(** ** Claim C1: rotation from the original coordinates *)

Lemma all_shadable gen h :
  (forall b, colors (config gen) b <> []) -> shadable gen h.
Proof. intros H line _ _. apply H. Qed.

(** C1. The axial tilt is 25.19 degrees in radians, and for every frame
    angle [a] [update_geometry] gives every point referenced by a segment
    the rotated coordinates [Ry a (Rx tilt (x, y, z))] computed from the
    point's original coordinates, which it leaves as they were; the
    previous rotated values do not enter the result. *)
Theorem update_geometry_rotates_original (gen : Generator) (a : R) (w : World) :
  radius (config gen) <> 0 ->
  (forall b, colors (config gen) b <> []) ->
  (forall p, p ∈ heap w -> visible p) ->
  axial_tilt default_config = 25.19 * PI / 180 /\
  exists gen' w',
    update_geometry gen a w = Ok (gen', w') /\
    forall line r p,
      line ∈ all_lines gen -> r = point1 line \/ r = point2 line ->
      heap w !! r = Some p ->
      exists p',
        heap w' !! r = Some p' /\
        (rotated_x p', rotated_y p', rotated_z p')
          = Ry a (Rx (axial_tilt (config gen)) (x p, y p, z p)) /\
        (x p', y p', z p') = (x p, y p, z p).
Proof.
  intros Hr Hpal Hvis. split; [reflexivity|].
  destruct (update_geometry_ok gen a w Hr Hvis (all_shadable gen _ Hpal))
    as (lines' & w' & Hrun & Hh & _).
  eexists _, w'. split; [exact Hrun|].
  intros line r p Hin Hend Hp.
  exists (transformed (config gen) a p). split; [|split; reflexivity].
  rewrite Hh, heap_after_lookup, Hp. cbn.
  destruct (decide (r ∈ elements (all_points (all_lines gen)))) as [|Hn]; [reflexivity|].
  exfalso. apply Hn. apply elem_of_elements, all_points_spec. now exists line.
Qed.

Lemma update_geometry_rotates_original_witness :
  radius (config demo_gen) <> 0 /\
  exists gen' w',
    update_geometry demo_gen (PI / 2) demo_world = Ok (gen', w') /\
    exists p', heap w' !! 1%nat = Some p' /\
               (rotated_x p', rotated_y p', rotated_z p')
               = Ry (PI / 2) (Rx (axial_tilt default_config) (0, 120, 0)).
Proof.
  split; [exact default_radius_nonzero|].
  destruct (update_geometry_rotates_original demo_gen (PI / 2) demo_world
              default_radius_nonzero mars_palette_nonempty demo_visible)
    as (_ & gen' & w' & Hrun & Hpts).
  exists gen', w'. split; [exact Hrun|].
  destruct (Hpts (new_Line 0 1) 1%nat (new_Point3D 0 120 0)) as (p' & Hp' & Hrot & _).
  - left.
  - now right.
  - reflexivity.
  - exists p'. split; [exact Hp'|exact Hrot].
Defined.

(** ** Claim C4: lighting bands *)

Lemma lighting_is_dot cfg h line :
  lighting cfg (mid_point h line) = dot3 (mid_normal cfg h line) light_vector.
Proof. reflexivity. Qed.

Lemma band_of_light s : band_of s = light <-> s > 0.5.
Proof.
  unfold band_of. repeat destruct (Rgt_dec _ _); split; intros H;
    try discriminate; try reflexivity; try lra.
Qed.

Lemma band_of_medium s : band_of s = medium <-> 0 < s <= 0.5.
Proof.
  unfold band_of. repeat destruct (Rgt_dec _ _); split; intros H;
    try discriminate; try reflexivity; try lra.
Qed.

Lemma band_of_dark s : band_of s = dark <-> -0.3 < s <= 0.
Proof.
  unfold band_of. repeat destruct (Rgt_dec _ _); split; intros H;
    try discriminate; try reflexivity; try lra.
Qed.

Lemma band_of_shadow s : band_of s = shadow <-> s <= -0.3.
Proof.
  unfold band_of. repeat destruct (Rgt_dec _ _); split; intros H;
    try discriminate; try reflexivity; try lra.
Qed.

(** C4. For a non-overlay segment the shader draws the colour with
    [random.choice] from the palette of one band [b]; with [s] the dot
    product of the midpoint's rotated position over the radius with the
    light vector (-0.5, -0.7, 1), [b] is 'light' iff [s > 0.5], 'medium'
    iff [0 < s <= 0.5], 'dark' iff [-0.3 < s <= 0], 'shadow' otherwise, so
    [s = 0.5] selects from 'medium'. *)
Theorem shader_band_thresholds (cfg : Config) (line : Line) (w : World) :
  radius cfg <> 0 ->
  is_artifact line = false ->
  let s := dot3 (mid_normal cfg (heap w) line) light_vector in
  exists b,
    update_line cfg line w =
      bind (choice (colors cfg b))
           (fun c => ret (mkLine (point1 line) (point2 line) c
                                 (if Rgt_dec (avg_z (heap w) line) 0 then 0.8 else 0.4)
                                 false)) w /\
    (b = light <-> s > 0.5) /\
    (b = medium <-> 0 < s <= 0.5) /\
    (b = dark <-> -0.3 < s <= 0) /\
    (b = shadow <-> ~ (s > 0.5) /\ ~ (0 < s <= 0.5) /\ ~ (-0.3 < s <= 0)) /\
    (s = 0.5 -> b = medium).
Proof.
  intros Hr Hart s. exists (band_of s).
  split; [|split; [|split; [|split; [|split]]]].
  - unfold update_line, get_heap. unfold bind at 1. rewrite Hart.
    fold (mid_point (heap w) line). unfold bind.
    rewrite get_color_for_point_band by exact Hr.
    rewrite lighting_is_dot. reflexivity.
  - apply band_of_light.
  - apply band_of_medium.
  - apply band_of_dark.
  - rewrite band_of_shadow. split; intros H; lra.
  - intros H. apply band_of_medium. lra.
Qed.

Lemma shader_band_thresholds_witness :
  radius default_config <> 0 /\
  exists b,
    update_line default_config (new_Line 0 1) demo_world =
      bind (choice (colors default_config b))
           (fun c => ret (mkLine 0 1 c
                                 (if Rgt_dec (avg_z (heap demo_world) (new_Line 0 1)) 0
                                  then 0.8 else 0.4)
                                 false)) demo_world.
Proof.
  split; [exact default_radius_nonzero|].
  destruct (shader_band_thresholds default_config (new_Line 0 1) demo_world
              default_radius_nonzero eq_refl) as (b & Hrun & _).
  exists b. exact Hrun.
Defined.

(** ** Sorting by depth *)

Lemma insert_by_perm {A} (key : A -> R) a l :
  Permutation (insert_by key a l) (a :: l).
Proof.
  induction l as [|b l IH]; cbn [insert_by]; [reflexivity|].
  destruct (Rle_dec (key a) (key b)); [reflexivity|].
  rewrite IH. apply perm_swap.
Qed.

Lemma sorted_perm {A} (key : A -> R) l : Permutation (sorted key l) l.
Proof.
  induction l as [|a l IH]; cbn; [reflexivity|].
  fold (sorted key l). rewrite insert_by_perm. now constructor.
Qed.

Lemma insert_by_sorted {A} (key : A -> R) a l :
  StronglySorted (key_le key) l -> StronglySorted (key_le key) (insert_by key a l).
Proof.
  induction 1 as [|b l Hs IH Hall]; cbn [insert_by].
  - repeat constructor.
  - destruct (Rle_dec (key a) (key b)) as [Hle|Hgt].
    + constructor; [now constructor|].
      constructor; [exact Hle|].
      eapply Forall_impl; [exact Hall|].
      intros c Hc. unfold key_le in *. lra.
    + constructor; [exact IH|].
      rewrite (insert_by_perm key a l). constructor; [|exact Hall].
      unfold key_le. lra.
Qed.

Lemma sorted_sorted {A} (key : A -> R) l : StronglySorted (key_le key) (sorted key l).
Proof.
  induction l as [|a l IH]; cbn; [constructor|].
  now apply insert_by_sorted.
Qed.

(** ** Drawing *)

Lemma parses_bright : parses "#FF6B35" (255, 107, 53)%Z.
Proof. intros w. reflexivity. Qed.

Lemma parses_dark : parses "#8B2E1F" (139, 46, 31)%Z.
Proof. intros w. reflexivity. Qed.

Lemma mars_palette_valid : valid_palette default_config.
Proof.
  intros b c Hc. destruct b; cbn in Hc;
    repeat (apply elem_of_cons in Hc as [->|Hc];
            [eexists; intros w; reflexivity|]);
    inversion Hc.
Qed.

Lemma draw_loop_ok h (lines : list Line) img w :
  (forall line, line ∈ lines -> exists rgb, parses (color line) rgb) ->
  exists groups,
    for_ lines (fun line img =>
        rgb <- hex_to_rgb (color line) ;
        let '(r, g, b) := rgb in
        ret (mkImage (image_width img) (image_height img)
                     (strokes img ++ draw_line h line (r, g, b, opacity h line)))) img w
    = Ok (mkImage (image_width img) (image_height img) (strokes img ++ concat groups), w) /\
    Forall2 (rendering h) lines groups.
Proof.
  revert img. induction lines as [|line lines IH]; intros img Hp.
  - exists []. cbn. rewrite app_nil_r. destruct img. split; [reflexivity|constructor].
  - destruct (Hp line ltac:(left)) as ([[r g] b] & Hrgb).
    destruct (IH (mkImage (image_width img) (image_height img)
                          (strokes img ++ draw_line h line (r, g, b, opacity h line))))
      as (groups & Hrun & HF).
    { intros l Hl. apply Hp. now right. }
    exists (draw_line h line (r, g, b, opacity h line) :: groups).
    cbn [image_width image_height strokes] in Hrun.
    cbn [for_]. unfold bind at 1. cbv beta.
    rewrite (bind_ok _ _ _ _ _ (Hrgb w)). cbv beta iota. unfold ret at 1.
    rewrite Hrun. cbn [concat]. rewrite <- app_assoc. split; [reflexivity|].
    constructor; [|exact HF]. now exists r, g, b.
Qed.

Lemma shaded_parses cfg h line line' :
  valid_palette cfg -> shaded cfg h line line' -> exists rgb, parses (color line') rgb.
Proof.
  intros Hv (_ & _ & _ & H). destruct (is_artifact line).
  - destruct H as [-> _]. destruct (Rgt_dec _ _); eexists;
      [apply parses_bright | apply parses_dark].
  - destruct H as [H _]. eapply Hv, H.
Qed.

Lemma draw_frame_ok gen a w :
  radius (config gen) <> 0 ->
  (forall p, p ∈ heap w -> visible p) ->
  valid_palette (config gen) ->
  let h' := heap_after (config gen) a (elements (all_points (all_lines gen))) (heap w) in
  shadable gen h' ->
  exists lines' w' groups,
    update_geometry gen a w
      = Ok (mkGenerator (config gen) (sphere_points gen) lines', w') /\
    heap w' = h' /\
    Forall2 (shaded (config gen) h') (all_lines gen) lines' /\
    draw_frame gen a w
      = Ok ((mkImage (canvas_width (config gen)) (canvas_height (config gen))
                     (concat groups),
             mkGenerator (config gen) (sphere_points gen) lines'), w') /\
    Forall2 (rendering h') (sorted (avg_z h') lines') groups.
Proof.
  intros Hr Hvis Hval h' Hsh.
  destruct (update_geometry_ok gen a w Hr Hvis Hsh) as (lines' & w' & Hrun & Hh & HF).
  fold h' in Hh, HF.
  destruct (draw_loop_ok h' (sorted (avg_z h') lines')
              (mkImage (canvas_width (config gen)) (canvas_height (config gen)) []) w')
    as (groups & Hloop & HG).
  { intros line Hin. rewrite (sorted_perm (avg_z h') lines') in Hin.
    apply list_elem_of_lookup in Hin as [i Hi].
    destruct (Forall2_lookup_r _ _ _ _ _ HF Hi) as (l0 & _ & Hl0).
    eapply shaded_parses; eauto. }
  exists lines', w', groups. repeat split; auto.
  unfold draw_frame. rewrite (bind_ok _ _ _ _ _ Hrun).
  unfold get_heap. unfold bind at 1. cbn [config all_lines]. rewrite Hh.
  rewrite (bind_ok _ _ _ _ _ Hloop). reflexivity.
Qed.

(** ** One frame of a renderable scene *)

Lemma frame_ok gen a w :
  renderable gen w ->
  exists lines' w' groups,
    let h' := heap_after (config gen) a (elements (all_points (all_lines gen))) (heap w) in
    heap w' = h' /\
    Forall2 (shaded (config gen) h') (all_lines gen) lines' /\
    draw_frame gen a w
      = Ok ((mkImage (canvas_width (config gen)) (canvas_height (config gen))
                     (concat groups),
             mkGenerator (config gen) (sphere_points gen) lines'), w') /\
    Forall2 (rendering h') (sorted (avg_z h') lines') groups.
Proof.
  intros [Hr Hvis Hne Hval].
  destruct (draw_frame_ok gen a w Hr Hvis Hval (all_shadable gen _ Hne))
    as (lines' & w' & groups & _ & Hh & HF & Hrun & HG).
  exists lines', w', groups. cbv zeta. auto.
Qed.

Lemma py_int_floor r n : 0 <= r -> IZR n <= r < IZR n + 1 -> py_int r = n.
Proof.
  intros H0 Hn. unfold py_int. destruct (Rle_dec 0 r); [|contradiction].
  symmetry. apply Int_part_spec. lra.
Qed.

Lemma opacity_front h line : avg_z h line > 0 -> opacity h line = 229%Z.
Proof.
  intros H. unfold opacity. destruct (Rgt_dec _ _); [|contradiction].
  apply py_int_floor; lra.
Qed.

Lemma opacity_back h line : ~ avg_z h line > 0 -> opacity h line = 127%Z.
Proof.
  intros H. unfold opacity. destruct (Rgt_dec _ _); [contradiction|].
  apply py_int_floor; lra.
Qed.

Lemma pixel_width_pos line : (1 <= pixel_width line)%Z.
Proof. unfold pixel_width. lia. Qed.

Lemma draw_line_opacity h line rgb o s :
  s ∈ draw_line h line (rgb, o) -> opacity_of s = o /\ stroke_width s = 1%Z.
Proof.
  unfold draw_line. intros H.
  apply elem_of_flat_map in H as (i & _ & H).
  apply list_elem_of_fmap in H as (j & -> & _). split; reflexivity.
Qed.

Lemma draw_line_length h line rgba :
  length (draw_line h line rgba) =
  (Z.to_nat (pixel_width line) * Z.to_nat (pixel_width line))%nat.
Proof.
  unfold draw_line.
  rewrite (flat_map_const_length _ _ (Z.to_nat (pixel_width line))).
  - now rewrite range_length.
  - intros. now rewrite length_map, range_length.
Qed.

Lemma draw_line_nonempty h line rgba : draw_line h line rgba <> [].
Proof.
  intros H. apply (f_equal length) in H. rewrite draw_line_length in H.
  cbn in H. pose proof (pixel_width_pos line). nia.
Qed.

(** A frame leaves every line its endpoints and its overlay flag. *)
Lemma shaded_same_segment cfg h lines lines' :
  Forall2 (shaded cfg h) lines lines' -> Forall2 same_segment lines lines'.
Proof.
  intros HF. eapply Forall2_impl; [exact HF|].
  intros l l' (H1 & H2 & H3 & _). now repeat split.
Qed.

(** ** Claim C3: painter's order and the two opacity levels *)

(** C3. A frame keeps the segments of the geometry set, each with its
    endpoints and overlay flag, and draws them all, in ascending order of
    the average rotated Z of their endpoints (the drawing order is a
    rearrangement of the geometry set that is sorted by that key, smallest
    first; the image is the strokes of the segments in that order, at least
    one for each), and every stroke of a segment has opacity 229 when that
    average is positive and 127 otherwise, 229 being the higher of the two
    levels. *)
Theorem draw_frame_painters_order (gen : Generator) (a : R) (w : World) :
  renderable gen w ->
  exists img gen' w' order groups,
    draw_frame gen a w = Ok ((img, gen'), w') /\
    Forall2 same_segment (all_lines gen) (all_lines gen') /\
    Permutation order (all_lines gen') /\
    StronglySorted (fun l1 l2 => avg_z (heap w') l1 <= avg_z (heap w') l2) order /\
    strokes img = concat groups /\
    Forall2 (fun line group =>
               rendering (heap w') line group /\ group <> [] /\
               forall s, s ∈ group ->
                 opacity_of s = if Rgt_dec (avg_z (heap w') line) 0 then 229%Z else 127%Z)
            order groups /\
    (127 < 229)%Z.
Proof.
  intros Hren.
  destruct (frame_ok gen a w Hren) as (lines' & w' & groups & Hh & HF & Hrun & HG).
  cbv zeta in *. rewrite <- Hh in *.
  eexists _, _, w', (sorted (avg_z (heap w')) lines'), groups.
  split; [exact Hrun|]. cbn [all_lines strokes].
  split; [eapply shaded_same_segment, HF|].
  split; [apply sorted_perm|].
  split; [apply (sorted_sorted (avg_z (heap w')))|].
  split; [reflexivity|].
  split; [|lia].
  eapply Forall2_impl; [exact HG|].
  intros line group Hrend. split; [exact Hrend|].
  destruct Hrend as (r & g & b & _ & ->).
  split; [apply draw_line_nonempty|].
  intros s Hs. apply draw_line_opacity in Hs as [-> _].
  destruct (Rgt_dec (avg_z (heap w') line) 0).
  - now apply opacity_front.
  - now apply opacity_back.
Qed.

(** ** Claims C9 and C10: width simulation *)

Lemma shaded_width cfg h line line' :
  shaded cfg h line line' ->
  width line' = 8.0 \/ width line' = 0.8 \/ width line' = 0.4.
Proof.
  intros (_ & _ & _ & H). destruct (is_artifact line).
  - left. apply H.
  - right. destruct H as [_ ->]. destruct (Rgt_dec _ _); auto.
Qed.

Lemma avg_z_endpoints h l l' :
  point1 l' = point1 l -> point2 l' = point2 l -> avg_z h l' = avg_z h l.
Proof. intros H1 H2. unfold avg_z. now rewrite H1, H2. Qed.

Lemma shaded_plain_width cfg h line line' :
  shaded cfg h line line' -> is_artifact line' = false ->
  width line' = if Rgt_dec (avg_z h line') 0 then 0.8 else 0.4.
Proof.
  intros (H1 & H2 & H3 & H) Hart. rewrite H3 in Hart. rewrite Hart in H.
  rewrite (avg_z_endpoints h line line' H1 H2). apply H.
Qed.

Lemma sorted_shaded cfg h key (lines lines' : list Line) line' :
  Forall2 (shaded cfg h) lines lines' -> line' ∈ sorted key lines' ->
  exists line, line ∈ lines /\ shaded cfg h line line'.
Proof.
  intros HF Hin. rewrite (sorted_perm key lines') in Hin.
  apply list_elem_of_lookup in Hin as [i Hi].
  destruct (Forall2_lookup_r _ _ _ _ _ HF Hi) as (l0 & Hl0 & Hs).
  exists l0. split; [|exact Hs]. now apply list_elem_of_lookup_2 in Hl0.
Qed.

Lemma IZR_between n k : IZR k - 1 < IZR n < IZR k + 1 -> n = k.
Proof.
  intros [H1 H2].
  assert (k - 1 < n)%Z by (apply lt_IZR; rewrite minus_IZR; lra).
  assert (n < k + 1)%Z by (apply lt_IZR; rewrite plus_IZR; lra).
  lia.
Qed.

Lemma Rabs_le_between a b : Rabs a <= b -> - b <= a <= b.
Proof. unfold Rabs. destruct (Rcase_abs a); lra. Qed.

(** For the widths the shader assigns, truncation and rounding to the
    nearest integer give the same pixel width. *)
Lemma nearest_pixel_width line n :
  width line = 8.0 \/ width line = 0.8 \/ width line = 0.4 ->
  Rabs (width line - IZR n) <= 1 / 2 ->
  Z.max 1 n = pixel_width line.
Proof.
  intros HW Hn. unfold pixel_width.
  apply Rabs_le_between in Hn.
  destruct HW as [HW|[HW|HW]]; rewrite HW in *.
  - rewrite (py_int_floor 8.0 8) by lra.
    rewrite (IZR_between n 8) by lra. reflexivity.
  - rewrite (py_int_floor 0.8 0) by lra.
    rewrite (IZR_between n 1) by lra. reflexivity.
  - rewrite (py_int_floor 0.4 0) by lra.
    rewrite (IZR_between n 0) by lra. reflexivity.
Qed.

(** C9. A frame keeps the segments of the geometry set, each with its
    endpoints and overlay flag, and draws every one of them: the image is
    the strokes of the segments in drawing order, and a segment of stroke
    width [W] is rendered as the [w] x [w] grid of one-pixel line draws,
    [w] being the larger of 1 and [W] rounded to the nearest integer, draw
    ([i], [j]) offset by ([i - w/2], [j - w/2]) for [i], [j] in
    [range w]. *)
Theorem draw_frame_width_grid (gen : Generator) (a : R) (w : World) :
  renderable gen w ->
  exists img gen' w' order groups,
    draw_frame gen a w = Ok ((img, gen'), w') /\
    Forall2 same_segment (all_lines gen) (all_lines gen') /\
    Permutation order (all_lines gen') /\
    strokes img = concat groups /\
    Forall2 (fun line group =>
               forall n : Z,
                 Rabs (width line - IZR n) <= 1 / 2 ->
                 exists rgba,
                   group = width_grid (deref (heap w') (point1 line))
                                      (deref (heap w') (point2 line))
                                      rgba (Z.max 1 n))
            order groups.
Proof.
  intros Hren.
  destruct (frame_ok gen a w Hren) as (lines' & w' & groups & Hh & HF & Hrun & HG).
  cbv zeta in *. rewrite <- Hh in *.
  eexists _, _, w', (sorted (avg_z (heap w')) lines'), groups.
  split; [exact Hrun|]. cbn [all_lines strokes].
  split; [eapply shaded_same_segment, HF|].
  split; [apply sorted_perm|].
  split; [reflexivity|].
  apply Forall2_same_length_lookup_2; [now apply Forall2_length in HG|].
  intros i line group Hline Hgroup n Hn.
  destruct (Forall2_lookup_lr _ _ _ _ _ _ HG Hline Hgroup) as (r & g & b & _ & ->).
  destruct (sorted_shaded _ _ _ _ _ line HF (list_elem_of_lookup_2 _ _ _ Hline))
    as (l0 & _ & Hs).
  exists (r, g, b, opacity (heap w') line).
  rewrite (nearest_pixel_width line n (shaded_width _ _ _ _ Hs) Hn).
  reflexivity.
Qed.

Lemma draw_line_single h line rgba :
  pixel_width line = 1%Z ->
  draw_line h line rgba =
  [mkStroke (projected_2d_x (deref h (point1 line))) (projected_2d_y (deref h (point1 line)))
            (projected_2d_x (deref h (point2 line))) (projected_2d_y (deref h (point2 line)))
            rgba 1].
Proof.
  intros H. unfold draw_line. rewrite H.
  change (range 1) with [0%Z]. cbn [flat_map map app].
  change (0 - 1 / 2)%Z with 0%Z. rewrite !Rplus_0_r. reflexivity.
Qed.

Lemma plain_pixel_width line :
  width line = 0.8 \/ width line = 0.4 -> pixel_width line = 1%Z.
Proof.
  intros [H|H]; unfold pixel_width; rewrite H.
  - now rewrite (py_int_floor 0.8 0) by lra.
  - now rewrite (py_int_floor 0.4 0) by lra.
Qed.

(** C10. A frame keeps the segments of the geometry set, each with its
    endpoints and overlay flag, and draws every one of them, the image
    being the strokes of the segments in drawing order.  In every frame a
    non-overlay segment has width 0.8 when its
    average rotated Z is positive and 0.4 otherwise; in both cases the
    integer width [max(1, int(width))] is 1 and the segment is rasterized as
    one single one-pixel line between its projected endpoints, so the two
    widths give the same strokes. *)
Theorem plain_strokes_single_pixel (gen : Generator) (a : R) (w : World) :
  renderable gen w ->
  exists img gen' w' order groups,
    draw_frame gen a w = Ok ((img, gen'), w') /\
    Forall2 same_segment (all_lines gen) (all_lines gen') /\
    Permutation order (all_lines gen') /\
    strokes img = concat groups /\
    Forall2 (fun line group =>
               is_artifact line = false ->
               width line = (if Rgt_dec (avg_z (heap w') line) 0 then 0.8 else 0.4) /\
               Z.max 1 (py_int 0.8) = 1%Z /\
               Z.max 1 (py_int 0.4) = 1%Z /\
               Z.max 1 (py_int (width line)) = 1%Z /\
               exists rgba,
                 group =
                 [mkStroke (projected_2d_x (deref (heap w') (point1 line)))
                           (projected_2d_y (deref (heap w') (point1 line)))
                           (projected_2d_x (deref (heap w') (point2 line)))
                           (projected_2d_y (deref (heap w') (point2 line)))
                           rgba 1])
            order groups.
Proof.
  intros Hren.
  destruct (frame_ok gen a w Hren) as (lines' & w' & groups & Hh & HF & Hrun & HG).
  cbv zeta in *. rewrite <- Hh in *.
  eexists _, _, w', (sorted (avg_z (heap w')) lines'), groups.
  split; [exact Hrun|]. cbn [all_lines strokes].
  split; [eapply shaded_same_segment, HF|].
  split; [apply sorted_perm|].
  split; [reflexivity|].
  apply Forall2_same_length_lookup_2; [now apply Forall2_length in HG|].
  intros i line group Hline Hgroup Hart.
  destruct (Forall2_lookup_lr _ _ _ _ _ _ HG Hline Hgroup) as (r & g & b & _ & ->).
  destruct (sorted_shaded _ _ _ _ _ line HF (list_elem_of_lookup_2 _ _ _ Hline))
    as (l0 & _ & Hs).
  pose proof (shaded_plain_width _ _ _ _ Hs Hart) as HW.
  assert (Hpw : pixel_width line = 1%Z).
  { apply plain_pixel_width. rewrite HW. destruct (Rgt_dec _ _); auto. }
  split; [exact HW|].
  split; [now rewrite (py_int_floor 0.8 0) by lra|].
  split; [now rewrite (py_int_floor 0.4 0) by lra|].
  split; [exact Hpw|].
  eexists. now apply draw_line_single.
Qed.

(** ** The animation loop *)

(** An invariant of the scene under which every frame renders keeps the
    whole loop of [generate_gif] running, one image per frame. *)
Lemma render_frames_ok (P : Generator -> World -> Prop) gen frames w :
  (forall gen w a, P gen w ->
     exists img gen' w', draw_frame gen a w = Ok ((img, gen'), w') /\ P gen' w') ->
  P gen w ->
  exists images gen' w',
    render_frames gen frames w = Ok ((images, gen'), w') /\
    length images = Z.to_nat frames /\ P gen' w'.
Proof.
  intros Hstep HP. unfold render_frames.
  pose (I := fun (done : list Z) (s : list Image * Generator) (w' : World) =>
               length (fst s) = length done /\ P (snd s) w').
  edestruct (for_inv0 I) as ([images gen'] & w' & Hrun & Hlen & HP'); cycle 2.
  - exists images, gen', w'. rewrite Hrun. cbn in Hlen, HP'.
    rewrite range_length in Hlen. auto.
  - split; [reflexivity | exact HP].
  - intros done frame rest [images gen0] w0 Hall [Hlen HP0]. cbn in Hlen, HP0.
    apply range_prefix in Hall as [_ Hframe].
    erewrite bind_ok; [|apply pydiv_ok, IZR_neq0; lia].
    destruct (Hstep gen0 w0 (start_angle + IZR frame * 2 * PI / IZR frames) HP0)
      as (img & gen1 & w1 & Hdraw & HP1).
    rewrite (bind_ok _ _ _ _ _ Hdraw).
    eexists (_, _), _. split; [reflexivity|]. split; cbn.
    + rewrite !length_app, Hlen. reflexivity.
    + exact HP1.
Qed.

(** ** Claim C6: what a frame leaves untouched *)

Lemma heap_after_position cfg a pts h :
  Forall2 same_position h (heap_after cfg a pts h).
Proof.
  apply Forall2_same_length_lookup_2; [now rewrite heap_after_length|].
  intros i p p' Hp Hp'. rewrite heap_after_lookup, Hp in Hp'. cbn in Hp'.
  inversion Hp'. destruct (decide (i ∈ pts)); repeat split.
Qed.

Lemma same_position_visible h h' :
  Forall2 same_position h h' ->
  (forall p, p ∈ h -> visible p) -> forall p', p' ∈ h' -> visible p'.
Proof.
  intros HF Hvis p' Hin. apply list_elem_of_lookup in Hin as [i Hi].
  destruct (Forall2_lookup_r _ _ _ _ _ HF Hi) as (p & Hp & Hx & Hy & Hz).
  apply list_elem_of_lookup_2 in Hp. specialize (Hvis p Hp).
  unfold visible, norm2 in *. now rewrite Hx, Hy, Hz.
Qed.

Lemma frame_keeps_geometry gen a w :
  renderable gen w ->
  exists img gen' w',
    draw_frame gen a w = Ok ((img, gen'), w') /\
    config gen' = config gen /\
    sphere_points gen' = sphere_points gen /\
    Forall2 same_position (heap w) (heap w') /\
    Forall2 same_segment (all_lines gen) (all_lines gen') /\
    renderable gen' w'.
Proof.
  intros Hren.
  destruct (frame_ok gen a w Hren) as (lines' & w' & groups & Hh & HF & Hrun & HG).
  cbv zeta in *.
  eexists _, _, w'. split; [exact Hrun|]. cbn [config sphere_points all_lines].
  assert (Hpos : Forall2 same_position (heap w) (heap w'))
    by (rewrite Hh; apply heap_after_position).
  split; [reflexivity|]. split; [reflexivity|]. split; [exact Hpos|].
  split.
  - eapply Forall2_impl; [exact HF|].
    intros l l' (H1 & H2 & H3 & _). now repeat split.
  - destruct Hren as [Hr Hvis Hne Hval]. split; cbn [config]; auto.
    now apply (same_position_visible (heap w)).
Qed.

Lemma same_position_trans h1 h2 h3 :
  Forall2 same_position h1 h2 -> Forall2 same_position h2 h3 ->
  Forall2 same_position h1 h3.
Proof.
  apply Forall2_trans. intros p q r (Hx & Hy & Hz) (Hx' & Hy' & Hz').
  unfold same_position. rewrite Hx', Hy', Hz'. auto.
Qed.

Lemma same_segment_trans l1 l2 l3 :
  Forall2 same_segment l1 l2 -> Forall2 same_segment l2 l3 ->
  Forall2 same_segment l1 l3.
Proof.
  apply Forall2_trans. intros p q r (H1 & H2 & H3) (H1' & H2' & H3').
  unfold same_segment. rewrite H1', H2', H3'. auto.
Qed.

Lemma animation_keeps_geometry gen frames w :
  renderable gen w ->
  exists images gen' w',
    render_frames gen frames w = Ok ((images, gen'), w') /\
    length images = Z.to_nat frames /\
    Forall2 same_position (heap w) (heap w') /\
    Forall2 same_segment (all_lines gen) (all_lines gen').
Proof.
  intros Hren.
  pose (P := fun (g' : Generator) (w' : World) =>
               renderable g' w' /\
               Forall2 same_position (heap w) (heap w') /\
               Forall2 same_segment (all_lines gen) (all_lines g')).
  destruct (render_frames_ok P gen frames w) as (images & gen' & w' & Hrun & Hlen & HP).
  - intros g0 w0 a (Hr0 & Hp0 & Hs0).
    destruct (frame_keeps_geometry g0 a w0 Hr0)
      as (img & g1 & w1 & Hrun & _ & _ & Hp1 & Hs1 & Hr1).
    exists img, g1, w1. split; [exact Hrun|]. split; [exact Hr1|]. split.
    + exact (same_position_trans _ _ _ Hp0 Hp1).
    + exact (same_segment_trans _ _ _ Hs0 Hs1).
  - split; [exact Hren|]. split.
    + apply Forall_Forall2_diag, Forall_forall. intros p _. now repeat split.
    + apply Forall_Forall2_diag, Forall_forall. intros l _. now repeat split.
  - destruct HP as (_ & Hp & Hs). now exists images, gen', w'.
Qed.

(** C6. Rendering a frame keeps the generator's configuration and vertex
    list, keeps every point object in place with its original [x], [y],
    [z], and keeps the list of segments position by position with the same
    endpoint references and overlay flag: no segment is added, removed or
    rebuilt, so only the rotated and projected fields of points and the
    colour and width of segments can differ.  The scene stays renderable,
    and the same holds after any number of frames of the animation loop. *)
Theorem draw_frame_keeps_geometry (gen : Generator) (a : R) (w : World) :
  renderable gen w ->
  (exists img gen' w',
     draw_frame gen a w = Ok ((img, gen'), w') /\
     config gen' = config gen /\
     sphere_points gen' = sphere_points gen /\
     Forall2 same_position (heap w) (heap w') /\
     Forall2 same_segment (all_lines gen) (all_lines gen') /\
     renderable gen' w') /\
  forall frames, exists images gen' w',
    render_frames gen frames w = Ok ((images, gen'), w') /\
    length images = Z.to_nat frames /\
    Forall2 same_position (heap w) (heap w') /\
    Forall2 same_segment (all_lines gen) (all_lines gen').
Proof.
  intros Hren. split.
  - exact (frame_keeps_geometry gen a w Hren).
  - intros frames. exact (animation_keeps_geometry gen frames w Hren).
Qed.

(** ** The randomized strokes and the overlay, as built by [__init__] *)

Lemma pairs_length {A} (f : nat -> A * A) n :
  length (flat_map (fun k => pair_list (f k)) (seq 0 n)) = (2 * n)%nat.
Proof.
  rewrite (flat_map_const_length _ _ 2); [rewrite length_seq; lia|].
  reflexivity.
Qed.

Lemma create_shading_lines_ok cfg w :
  let n := Z.to_nat (shading_density cfg) in
  create_shading_lines cfg w =
  Ok (map (fresh_line (length (heap w)) false) (seq 0 n),
      mkWorld (heap w ++ flat_map (fun k => pair_list (shading_points cfg (rng w) k)) (seq 0 n))
              (mkRng (floats (rng w)) (ints (rng w)) (cursor (rng w) + 5 * n))).
Proof.
  intros n. unfold create_shading_lines.
  pose (I := fun (done : list Z) (s : list Line) (w' : World) =>
    s = map (fresh_line (length (heap w)) false) (seq 0 (length done)) /\
    w' = mkWorld (heap w ++ flat_map (fun k => pair_list (shading_points cfg (rng w) k))
                                     (seq 0 (length done)))
                 (mkRng (floats (rng w)) (ints (rng w))
                        (cursor (rng w) + 5 * length done))).
  edestruct (for_inv0 I) as (s' & w' & Hrun & Hs & Hw); cycle 2.
  - rewrite Hrun, Hs, Hw. rewrite range_length. reflexivity.
  - split; cbn; [reflexivity|]. rewrite app_nil_r, Nat.add_0_r.
    destruct w as [h [f i c]]. reflexivity.
  - intros done a rest s w0 _ [Hs Hw]. subst s w0.
    eexists _, _. split; [reflexivity|]. unfold I.
    cbn [heap rng floats ints cursor advance].
    rewrite !length_app, pairs_length. cbn [length].
    rewrite seq_app, map_app, flat_map_app. cbn [seq map flat_map Nat.add app].
    split.
    + reflexivity.
    + unfold advance. cbn [floats ints cursor]. f_equal; [|f_equal; lia].
      unfold pair_list, shading_points. cbn [fst snd].
      rewrite <- !app_assoc. reflexivity.
Qed.

Lemma create_w_artifact_ok cfg w :
  create_w_artifact cfg w =
  Ok (map (fresh_line (length (heap w)) true) (seq 0 50),
      mkWorld (heap w ++ flat_map (fun k => pair_list (artifact_points cfg k)) (seq 0 50))
              (rng w)).
Proof.
  unfold create_w_artifact.
  pose (I := fun (done : list Z) (s : list Line) (w' : World) =>
    s = map (fresh_line (length (heap w)) true) (seq 0 (length done)) /\
    w' = mkWorld (heap w ++ flat_map (fun k => pair_list (artifact_points cfg k))
                                     (seq 0 (length done)))
                 (rng w)).
  edestruct (for_inv0 I) as (s' & w' & Hrun & Hs & Hw); cycle 2.
  - rewrite Hrun, Hs, Hw. rewrite range_length. reflexivity.
  - split; cbn; [reflexivity|]. rewrite app_nil_r. now destruct w.
  - intros done a rest s w0 Hall [Hs Hw]. subst s w0.
    apply range_prefix in Hall as [-> _].
    eexists _, _. split; [reflexivity|]. unfold I.
    cbn [heap rng].
    rewrite !length_app, pairs_length. cbn [length].
    rewrite seq_app, map_app, flat_map_app. cbn [seq map flat_map Nat.add app].
    split.
    + reflexivity.
    + f_equal. unfold pair_list, artifact_points. cbn [fst snd].
      rewrite <- !app_assoc. reflexivity.
Qed.

(** ** The scene built by [__init__] *)

Lemma init_ok cfg w :
  (0 < latitude_lines cfg)%Z -> (0 < longitude_lines cfg)%Z ->
  init cfg w =
  Ok (mkGenerator cfg (seq (length (heap w)) (length (grid cfg)))
                  (init_lines cfg (length (heap w)) (rng w)),
      mkWorld (heap w ++ grid cfg ++ shading_heap cfg (rng w) ++ artifact_heap cfg)
              (mkRng (floats (rng w)) (ints (rng w))
                     (cursor (rng w) + 5 * Z.to_nat (shading_density cfg)))).
Proof.
  intros HL HN. unfold init.
  rewrite (bind_ok _ _ _ _ _ (create_sphere_points_ok cfg w ltac:(lia) ltac:(lia))).
  erewrite bind_ok; cycle 1.
  { apply create_structural_lines_ok; [exact HL | exact HN |].
    now rewrite length_seq, grid_length. }
  rewrite (bind_ok _ _ _ _ _ (create_shading_lines_ok cfg _)).
  rewrite (bind_ok _ _ _ _ _ (create_w_artifact_ok cfg _)).
  cbn [heap rng floats ints cursor]. unfold ret, init_lines, shading_heap, artifact_heap.
  rewrite !length_app, <- !app_assoc. reflexivity.
Qed.

Lemma pairs_on_sphere cfg (f : nat -> Point3D * Point3D) l p :
  (forall k, on_sphere cfg (fst (f k)) /\ on_sphere cfg (snd (f k))) ->
  p ∈ flat_map (fun k => pair_list (f k)) l -> on_sphere cfg p.
Proof.
  intros Hf Hin. apply elem_of_flat_map in Hin as (k & _ & Hin).
  destruct (Hf k) as [H1 H2]. unfold pair_list in Hin.
  apply elem_of_cons in Hin as [->|Hin]; [exact H1|].
  apply list_elem_of_singleton in Hin as ->. exact H2.
Qed.

Lemma init_heap_on_sphere cfg g p :
  p ∈ grid cfg ++ shading_heap cfg g ++ artifact_heap cfg -> on_sphere cfg p.
Proof.
  rewrite !elem_of_app. intros [H|[H|H]].
  - unfold grid in H. apply elem_of_flat_map in H as (lat & _ & H).
    unfold grid_row in H. apply list_elem_of_fmap in H as (lon & -> & _).
    eexists _, _. reflexivity.
  - eapply pairs_on_sphere; [|exact H].
    intros k. split; eexists _, _; reflexivity.
  - eapply pairs_on_sphere; [|exact H].
    intros k. split; eexists _, _; reflexivity.
Qed.

Lemma on_sphere_norm cfg p : on_sphere cfg p -> norm2 p = radius cfg * radius cfg.
Proof. intros (theta & phi & ->). apply spherical_norm. Qed.


Lemma renderable_step gen w a :
  renderable gen w ->
  exists img gen' w', draw_frame gen a w = Ok ((img, gen'), w') /\ renderable gen' w'.
Proof.
  intros H. destruct (frame_keeps_geometry gen a w H)
    as (img & gen' & w' & Hrun & _ & _ & _ & _ & Hren).
  now exists img, gen', w'.
Qed.

(** ** Claim C5: the projection never divides by zero *)

Lemma default_init_ok g :
  init default_config (mkWorld [] g) = Ok (default_gen g, default_world g).
Proof. exact (init_ok default_config (mkWorld [] g) eq_refl eq_refl). Qed.

Lemma default_heap_on_sphere g p :
  p ∈ grid default_config ++ shading_heap default_config g ++ artifact_heap default_config ->
  norm2 p = 120 * 120.
Proof.
  intros H. rewrite (on_sphere_norm default_config).
  - now rewrite default_radius.
  - eapply init_heap_on_sphere, H.
Qed.

Lemma default_scene_renderable g : renderable (default_gen g) (default_world g).
Proof.
  split; cbn [config heap default_gen default_world].
  - exact default_radius_nonzero.
  - intros p Hp. unfold visible. rewrite (default_heap_on_sphere g p Hp).
    unfold perspective. lra.
  - exact mars_palette_nonempty.
  - exact mars_palette_valid.
Qed.

(** C5. The generator's radius is 120 and the focal length 800.  Whatever
    the random stream, [__init__] succeeds and every point it creates lies
    on the sphere of radius 120; for every rotation angle the denominator
    [focal + rotated_z] of [project_3d] is then strictly positive, the
    division of [project_3d] for that point returns, and the rendering loop
    runs through any number of frames without raising. *)
Theorem projection_denominator_positive (g : Rng) :
  radius default_config = 120 /\ perspective = 800 /\
  exists gen w,
    init default_config (mkWorld [] g) = Ok (gen, w) /\
    (forall p, p ∈ heap w ->
       norm2 p = 120 * 120 /\
       forall a w0,
         0 < perspective + vz (rotate default_config a p) /\
         pydiv perspective (perspective + vz (rotate default_config a p)) w0
         = Ok (perspective / (perspective + vz (rotate default_config a p)), w0)) /\
    (forall frames, exists images gen' w',
       render_frames gen frames w = Ok ((images, gen'), w') /\
       length images = Z.to_nat frames).
Proof.
  split; [exact default_radius|]. split; [reflexivity|].
  exists (default_gen g), (default_world g). split; [apply default_init_ok|].
  cbn [heap default_world].
  split.
  - intros p Hp. pose proof (default_heap_on_sphere g p Hp) as Hn.
    split; [exact Hn|]. intros a w0.
    assert (Hden : 0 < perspective + vz (rotate default_config a p)).
    { apply visible_denominator. unfold visible, perspective. rewrite Hn. lra. }
    split; [exact Hden|]. apply pydiv_ok. lra.
  - intros frames.
    destruct (render_frames_ok renderable _ frames _
                (fun gen w a => renderable_step gen w a)
                (default_scene_renderable g))
      as (images & gen' & w' & Hrun & Hlen & _).
    exists images, gen', w'. split; [exact Hrun | exact Hlen].
Qed.

(** ** Claim C8: the shading strokes and their bias *)

Lemma create_shading_lines_count cfg w :
  exists lines w',
    create_shading_lines cfg w = Ok (lines, w') /\
    length lines = Z.to_nat (shading_density cfg).
Proof.
  eexists _, _. split; [apply create_shading_lines_ok|].
  now rewrite length_map, length_seq.
Qed.

Lemma sin_5PI4_neg : sin (PI / 4 + PI) < 0.
Proof.
  rewrite neg_sin. pose proof PI_RGT_0.
  assert (0 < sin (PI / 4)) by (apply sin_gt_0; lra). lra.
Qed.

(** The first endpoint of every stroke is the first sampled point, stored
    at the address the line holds. *)
Lemma shading_first_endpoint cfg w k :
  (k < Z.to_nat (shading_density cfg))%nat ->
  exists lines w',
    create_shading_lines cfg w = Ok (lines, w') /\
    lines !! k = Some (fresh_line (length (heap w)) false k) /\
    heap w' !! (length (heap w) + 2 * k)%nat = Some (fst (shading_points cfg (rng w) k)).
Proof.
  intros Hk. eexists _, _. split; [apply create_shading_lines_ok|]. split.
  - rewrite list_lookup_fmap, lookup_seq_lt by lia. reflexivity.
  - cbn [heap]. rewrite lookup_app_r by lia.
    replace (length (heap w) + 2 * k - length (heap w))%nat with (k * 2 + 0)%nat by lia.
    rewrite (flat_map_const_lookup _ _ 2 k 0 k);
      [reflexivity | reflexivity | rewrite lookup_seq_lt by lia; reflexivity | lia].
Qed.

(** Counterexample to C8 as stated.  With the stream [back_stream] the bias
    of the first stroke of the default generator is applied (its draw is
    below 0.6), and the first endpoint is sent to [phi = 5 pi / 4]: its [z]
    coordinate is negative, not positive. *)
Lemma shading_bias_negative_z :
  exists lines w' line p,
    create_shading_lines default_config (mkWorld [] back_stream) = Ok (lines, w') /\
    floats back_stream 2 < 0.6 /\
    lines !! 0%nat = Some line /\
    heap w' !! point1 line = Some p /\
    z p < 0.
Proof.
  destruct (shading_first_endpoint default_config (mkWorld [] back_stream) 0)
    as (lines & w' & Hrun & Hline & Hp); [cbn; lia|].
  exists lines, w', (fresh_line 0 false 0), (fst (shading_points default_config back_stream 0)).
  split; [exact Hrun|]. split; [cbn; lra|].
  split; [exact Hline|]. split; [exact Hp|].
  unfold shading_points, back_stream, spherical, new_Point3D.
  cbn [fst z cursor floats Nat.add Nat.mul].
  destruct (Rlt_dec 0 0.6) as [_|Hn]; [|exfalso; apply Hn; lra].
  replace (0.5 * 2 * PI * 0.5 + PI * 0.75) with (PI / 4 + PI) by lra.
  replace (0.5 * PI) with (PI / 2) by lra.
  rewrite sin_PI2, default_radius.
  pose proof sin_5PI4_neg. lra.
Qed.

(** C8, amended.  [create_shading_lines] returns exactly [shading_density]
    strokes (none for a negative density) for every random stream, and in
    every iteration whose bias draw is below 0.6 the first endpoint of the
    stroke is the point at polar angle [u1 * pi] and azimuth
    [phi1 * 0.5 + 0.75 * pi], where [phi1 = u2 * 2 * pi]; for a draw [u2] in
    [0, 1) this azimuth lies in the half turn from [0.75 pi] to [1.75 pi]. *)
Theorem shading_count_and_bias (cfg : Config) (w : World) :
  exists lines w',
    create_shading_lines cfg w = Ok (lines, w') /\
    Z.of_nat (length lines) = Z.max 0 (shading_density cfg) /\
    forall k line,
      lines !! k = Some line ->
      let c := (cursor (rng w) + 5 * k)%nat in
      let u1 := floats (rng w) c in
      let u2 := floats (rng w) (S c) in
      let bias := floats (rng w) (S (S c)) in
      bias < 0.6 ->
      heap w' !! point1 line
        = Some (spherical cfg (u1 * PI) (u2 * 2 * PI * 0.5 + PI * 0.75)) /\
      (0 <= u2 < 1 ->
       0.75 * PI <= u2 * 2 * PI * 0.5 + PI * 0.75 < 1.75 * PI).
Proof.
  destruct (create_shading_lines_count cfg w) as (lines & w' & Hrun & Hlen).
  exists lines, w'. split; [exact Hrun|]. split; [rewrite Hlen; lia|].
  intros k line Hline c u1 u2 bias Hbias.
  assert (Hk : (k < Z.to_nat (shading_density cfg))%nat).
  { apply lookup_lt_Some in Hline. now rewrite Hlen in Hline. }
  destruct (shading_first_endpoint cfg w k Hk) as (lines0 & w0 & Hrun0 & Hline0 & Hp).
  rewrite Hrun in Hrun0. inversion Hrun0; subst lines0 w0.
  rewrite Hline in Hline0. inversion Hline0; subst line.
  cbn [point1 fresh_line]. split.
  - rewrite Hp. unfold shading_points. cbn [fst].
    fold c. fold u1. fold u2. fold bias.
    destruct (Rlt_dec bias 0.6); [reflexivity | contradiction].
  - intros [H0 H1]. pose proof PI_RGT_0. split; nra.
Qed.

Lemma shading_count_and_bias_witness :
  exists lines w' line,
    create_shading_lines default_config (mkWorld [] back_stream) = Ok (lines, w') /\
    Z.of_nat (length lines) = 1200%Z /\
    lines !! 0%nat = Some line /\
    heap w' !! point1 line
      = Some (spherical default_config (0.5 * PI) (0.5 * 2 * PI * 0.5 + PI * 0.75)).
Proof.
  destruct (shading_count_and_bias default_config (mkWorld [] back_stream))
    as (lines & w' & Hrun & Hlen & Hbias).
  destruct (shading_first_endpoint default_config (mkWorld [] back_stream) 0)
    as (lines0 & w0 & Hrun0 & Hline0 & _); [cbn; lia|].
  rewrite Hrun in Hrun0. inversion Hrun0; subst lines0 w0.
  exists lines, w', (fresh_line 0 false 0).
  split; [exact Hrun|]. split; [exact Hlen|]. split; [exact Hline0|].
  apply (Hbias 0%nat _ Hline0). cbn. lra.
Defined.

(** ** Claim C7: configuration errors *)


Lemma deref_heap_after_position cfg a pts h r :
  same_position (deref h r) (deref (heap_after cfg a pts h) r).
Proof.
  unfold deref. rewrite heap_after_lookup.
  destruct (h !! r) as [p|]; cbn [fmap option_fmap option_map default].
  - destruct (decide (r ∈ pts)); repeat split.
  - repeat split.
Qed.



















Lemma range_head n : (0 < n)%Z -> exists rest, range n = 0%Z :: rest.
Proof.
  intros H. unfold range. destruct (Z.to_nat n) as [|k] eqn:E; [lia|].
  cbn [seq map]. eexists. reflexivity.
Qed.








(** ** The claims on the scene of the program

    The generator as [__init__] leaves it, for the constant random stream,
    rendered at the angle of the first frame. *)

Lemma draw_frame_painters_order_witness :
  exists img gen' w' order,
    draw_frame (default_gen demo_rng) start_angle (default_world demo_rng)
      = Ok ((img, gen'), w') /\
    Forall2 same_segment (all_lines (default_gen demo_rng)) (all_lines gen') /\
    Permutation order (all_lines gen') /\
    StronglySorted (fun l1 l2 => avg_z (heap w') l1 <= avg_z (heap w') l2) order.
Proof.
  destruct (draw_frame_painters_order (default_gen demo_rng) start_angle
              (default_world demo_rng) (default_scene_renderable demo_rng))
    as (img & gen' & w' & order & groups & Hrun & Hseg & Hperm & Hsort & _).
  exists img, gen', w', order. auto.
Defined.

Lemma draw_frame_width_grid_witness :
  exists img gen' w' order groups,
    draw_frame (default_gen demo_rng) start_angle (default_world demo_rng)
      = Ok ((img, gen'), w') /\
    Forall2 same_segment (all_lines (default_gen demo_rng)) (all_lines gen') /\
    Permutation order (all_lines gen') /\
    strokes img = concat groups.
Proof.
  destruct (draw_frame_width_grid (default_gen demo_rng) start_angle
              (default_world demo_rng) (default_scene_renderable demo_rng))
    as (img & gen' & w' & order & groups & Hrun & Hseg & Hperm & Hs & _).
  exists img, gen', w', order, groups. auto.
Defined.

Lemma plain_strokes_single_pixel_witness :
  exists img gen' w' order groups,
    draw_frame (default_gen demo_rng) start_angle (default_world demo_rng)
      = Ok ((img, gen'), w') /\
    Forall2 same_segment (all_lines (default_gen demo_rng)) (all_lines gen') /\
    Permutation order (all_lines gen') /\
    strokes img = concat groups.
Proof.
  destruct (plain_strokes_single_pixel (default_gen demo_rng) start_angle
              (default_world demo_rng) (default_scene_renderable demo_rng))
    as (img & gen' & w' & order & groups & Hrun & Hseg & Hperm & Hs & _).
  exists img, gen', w', order, groups. auto.
Defined.

Lemma draw_frame_keeps_geometry_witness :
  exists images gen' w',
    render_frames (default_gen demo_rng) 240 (default_world demo_rng)
      = Ok ((images, gen'), w') /\
    length images = 240%nat /\
    Forall2 same_position (heap (default_world demo_rng)) (heap w') /\
    Forall2 same_segment (all_lines (default_gen demo_rng)) (all_lines gen').
Proof.
  destruct (draw_frame_keeps_geometry (default_gen demo_rng) start_angle
              (default_world demo_rng) (default_scene_renderable demo_rng))
    as [_ Hloop].
  destruct (Hloop 240%Z) as (images & gen' & w' & Hrun & Hlen & Hpos & Hseg).
  exists images, gen', w'. auto.
Defined.

(** * Further properties of the code *)

(** ** Projection *)

Lemma project_3d_run cfg r w :
  perspective + rotated_z (deref (heap w) r) <> 0 ->
  project_3d cfg r w =
  Ok (perspective / (perspective + rotated_z (deref (heap w) r)),
      mkWorld (<[r := set_projected
                        (rotated_x (deref (heap w) r)
                           * (perspective / (perspective + rotated_z (deref (heap w) r)))
                         + center_x cfg)
                        (rotated_y (deref (heap w) r)
                           * (perspective / (perspective + rotated_z (deref (heap w) r)))
                         + center_y cfg)
                        (deref (heap w) r)]> (heap w))
              (rng w)).
Proof.
  intros H. unfold project_3d, get_heap. unfold bind at 1.
  rewrite (bind_ok _ _ _ _ _ (pydiv_ok _ _ _ H)). reflexivity.
Qed.

(** X3. [project_3d] raises [ZeroDivisionError] exactly when the rotated
    depth of the point is minus the focal length.  Otherwise it returns the
    scale [800 / (800 + rotated_z)], stores [rotated * scale + center] in
    the two projected fields of that point and touches no other field, no
    other point and not the random stream. *)
Theorem project_3d_behaviour (cfg : Config) (r : ref) (w : World) (p : Point3D) :
  heap w !! r = Some p ->
  (rotated_z p = - perspective ->
   project_3d cfg r w = Raise ZeroDivisionError) /\
  (rotated_z p <> - perspective ->
   exists w',
     project_3d cfg r w = Ok (perspective / (perspective + rotated_z p), w') /\
     rng w' = rng w /\
     length (heap w') = length (heap w) /\
     (forall r', r' <> r -> heap w' !! r' = heap w !! r') /\
     heap w' !! r =
       Some (mkPoint3D (x p) (y p) (z p) (rotated_x p) (rotated_y p) (rotated_z p)
               (rotated_x p * (perspective / (perspective + rotated_z p)) + center_x cfg)
               (rotated_y p * (perspective / (perspective + rotated_z p)) + center_y cfg))).
Proof.
  intros Hp. pose proof (deref_lookup _ _ _ Hp) as Hd. split.
  - intros Hz. unfold project_3d, get_heap. unfold bind at 1.
    apply bind_raise. rewrite Hd, Hz.
    replace (perspective + - perspective) with 0 by ring. apply pydiv_zero.
  - intros Hz. eexists. rewrite project_3d_run by (rewrite Hd; lra).
    rewrite Hd. split; [reflexivity|]. cbn [heap rng].
    split; [reflexivity|]. split; [apply length_insert|]. split.
    + intros r' Hne. apply list_lookup_insert_ne. congruence.
    + rewrite list_lookup_insert_eq by (now apply lookup_lt_Some in Hp). reflexivity.
Qed.

Lemma project_3d_behaviour_witness :
  project_3d default_config 0 (mkWorld [mkPoint3D 0 0 0 1 2 (-800) 0 0] demo_rng)
    = Raise ZeroDivisionError /\
  exists w',
    project_3d default_config 0 demo_world = Ok (perspective / (perspective + 0), w').
Proof.
  split.
  - apply (project_3d_behaviour default_config 0
             (mkWorld [mkPoint3D 0 0 0 1 2 (-800) 0 0] demo_rng)
             (mkPoint3D 0 0 0 1 2 (-800) 0 0) eq_refl).
    reflexivity.
  - destruct (project_3d_behaviour default_config 0 demo_world
                (new_Point3D 120 0 0) eq_refl) as [_ H].
    destruct H as (w' & Hrun & _).
    + cbn. unfold perspective. lra.
    + exists w'. exact Hrun.
Defined.

(** X4. Of two points in front of the focal plane the one with the
    smaller rotated Z is never given the smaller scale: both scales are
    positive, and the scale does not grow with the depth.  It is 1 at depth
    0, at most 1 at a depth that is not negative and at least 1 at a depth
    that is not positive. *)
Theorem project_3d_scale_monotone (cfg : Config) (r1 r2 : ref) (w : World)
        (p1 p2 : Point3D) :
  heap w !! r1 = Some p1 -> heap w !! r2 = Some p2 ->
  - perspective < rotated_z p1 -> rotated_z p1 <= rotated_z p2 ->
  exists s1 w1 s2 w2,
    project_3d cfg r1 w = Ok (s1, w1) /\
    project_3d cfg r2 w = Ok (s2, w2) /\
    0 < s2 <= s1 /\
    (rotated_z p1 = 0 -> s1 = 1) /\
    (0 <= rotated_z p1 -> s1 <= 1) /\
    (rotated_z p2 <= 0 -> 1 <= s2).
Proof.
  intros Hp1 Hp2 H1 H12.
  pose proof (deref_lookup _ _ _ Hp1) as Hd1.
  pose proof (deref_lookup _ _ _ Hp2) as Hd2.
  unfold perspective in *.
  eexists _, _, _, _.
  split; [apply project_3d_run; rewrite Hd1; unfold perspective; lra|].
  split; [apply project_3d_run; rewrite Hd2; unfold perspective; lra|].
  rewrite Hd1, Hd2. unfold perspective.
  set (z1 := rotated_z p1) in *. set (z2 := rotated_z p2) in *.
  assert (Hi1 : 0 < / (800 + z1)) by (apply Rinv_0_lt_compat; lra).
  assert (Hi2 : 0 < / (800 + z2)) by (apply Rinv_0_lt_compat; lra).
  assert (Hle : / (800 + z2) <= / (800 + z1)) by (apply Rinv_le_contravar; lra).
  unfold Rdiv. split; [split; nra|]. split; [|split].
  - intros ->. rewrite Rplus_0_r. field.
  - intros H. assert (/ (800 + z1) <= / 800) by (apply Rinv_le_contravar; lra). lra.
  - intros H. assert (/ 800 <= / (800 + z2)) by (apply Rinv_le_contravar; lra). lra.
Qed.

Lemma project_3d_scale_monotone_witness :
  exists s1 w1 s2 w2,
    project_3d default_config 0
      (mkWorld [mkPoint3D 0 0 0 0 0 (-120) 0 0; mkPoint3D 0 0 0 0 0 120 0 0] demo_rng)
      = Ok (s1, w1) /\
    project_3d default_config 1
      (mkWorld [mkPoint3D 0 0 0 0 0 (-120) 0 0; mkPoint3D 0 0 0 0 0 120 0 0] demo_rng)
      = Ok (s2, w2) /\
    0 < s2 <= s1.
Proof.
  destruct (project_3d_scale_monotone default_config 0 1
              (mkWorld [mkPoint3D 0 0 0 0 0 (-120) 0 0; mkPoint3D 0 0 0 0 0 120 0 0]
                       demo_rng)
              (mkPoint3D 0 0 0 0 0 (-120) 0 0) (mkPoint3D 0 0 0 0 0 120 0 0)
              eq_refl eq_refl)
    as (s1 & w1 & s2 & w2 & H1 & H2 & H3 & _).
  - cbn. unfold perspective. lra.
  - cbn. lra.
  - exists s1, w1, s2, w2. auto.
Defined.

(** ** Frames do not depend on earlier frames *)

Lemma heap_after_overwrite cfg a b pts h :
  heap_after cfg b pts (heap_after cfg a pts h) = heap_after cfg b pts h.
Proof.
  apply list_eq. intros i. rewrite !heap_after_lookup.
  destruct (h !! i) as [p|]; cbn; [|reflexivity].
  destruct (decide (i ∈ pts)); reflexivity.
Qed.

Lemma all_points_same_segments lines lines' :
  Forall2 same_segment lines lines' -> all_points lines = all_points lines'.
Proof.
  intros HF. apply set_eq. intros r. rewrite !all_points_spec. split.
  - intros (line & Hin & Hr). apply list_elem_of_lookup in Hin as [i Hi].
    destruct (Forall2_lookup_l _ _ _ _ _ HF Hi) as (line' & Hi' & H1 & H2 & _).
    exists line'. split; [now apply list_elem_of_lookup_2 in Hi'|].
    rewrite H1, H2. exact Hr.
  - intros (line' & Hin & Hr). apply list_elem_of_lookup in Hin as [i Hi].
    destruct (Forall2_lookup_r _ _ _ _ _ HF Hi) as (line & Hi' & H1 & H2 & _).
    exists line. split; [now apply list_elem_of_lookup_2 in Hi'|].
    rewrite <- H1, <- H2. exact Hr.
Qed.

Lemma renderable_shadable gen w h : renderable gen w -> shadable gen h.
Proof. intros [_ _ Hne _]. now apply all_shadable. Qed.

(** X5. Transforming at angle [a] and then at angle [b] leaves the points
    exactly as transforming at angle [b] alone: the rotated and projected
    fields of a frame carry nothing over from the frame before. *)
Theorem update_geometry_no_drift (gen : Generator) (a b : R) (w : World) :
  renderable gen w ->
  exists gen1 w1 gen2 w2 gen3 w3,
    update_geometry gen a w = Ok (gen1, w1) /\
    update_geometry gen1 b w1 = Ok (gen2, w2) /\
    update_geometry gen b w = Ok (gen3, w3) /\
    heap w2 = heap w3.
Proof.
  intros Hren. pose proof Hren as [Hr Hvis Hne Hval].
  destruct (update_geometry_ok gen a w Hr Hvis (renderable_shadable gen w _ Hren))
    as (lines1 & w1 & Hrun1 & Hh1 & HF1).
  destruct (update_geometry_ok gen b w Hr Hvis (renderable_shadable gen w _ Hren))
    as (lines3 & w3 & Hrun3 & Hh3 & _).
  set (gen1 := mkGenerator (config gen) (sphere_points gen) lines1) in *.
  assert (Hvis1 : forall p, p ∈ heap w1 -> visible p).
  { apply (same_position_visible (heap w)); [|exact Hvis].
    rewrite Hh1. apply heap_after_position. }
  destruct (update_geometry_ok gen1 b w1 Hr Hvis1 (all_shadable gen1 _ Hne))
    as (lines2 & w2 & Hrun2 & Hh2 & _).
  eexists gen1, w1, _, w2, _, w3.
  split; [exact Hrun1|]. split; [exact Hrun2|]. split; [exact Hrun3|].
  rewrite Hh2, Hh3, Hh1. cbn [all_lines config gen1].
  rewrite <- (all_points_same_segments _ _ (shaded_same_segment _ _ _ _ HF1)).
  apply heap_after_overwrite.
Qed.

Lemma update_geometry_no_drift_witness :
  exists gen1 w1 gen2 w2 gen3 w3,
    update_geometry (default_gen demo_rng) 1 (default_world demo_rng) = Ok (gen1, w1) /\
    update_geometry gen1 2 w1 = Ok (gen2, w2) /\
    update_geometry (default_gen demo_rng) 2 (default_world demo_rng) = Ok (gen3, w3) /\
    heap w2 = heap w3.
Proof.
  exact (update_geometry_no_drift (default_gen demo_rng) 1 2 (default_world demo_rng)
           (default_scene_renderable demo_rng)).
Defined.

(** ** The overlay in a frame *)

Lemma parses_functional c rgb rgb' : parses c rgb -> parses c rgb' -> rgb = rgb'.
Proof.
  intros H H'. specialize (H demo_world). rewrite (H' demo_world) in H.
  now inversion H.
Qed.

Lemma shaded_overlay cfg h line line' :
  shaded cfg h line line' -> is_artifact line' = true ->
  color line' = (if Rgt_dec (avg_z h line') 0 then "#FF6B35" else "#8B2E1F")%string /\
  width line' = 8.0.
Proof.
  intros (H1 & H2 & H3 & H) Hart. rewrite H3 in Hart. rewrite Hart in H.
  rewrite (avg_z_endpoints h line line' H1 H2). exact H.
Qed.

Lemma overlay_pixel_width line : width line = 8.0 -> pixel_width line = 8%Z.
Proof.
  intros H. unfold pixel_width. rewrite H.
  now rewrite (py_int_floor 8.0 8) by lra.
Qed.

(** X6. A frame keeps the segments of the geometry set, each with its
    endpoints and overlay flag, and draws every one of them.  An overlay
    segment is given width 8 and the colour [#FF6B35] when its average
    rotated Z is positive, [#8B2E1F] otherwise; it is drawn as 64 strokes,
    stroke ([i], [j]) for [i], [j] in 0..7 being moved by ([i - 4],
    [j - 4]) pixels, filled with (255, 107, 53, 229) in the first case and
    (139, 46, 31, 127) in the second. *)
Theorem overlay_strokes (gen : Generator) (a : R) (w : World) :
  renderable gen w ->
  exists img gen' w' order groups,
    draw_frame gen a w = Ok ((img, gen'), w') /\
    Forall2 same_segment (all_lines gen) (all_lines gen') /\
    Permutation order (all_lines gen') /\
    strokes img = concat groups /\
    Forall2 (fun line group =>
               is_artifact line = true ->
               width line = 8.0 /\
               color line = (if Rgt_dec (avg_z (heap w') line) 0
                             then "#FF6B35" else "#8B2E1F")%string /\
               length group = 64%nat /\
               group = width_grid (deref (heap w') (point1 line))
                                  (deref (heap w') (point2 line))
                                  (if Rgt_dec (avg_z (heap w') line) 0
                                   then (255, 107, 53, 229)%Z
                                   else (139, 46, 31, 127)%Z)
                                  8)
            order groups.
Proof.
  intros Hren.
  destruct (frame_ok gen a w Hren) as (lines' & w' & groups & Hh & HF & Hrun & HG).
  cbv zeta in *. rewrite <- Hh in *.
  eexists _, _, w', (sorted (avg_z (heap w')) lines'), groups.
  split; [exact Hrun|]. cbn [all_lines strokes].
  split; [eapply shaded_same_segment, HF|].
  split; [apply sorted_perm|].
  split; [reflexivity|].
  apply Forall2_same_length_lookup_2; [now apply Forall2_length in HG|].
  intros i line group Hline Hgroup Hart.
  destruct (Forall2_lookup_lr _ _ _ _ _ _ HG Hline Hgroup) as (r & g & b & Hparse & ->).
  destruct (sorted_shaded _ _ _ _ _ line HF (list_elem_of_lookup_2 _ _ _ Hline))
    as (l0 & _ & Hs).
  destruct (shaded_overlay _ _ _ _ Hs Hart) as [Hcol Hw].
  pose proof (overlay_pixel_width line Hw) as Hpw.
  split; [exact Hw|]. split; [exact Hcol|].
  split; [rewrite draw_line_length, Hpw; reflexivity|].
  unfold draw_line, width_grid. rewrite Hpw.
  destruct (Rgt_dec (avg_z (heap w') line) 0) as [Hz|Hz].
  - rewrite Hcol in Hparse.
    pose proof (parses_functional _ _ _ Hparse parses_bright) as E. inversion E.
    now rewrite (opacity_front _ _ Hz).
  - rewrite Hcol in Hparse.
    pose proof (parses_functional _ _ _ Hparse parses_dark) as E. inversion E.
    now rewrite (opacity_back _ _ Hz).
Qed.

Lemma overlay_strokes_witness :
  exists img gen' w' order groups,
    draw_frame (default_gen demo_rng) start_angle (default_world demo_rng)
      = Ok ((img, gen'), w') /\
    Forall2 same_segment (all_lines (default_gen demo_rng)) (all_lines gen') /\
    Permutation order (all_lines gen') /\
    strokes img = concat groups.
Proof.
  destruct (overlay_strokes (default_gen demo_rng) start_angle
              (default_world demo_rng) (default_scene_renderable demo_rng))
    as (img & gen' & w' & order & groups & Hrun & Hseg & Hperm & Hs & _).
  exists img, gen', w', order, groups. auto.
Defined.

(** ** The size of a frame *)

Lemma stroke_cost_count lines :
  sum_list_with stroke_cost lines =
  (length (plain_lines lines) + 64 * length (overlay_lines lines))%nat.
Proof.
  unfold plain_lines, overlay_lines, stroke_cost.
  induction lines as [|l lines IH]; cbn; [reflexivity|].
  destruct (is_artifact l); cbn; lia.
Qed.

Lemma stroke_cost_same lines lines' :
  Forall2 same_segment lines lines' ->
  sum_list_with stroke_cost lines = sum_list_with stroke_cost lines'.
Proof.
  induction 1 as [|l l' ls ls' (_ & _ & H3) _ IH]; cbn; [reflexivity|].
  unfold stroke_cost at 1 3. now rewrite H3, IH.
Qed.

Lemma rendering_cost cfg h (lines0 lines order : list Line) groups :
  Forall2 (shaded cfg h) lines0 lines ->
  (forall line, line ∈ order -> line ∈ lines) ->
  Forall2 (rendering h) order groups ->
  length (concat groups) = sum_list_with stroke_cost order.
Proof.
  intros HF Hsub HG. induction HG as [|line group order groups Hr _ IH]; [reflexivity|].
  cbn [concat sum_list_with]. rewrite length_app, IH.
  2:{ intros l Hl. apply Hsub. now right. }
  f_equal. destruct Hr as (r & g & b & _ & ->). rewrite draw_line_length.
  assert (Hin : line ∈ lines) by (apply Hsub; left).
  apply list_elem_of_lookup in Hin as [i Hi].
  destruct (Forall2_lookup_r _ _ _ _ _ HF Hi) as (l0 & _ & Hs).
  unfold stroke_cost. destruct (is_artifact line) eqn:Hart.
  - destruct (shaded_overlay _ _ _ _ Hs Hart) as [_ Hw].
    now rewrite (overlay_pixel_width line Hw).
  - pose proof (shaded_plain_width _ _ _ _ Hs Hart) as Hw.
    rewrite plain_pixel_width; [reflexivity|].
    rewrite Hw. destruct (Rgt_dec _ _); auto.
Qed.

Lemma frame_cost gen a w :
  renderable gen w ->
  exists img gen' w',
    draw_frame gen a w = Ok ((img, gen'), w') /\
    image_width img = canvas_width (config gen) /\
    image_height img = canvas_height (config gen) /\
    length (strokes img) = sum_list_with stroke_cost (all_lines gen) /\
    config gen' = config gen /\
    Forall2 same_segment (all_lines gen) (all_lines gen') /\
    renderable gen' w'.
Proof.
  intros Hren.
  destruct (frame_ok gen a w Hren) as (lines' & w' & groups & Hh & HF & Hrun & HG).
  destruct (frame_keeps_geometry gen a w Hren)
    as (img2 & gen2 & w2 & Hrun2 & _ & _ & _ & Hseg & Hren2).
  cbv zeta in *. rewrite Hrun in Hrun2. inversion Hrun2; subst gen2 w2.
  eexists _, _, w'. split; [exact Hrun|]. cbn [image_width image_height strokes config].
  split; [reflexivity|]. split; [reflexivity|]. split; [|auto].
  set (h' := heap_after (config gen) a (elements (all_points (all_lines gen))) (heap w)) in *.
  assert (Hsub : forall l, l ∈ sorted (avg_z h') lines' -> l ∈ lines').
  { intros l Hl. now rewrite (sorted_perm (avg_z h') lines') in Hl. }
  rewrite (rendering_cost _ _ _ _ _ _ HF Hsub HG).
  rewrite (sorted_perm (avg_z h') lines').
  symmetry. apply stroke_cost_same. eapply shaded_same_segment, HF.
Qed.

(** X7. Every frame of a renderable scene issues the same number of
    [draw.line] calls: one for each non-overlay line of the geometry set
    and 64 for each overlay line. *)
Theorem frame_stroke_count (gen : Generator) (a : R) (w : World) :
  renderable gen w ->
  exists img gen' w',
    draw_frame gen a w = Ok ((img, gen'), w') /\
    length (strokes img) =
      (length (plain_lines (all_lines gen))
       + 64 * length (overlay_lines (all_lines gen)))%nat /\
    length (plain_lines (all_lines gen')) = length (plain_lines (all_lines gen)) /\
    length (overlay_lines (all_lines gen')) = length (overlay_lines (all_lines gen)).
Proof.
  intros Hren.
  destruct (frame_cost gen a w Hren) as (img & gen' & w' & Hrun & _ & _ & Hlen & _ & Hseg & _).
  exists img, gen', w'. split; [exact Hrun|].
  split; [now rewrite Hlen, stroke_cost_count|].
  unfold plain_lines, overlay_lines.
  clear -Hseg. induction Hseg as [|l l' ls ls' (_ & _ & H3) _ [IH1 IH2]]; [split; reflexivity|].
  cbn [List.filter]. rewrite H3. destruct (is_artifact l); cbn; split; lia.
Qed.

Lemma frame_stroke_count_witness :
  exists img gen' w',
    draw_frame demo_gen 0 demo_world = Ok ((img, gen'), w') /\
    length (strokes img) = 1%nat.
Proof.
  assert (Hren : renderable demo_gen demo_world).
  { split; [exact default_radius_nonzero | exact demo_visible
            | exact mars_palette_nonempty | exact mars_palette_valid]. }
  destruct (frame_stroke_count demo_gen 0 demo_world Hren)
    as (img & gen' & w' & Hrun & Hlen & _).
  exists img, gen', w'. split; [exact Hrun | exact Hlen].
Defined.

(** ** The whole run *)

Lemma render_frames_images gen frames w :
  renderable gen w ->
  exists images gen' w',
    render_frames gen frames w = Ok ((images, gen'), w') /\
    length images = Z.to_nat frames /\
    Forall (fun img =>
              image_width img = canvas_width (config gen) /\
              image_height img = canvas_height (config gen) /\
              length (strokes img) = sum_list_with stroke_cost (all_lines gen)) images.
Proof.
  intros Hren. unfold render_frames.
  pose (I := fun (done : list Z) (s : list Image * Generator) (w' : World) =>
    length (fst s) = length done /\
    renderable (snd s) w' /\
    config (snd s) = config gen /\
    Forall2 same_segment (all_lines gen) (all_lines (snd s)) /\
    Forall (fun img =>
              image_width img = canvas_width (config gen) /\
              image_height img = canvas_height (config gen) /\
              length (strokes img) = sum_list_with stroke_cost (all_lines gen))
           (fst s)).
  edestruct (for_inv0 I) as ([images gen'] & w' & Hrun & Hlen & _ & _ & _ & Himgs); cycle 2.
  - exists images, gen', w'. rewrite Hrun. cbn in Hlen, Himgs.
    rewrite range_length in Hlen. auto.
  - unfold I. cbn [fst snd]. split; [reflexivity|]. split; [exact Hren|].
    split; [reflexivity|]. split; [|constructor].
    apply Forall_Forall2_diag, Forall_forall. intros l _. now repeat split.
  - intros done frame rest [images gen0] w0 Hall (Hlen & Hr0 & Hc0 & Hs0 & Hi0).
    cbn in Hlen, Hr0, Hc0, Hs0, Hi0.
    apply range_prefix in Hall as [_ Hframe].
    erewrite bind_ok; [|apply pydiv_ok, IZR_neq0; lia].
    destruct (frame_cost gen0 (start_angle + IZR frame * 2 * PI / IZR frames) w0 Hr0)
      as (img & gen1 & w1 & Hdraw & Hw & Hh & Hcost & Hc1 & Hs1 & Hr1).
    rewrite (bind_ok _ _ _ _ _ Hdraw).
    eexists (_, _), _. split; [reflexivity|]. unfold I. cbn [fst snd].
    split; [rewrite !length_app, Hlen; reflexivity|].
    split; [exact Hr1|]. split; [congruence|].
    split; [exact (same_segment_trans _ _ _ Hs0 Hs1)|].
    apply Forall_app. split; [exact Hi0|].
    constructor; [|constructor].
    rewrite Hw, Hh, Hcost, Hc0. repeat split.
    symmetry. now apply stroke_cost_same.
Qed.

(** X8. On a renderable scene [generate_gif] with a positive frame count
    returns normally: it hands the encoder exactly that many images, in the
    order they were rendered, together with the duration it was given; each
    image has the size of the canvas and the same number of strokes. *)
Theorem generate_gif_delivers (gen : Generator) (frames duration : Z) (w : World) :
  renderable gen w -> (0 < frames)%Z ->
  exists images gen' w',
    render_frames gen frames w = Ok ((images, gen'), w') /\
    generate_gif gen frames duration w = Ok ((images, duration), w') /\
    Z.of_nat (length images) = frames /\
    forall img, img ∈ images ->
      image_width img = canvas_width (config gen) /\
      image_height img = canvas_height (config gen) /\
      length (strokes img) =
        (length (plain_lines (all_lines gen))
         + 64 * length (overlay_lines (all_lines gen)))%nat.
Proof.
  intros Hren Hf.
  destruct (render_frames_images gen frames w Hren)
    as (images & gen' & w' & Hrun & Hlen & Himgs).
  exists images, gen', w'. split; [exact Hrun|]. split; [|split].
  - unfold generate_gif. rewrite (bind_ok _ _ _ _ _ Hrun). cbn [fst].
    destruct images as [|first rest]; [cbn in Hlen; lia|]. reflexivity.
  - lia.
  - intros img Hin. rewrite Forall_forall in Himgs.
    destruct (Himgs img Hin) as (Hw & Hh & Hc).
    rewrite <- stroke_cost_count. auto.
Qed.

Lemma generate_gif_delivers_witness :
  exists images gen' w',
    generate_gif (default_gen demo_rng) 240 33 (default_world demo_rng)
      = Ok ((images, 33%Z), w') /\
    render_frames (default_gen demo_rng) 240 (default_world demo_rng)
      = Ok ((images, gen'), w') /\
    Z.of_nat (length images) = 240%Z.
Proof.
  destruct (generate_gif_delivers (default_gen demo_rng) 240 33
              (default_world demo_rng) (default_scene_renderable demo_rng))
    as (images & gen' & w' & Hrun & Hgif & Hlen & _); [lia|].
  exists images, gen', w'. auto.
Defined.

(** ** What [__init__] builds *)

Lemma overlay_lines_app l1 l2 :
  overlay_lines (l1 ++ l2) = overlay_lines l1 ++ overlay_lines l2.
Proof. apply List.filter_app. Qed.

Lemma overlay_lines_none lines :
  (forall l, l ∈ lines -> is_artifact l = false) -> overlay_lines lines = [].
Proof.
  induction lines as [|l lines IH]; intros H; [reflexivity|].
  cbn. rewrite (H l) by left. apply IH. intros l' Hl'. apply H. now right.
Qed.

Lemma overlay_lines_all lines :
  (forall l, l ∈ lines -> is_artifact l = true) -> overlay_lines lines = lines.
Proof.
  induction lines as [|l lines IH]; intros H; [reflexivity|].
  cbn. rewrite (H l) by left. f_equal. apply IH. intros l' Hl'. apply H. now right.
Qed.

Lemma structural_plain cfg pts l :
  l ∈ latitude_segments cfg pts ++ longitude_segments cfg pts -> is_artifact l = false.
Proof.
  intros H. apply elem_of_app in H as [H|H];
    apply elem_of_flat_map in H as (? & _ & H);
    apply list_elem_of_fmap in H as (? & -> & _); reflexivity.
Qed.

Lemma fresh_lines_flag b art n l :
  l ∈ map (fresh_line b art) (seq 0 n) -> is_artifact l = art.
Proof. intros H. apply list_elem_of_fmap in H as (k & -> & _). reflexivity. Qed.

Lemma init_lines_overlay cfg base g :
  overlay_lines (init_lines cfg base g) =
  map (fresh_line (base + length (grid cfg) + length (shading_heap cfg g)) true) (seq 0 50).
Proof.
  unfold init_lines. rewrite !overlay_lines_app.
  rewrite (overlay_lines_none (latitude_segments _ _))
    by (intros l Hl; eapply structural_plain, elem_of_app; left; exact Hl).
  rewrite (overlay_lines_none (longitude_segments _ _))
    by (intros l Hl; eapply structural_plain, elem_of_app; right; exact Hl).
  rewrite (overlay_lines_none (map _ _)) by apply fresh_lines_flag.
  rewrite overlay_lines_all by apply fresh_lines_flag. reflexivity.
Qed.

Lemma shading_heap_length cfg g :
  length (shading_heap cfg g) = (2 * Z.to_nat (shading_density cfg))%nat.
Proof. apply pairs_length. Qed.

Lemma artifact_heap_length cfg : length (artifact_heap cfg) = 100%nat.
Proof. apply (pairs_length (artifact_points cfg) 50). Qed.

Lemma init_lines_length cfg base g :
  length (init_lines cfg base g) =
  (structural_count cfg + Z.to_nat (shading_density cfg) + 50)%nat.
Proof.
  unfold init_lines, structural_count.
  rewrite !length_app, !length_map, !length_seq.
  rewrite latitude_segments_length, longitude_segments_length. lia.
Qed.

(** X9. For a grid of [L > 0] bands and [M > 0] meridians [__init__]
    succeeds from any state.  The geometry set holds
    [(L+1)*M + (M+1)*L] structural lines, one line per shading stroke and 50
    overlay lines, in this order; exactly the last 50 are flagged as
    overlay.  It allocates [(L+1)*(M+1)] grid points, two points per
    shading stroke and 100 overlay points behind the objects that existed,
    which it leaves alone, and it consumes five random draws per shading
    stroke and nothing else of the random stream. *)
Theorem init_inventory (cfg : Config) (w : World) :
  (0 < latitude_lines cfg)%Z -> (0 < longitude_lines cfg)%Z ->
  let L := latitude_lines cfg in
  let M := longitude_lines cfg in
  let n := Z.max 0 (shading_density cfg) in
  exists gen w' fresh,
    init cfg w = Ok (gen, w') /\
    config gen = cfg /\
    Z.of_nat (length (sphere_points gen)) = ((L + 1) * (M + 1))%Z /\
    Z.of_nat (length (all_lines gen)) = ((L + 1) * M + (M + 1) * L + n + 50)%Z /\
    overlay_lines (all_lines gen) = drop (length (all_lines gen) - 50) (all_lines gen) /\
    length (overlay_lines (all_lines gen)) = 50%nat /\
    heap w' = heap w ++ fresh /\
    Z.of_nat (length fresh) = ((L + 1) * (M + 1) + 2 * n + 100)%Z /\
    floats (rng w') = floats (rng w) /\
    ints (rng w') = ints (rng w) /\
    Z.of_nat (cursor (rng w')) = (Z.of_nat (cursor (rng w)) + 5 * n)%Z.
Proof.
  intros HL HM L M n.
  eexists _, _, _. split; [apply (init_ok cfg w HL HM)|].
  cbn [config sphere_points all_lines heap rng floats ints cursor].
  split; [reflexivity|].
  split; [rewrite length_seq, grid_length; subst L M; nia|].
  split; [rewrite init_lines_length; unfold structural_count; subst L M n; nia|].
  split.
  { rewrite init_lines_overlay. unfold init_lines.
    rewrite !length_app, !length_map, !length_seq.
    rewrite app_assoc.
    rewrite drop_app_length'; [reflexivity|].
    rewrite !length_app, !length_map, !length_seq. lia. }
  split; [rewrite init_lines_overlay, length_map, length_seq; reflexivity|].
  split; [reflexivity|].
  split.
  { rewrite !length_app, grid_length, shading_heap_length, artifact_heap_length.
    subst L M n. nia. }
  split; [reflexivity|]. split; [reflexivity|]. subst n. lia.
Qed.

Lemma init_inventory_witness :
  exists gen w' fresh,
    init default_config (mkWorld [] demo_rng) = Ok (gen, w') /\
    Z.of_nat (length (all_lines gen)) = 5178%Z /\
    heap w' = [] ++ fresh /\
    Z.of_nat (length fresh) = 4509%Z /\
    Z.of_nat (cursor (rng w')) = 6000%Z.
Proof.
  destruct (init_inventory default_config (mkWorld [] demo_rng) eq_refl eq_refl)
    as (gen & w' & fresh & Hrun & _ & _ & Hlines & _ & _ & Hheap & Hfresh & _ & _ & Hcur).
  exists gen, w', fresh. auto.
Defined.

Lemma endpoints_app l1 l2 : endpoints (l1 ++ l2) = endpoints l1 ++ endpoints l2.
Proof. apply flat_map_app. Qed.

Lemma endpoints_fresh b art n :
  endpoints (map (fresh_line b art) (seq 0 n)) = seq b (2 * n).
Proof.
  induction n as [|n IH]; [reflexivity|].
  rewrite seq_S, map_app, endpoints_app, IH. cbn [map endpoints flat_map app].
  replace (2 * S n)%nat with (2 * n + 2)%nat by lia.
  rewrite seq_app. cbn [seq]. unfold fresh_line. cbn [point1 point2].
  f_equal. cbn [Nat.add].
  replace (b + 2 * n + 1)%nat with (S (b + 2 * n)) by lia. reflexivity.
Qed.

Lemma endpoints_elem lines r :
  r ∈ endpoints lines <-> exists line, line ∈ lines /\ (r = point1 line \/ r = point2 line).
Proof.
  unfold endpoints. rewrite elem_of_flat_map. split.
  - intros (line & Hin & Hr). exists line. split; [exact Hin|].
    apply elem_of_cons in Hr as [->|Hr]; [now left|].
    apply list_elem_of_singleton in Hr as ->. now right.
  - intros (line & Hin & [->| ->]); exists line; split; auto.
    + left.
    + right. left.
Qed.

Lemma at_index_seq_lookup base n i :
  (0 <= i)%Z -> (Z.to_nat i < n)%nat -> at_index (seq base n) i = (base + Z.to_nat i)%nat.
Proof.
  intros Hi Hlt. unfold at_index. now rewrite lookup_seq_lt.
Qed.

Lemma at_index_seq_range base n i :
  (0 < n)%nat -> (base <= at_index (seq base n) i < base + n)%nat \/
                 at_index (seq base n) i = 0%nat.
Proof.
  intros Hn. unfold at_index.
  destruct (seq base n !! Z.to_nat i) as [r|] eqn:E; cbn.
  - left. apply lookup_seq in E. lia.
  - now right.
Qed.

Lemma structural_in_grid cfg base line :
  (0 < latitude_lines cfg)%Z -> (0 < longitude_lines cfg)%Z ->
  line ∈ latitude_segments cfg (seq base (length (grid cfg)))
         ++ longitude_segments cfg (seq base (length (grid cfg))) ->
  (base <= point1 line < base + length (grid cfg))%nat /\
  (base <= point2 line < base + length (grid cfg))%nat.
Proof.
  intros HL HM H. pose proof (grid_length cfg) as Hg.
  apply elem_of_app in H as [H|H].
  - apply elem_of_flat_map in H as (lat & Hlat & H).
    apply list_elem_of_fmap in H as (lon & -> & Hlon).
    apply range_elem in Hlat, Hlon.
    unfold latitude_segment, new_Line. cbn [point1 point2].
    rewrite !at_index_seq_lookup by nia. nia.
  - apply elem_of_flat_map in H as (lon & Hlon & H).
    apply list_elem_of_fmap in H as (lat & -> & Hlat).
    apply range_elem in Hlat, Hlon.
    unfold longitude_segment, new_Line. cbn [point1 point2].
    rewrite !at_index_seq_lookup by nia. nia.
Qed.

Lemma fresh_line_range b art n line :
  line ∈ map (fresh_line b art) (seq 0 n) ->
  (b <= point1 line < b + 2 * n)%nat /\ (b <= point2 line < b + 2 * n)%nat.
Proof.
  intros H. apply list_elem_of_fmap in H as (k & -> & Hk).
  apply elem_of_seq in Hk. cbn [fresh_line point1 point2]. lia.
Qed.

Lemma init_lines_in_heap cfg base g line :
  (0 < latitude_lines cfg)%Z -> (0 < longitude_lines cfg)%Z ->
  line ∈ init_lines cfg base g ->
  let top := (base + length (grid cfg) + length (shading_heap cfg g)
              + length (artifact_heap cfg))%nat in
  (base <= point1 line < top)%nat /\ (base <= point2 line < top)%nat.
Proof.
  intros HL HM H top. subst top. unfold init_lines in H.
  rewrite shading_heap_length, artifact_heap_length.
  rewrite shading_heap_length in H.
  apply elem_of_app in H as [H|H].
  - destruct (structural_in_grid cfg base line HL HM H). lia.
  - apply elem_of_app in H as [H|H]; apply fresh_line_range in H; lia.
Qed.

(** Every grid vertex is an endpoint of some latitude segment. *)
Lemma grid_vertex_used cfg base r :
  (0 < latitude_lines cfg)%Z -> (0 < longitude_lines cfg)%Z ->
  (base <= r < base + length (grid cfg))%nat ->
  exists line, line ∈ latitude_segments cfg (seq base (length (grid cfg))) /\
               (r = point1 line \/ r = point2 line).
Proof.
  intros HL HM Hr. pose proof (grid_length cfg) as Hg.
  set (M := longitude_lines cfg) in *. set (L := latitude_lines cfg) in *.
  set (k := Z.of_nat (r - base)).
  set (lat := (k / (M + 1))%Z). set (lon := (k mod (M + 1))%Z).
  assert (Hk : (0 <= k < (L + 1) * (M + 1))%Z) by (subst k; nia).
  assert (Hdm : k = ((M + 1) * lat + lon)%Z) by (apply Z.div_mod; lia).
  assert (Hlon : (0 <= lon < M + 1)%Z) by (apply Z.mod_pos_bound; lia).
  assert (Hlat : (0 <= lat < L + 1)%Z).
  { split; [apply Z.div_pos; lia|]. apply Z.div_lt_upper_bound; lia. }
  assert (Hmem : forall la lo, (0 <= la < L + 1)%Z -> (0 <= lo < M)%Z ->
            latitude_segment cfg (seq base (length (grid cfg))) la lo
            ∈ latitude_segments cfg (seq base (length (grid cfg)))).
  { intros la lo Hla Hlo. unfold latitude_segments. apply elem_of_flat_map.
    exists la. split; [now apply range_elem|].
    apply list_elem_of_fmap. exists lo. split; [reflexivity | now apply range_elem]. }
  destruct (Z_lt_dec lon M) as [Hlt|Hge].
  - exists (latitude_segment cfg (seq base (length (grid cfg))) lat lon).
    split; [apply Hmem; lia|]. left.
    unfold latitude_segment, new_Line. cbn [point1]. fold M.
    rewrite at_index_seq_lookup by nia. nia.
  - exists (latitude_segment cfg (seq base (length (grid cfg))) lat (lon - 1)).
    split; [apply Hmem; lia|]. right.
    unfold latitude_segment, new_Line. cbn [point2]. fold M.
    rewrite at_index_seq_lookup by nia. nia.
Qed.

(** X10. In the scene that [__init__] builds on a grid of positive size,
    every endpoint reference of every line points to an object allocated by
    that call, and every such object is an endpoint of some line.  The
    endpoints of the shading and overlay lines are pairwise distinct objects,
    none of which is a grid vertex: these lines share no point with any
    other line. *)
Theorem init_references (cfg : Config) (w : World) :
  (0 < latitude_lines cfg)%Z -> (0 < longitude_lines cfg)%Z ->
  exists gen w',
    init cfg w = Ok (gen, w') /\
    (forall r, r ∈ endpoints (all_lines gen) ->
               (length (heap w) <= r < length (heap w'))%nat) /\
    (forall r, (length (heap w) <= r < length (heap w'))%nat ->
               r ∈ endpoints (all_lines gen)) /\
    NoDup (endpoints (drop (structural_count cfg) (all_lines gen))) /\
    (forall r, r ∈ endpoints (drop (structural_count cfg) (all_lines gen)) ->
               (r ∉ sphere_points gen) /\
               (r ∉ endpoints (take (structural_count cfg) (all_lines gen)))).
Proof.
  intros HL HM. eexists _, _. split; [apply (init_ok cfg w HL HM)|].
  cbn [all_lines sphere_points heap]. set (base := length (heap w)).
  pose proof (grid_length cfg) as Hg.
  assert (Hstruct : length (latitude_segments cfg (seq base (length (grid cfg)))
                            ++ longitude_segments cfg (seq base (length (grid cfg))))
                    = structural_count cfg).
  { rewrite length_app, latitude_segments_length, longitude_segments_length.
    reflexivity. }
  assert (Hdrop : endpoints (drop (structural_count cfg) (init_lines cfg base (rng w)))
                  = seq (base + length (grid cfg))
                        (2 * Z.to_nat (shading_density cfg) + 100)).
  { unfold init_lines. rewrite <- Hstruct, drop_app_length.
    rewrite endpoints_app, !endpoints_fresh, shading_heap_length.
    replace (2 * Z.to_nat (shading_density cfg) + 100)%nat
      with (2 * Z.to_nat (shading_density cfg) + 2 * 50)%nat by lia.
    now rewrite seq_app. }
  assert (Htake : take (structural_count cfg) (init_lines cfg base (rng w))
                  = latitude_segments cfg (seq base (length (grid cfg)))
                    ++ longitude_segments cfg (seq base (length (grid cfg)))).
  { unfold init_lines. now rewrite <- Hstruct, take_app_length. }
  split; [|split; [|split]].
  - intros r Hr. apply endpoints_elem in Hr as (line & Hin & Hr).
    pose proof (init_lines_in_heap cfg base (rng w) line HL HM Hin) as [H1 H2].
    rewrite !length_app. fold base. destruct Hr as [-> | ->]; lia.
  - intros r Hr. rewrite !length_app in Hr. fold base in Hr.
    destruct (le_lt_dec (base + length (grid cfg)) r) as [Hge|Hlt].
    + rewrite <- (take_drop (structural_count cfg) (init_lines cfg base (rng w))).
      rewrite endpoints_app, elem_of_app. right. rewrite Hdrop.
      apply elem_of_seq. rewrite shading_heap_length, artifact_heap_length in Hr. lia.
    + destruct (grid_vertex_used cfg base r HL HM ltac:(lia)) as (line & Hin & Hline).
      apply endpoints_elem. exists line. split; [|exact Hline].
      unfold init_lines. rewrite !elem_of_app. left. left. exact Hin.
  - rewrite Hdrop. apply NoDup_seq.
  - intros r Hr. rewrite Hdrop in Hr. apply elem_of_seq in Hr. split.
    + intros Hin. apply elem_of_seq in Hin. lia.
    + rewrite Htake. intros Hin. apply endpoints_elem in Hin as (line & Hin & Hline).
      destruct (structural_in_grid cfg base line HL HM Hin) as [H1 H2].
      destruct Hline as [-> | ->]; lia.
Qed.

Lemma init_references_witness :
  exists gen w',
    init default_config (mkWorld [] demo_rng) = Ok (gen, w') /\
    NoDup (endpoints (drop (structural_count default_config) (all_lines gen))).
Proof.
  destruct (init_references default_config (mkWorld [] demo_rng) eq_refl eq_refl)
    as (gen & w' & Hrun & _ & _ & Hnd & _).
  exists gen, w'. auto.
Defined.

(** ** Degenerate grids *)

Lemma for_skip {A S} (xs : list A) (body : A -> S -> M S) s w :
  (forall a s w, a ∈ xs -> body a s w = Ok (s, w)) ->
  for_ xs body s w = Ok (s, w).
Proof.
  induction xs as [|a xs IH]; intros H; [reflexivity|].
  cbn [for_]. rewrite (bind_ok _ _ _ _ _ (H a s w ltac:(left))).
  apply IH. intros b s' w' Hb. apply H. now right.
Qed.

Lemma create_sphere_points_zero_bands cfg w :
  latitude_lines cfg = 0%Z -> create_sphere_points cfg w = Raise ZeroDivisionError.
Proof.
  intros HL. unfold create_sphere_points. rewrite HL.
  change (range (0 + 1)) with [0%Z]. cbn [for_].
  apply bind_raise, bind_raise, pydiv_zero.
Qed.

Lemma create_sphere_points_zero_meridians cfg w :
  (0 < latitude_lines cfg)%Z -> longitude_lines cfg = 0%Z ->
  create_sphere_points cfg w = Raise ZeroDivisionError.
Proof.
  intros HL HM. unfold create_sphere_points.
  destruct (range_head (latitude_lines cfg + 1) ltac:(lia)) as [rest ->].
  rewrite HM. change (range (0 + 1)) with [0%Z]. cbn [for_].
  apply bind_raise.
  erewrite bind_ok; [|apply pydiv_ok, IZR_neq0; lia].
  apply bind_raise, bind_raise, pydiv_zero.
Qed.

Lemma create_sphere_points_empty cfg w :
  (latitude_lines cfg < 0)%Z \/ (0 < latitude_lines cfg)%Z /\ (longitude_lines cfg < 0)%Z ->
  create_sphere_points cfg w = Ok ([], w).
Proof.
  intros [HL|[HL HM]]; unfold create_sphere_points.
  - rewrite (range_nonpos (latitude_lines cfg + 1)) by lia. reflexivity.
  - apply for_skip. intros lat s w0 _.
    erewrite bind_ok; [|apply pydiv_ok, IZR_neq0; lia].
    rewrite (range_nonpos (longitude_lines cfg + 1)) by lia. reflexivity.
Qed.

Lemma create_structural_lines_empty cfg pts w :
  (latitude_lines cfg < 0)%Z \/ (0 < latitude_lines cfg)%Z /\ (longitude_lines cfg < 0)%Z ->
  create_structural_lines cfg pts w = Ok ([], w).
Proof.
  intros H. unfold create_structural_lines.
  erewrite bind_ok; cycle 1.
  { destruct H as [HL|[HL HM]].
    - rewrite (range_nonpos (latitude_lines cfg + 1)) by lia. reflexivity.
    - apply for_skip. intros lat s w0 _.
      rewrite (range_nonpos (longitude_lines cfg)) by lia. reflexivity. }
  destruct H as [HL|[HL HM]].
  - apply for_skip. intros lon s w0 _.
    rewrite (range_nonpos (latitude_lines cfg)) by lia. reflexivity.
  - rewrite (range_nonpos (longitude_lines cfg + 1)) by lia. reflexivity.
Qed.

(** X11. The grid counts are not checked.  With zero latitude bands, or
    with some bands and zero meridians, [__init__] raises
    [ZeroDivisionError] while computing the first angle.  With a negative
    number of bands, or some bands and a negative number of meridians, it
    raises nothing: the grid is silently empty, no structural line exists
    and the geometry set holds only the shading strokes and the 50 overlay
    lines. *)
Theorem init_degenerate_grid (cfg : Config) (w : World) :
  (latitude_lines cfg = 0%Z -> init cfg w = Raise ZeroDivisionError) /\
  ((0 < latitude_lines cfg)%Z -> longitude_lines cfg = 0%Z ->
   init cfg w = Raise ZeroDivisionError) /\
  ((latitude_lines cfg < 0)%Z \/
   (0 < latitude_lines cfg)%Z /\ (longitude_lines cfg < 0)%Z ->
   exists w',
     init cfg w =
       Ok (mkGenerator cfg []
             (map (fresh_line (length (heap w)) false)
                  (seq 0 (Z.to_nat (shading_density cfg)))
              ++ map (fresh_line (length (heap w) + 2 * Z.to_nat (shading_density cfg)) true)
                     (seq 0 50)),
           w') /\
     length (heap w') = (length (heap w) + 2 * Z.to_nat (shading_density cfg) + 100)%nat).
Proof.
  split; [|split].
  - intros HL. unfold init. apply bind_raise. now apply create_sphere_points_zero_bands.
  - intros HL HM. unfold init. apply bind_raise.
    now apply create_sphere_points_zero_meridians.
  - intros H. eexists. unfold init.
    rewrite (bind_ok _ _ _ _ _ (create_sphere_points_empty cfg w H)).
    rewrite (bind_ok _ _ _ _ _ (create_structural_lines_empty cfg [] w H)).
    rewrite (bind_ok _ _ _ _ _ (create_shading_lines_ok cfg _)).
    rewrite (bind_ok _ _ _ _ _ (create_w_artifact_ok cfg _)).
    cbn [heap rng app]. rewrite length_app, pairs_length.
    split; [reflexivity|].
    cbn [heap]. rewrite !length_app, !pairs_length. lia.
Qed.

Lemma init_degenerate_grid_witness :
  init (mkConfig 400 400 0 48 1200 0 mars_palette) demo_world = Raise ZeroDivisionError /\
  init (mkConfig 400 400 40 0 1200 0 mars_palette) demo_world = Raise ZeroDivisionError /\
  exists gen w',
    init (mkConfig 400 400 (-1) 48 1200 0 mars_palette) demo_world = Ok (gen, w') /\
    sphere_points gen = [].
Proof.
  split; [|split].
  - destruct (init_degenerate_grid (mkConfig 400 400 0 48 1200 0 mars_palette) demo_world)
      as (H & _ & _).
    apply H. reflexivity.
  - destruct (init_degenerate_grid (mkConfig 400 400 40 0 1200 0 mars_palette) demo_world)
      as (_ & H & _).
    apply H; reflexivity.
  - destruct (init_degenerate_grid (mkConfig 400 400 (-1) 48 1200 0 mars_palette) demo_world)
      as (_ & _ & H).
    destruct H as (w' & Hrun & _); [left; reflexivity|].
    eexists _, w'. split; [exact Hrun | reflexivity].
Defined.

(** ** Everything is drawn inside the canvas *)

Lemma scaled_bound u v :
  u * u + v * v <= 120 * 120 ->
  -142 <= u * (perspective / (perspective + v)) <= 142.
Proof.
  intros H. unfold perspective.
  assert (Hu : -120 <= u <= 120) by nra.
  assert (Hv : -120 <= v <= 120) by nra.
  assert (Hd : 0 < 800 + v) by lra.
  assert (Hk : 0 < / (800 + v)) by now apply Rinv_0_lt_compat.
  assert (Hk' : / (800 + v) <= / 680).
  { apply Rinv_le_contravar; lra. }
  unfold Rdiv. set (k := / (800 + v)) in *.
  assert (H680 : / 680 * 680 = 1) by (field).
  split; nra.
Qed.

Lemma transformed_in_canvas a p :
  norm2 p = 120 * 120 ->
  58 <= projected_2d_x (transformed default_config a p) <= 342 /\
  58 <= projected_2d_y (transformed default_config a p) <= 342.
Proof.
  intros Hn. pose proof (rotate_norm default_config a p) as Hr. rewrite Hn in Hr.
  unfold transformed, set_projected. cbn [projected_2d_x projected_2d_y].
  set (v := rotate default_config a p) in *.
  assert (Hx : vx v * vx v + vz v * vz v <= 120 * 120) by nra.
  assert (Hy : vy v * vy v + vz v * vz v <= 120 * 120) by nra.
  pose proof (scaled_bound _ _ Hx). pose proof (scaled_bound _ _ Hy).
  unfold center_x, center_y, default_config. cbn [canvas_width canvas_height].
  split; lra.
Qed.

Lemma draw_line_elem h line rgba s :
  s ∈ draw_line h line rgba ->
  exists i j, (0 <= i < pixel_width line)%Z /\ (0 <= j < pixel_width line)%Z /\
    s = mkStroke
          (projected_2d_x (deref h (point1 line)) + IZR (i - pixel_width line / 2))
          (projected_2d_y (deref h (point1 line)) + IZR (j - pixel_width line / 2))
          (projected_2d_x (deref h (point2 line)) + IZR (i - pixel_width line / 2))
          (projected_2d_y (deref h (point2 line)) + IZR (j - pixel_width line / 2))
          rgba 1.
Proof.
  unfold draw_line. intros H.
  apply elem_of_flat_map in H as (i & Hi & H).
  apply list_elem_of_fmap in H as (j & -> & Hj).
  apply range_elem in Hi, Hj. now exists i, j.
Qed.

Lemma offset_bound w i :
  w = 1%Z \/ w = 8%Z -> (0 <= i < w)%Z -> -4 <= IZR (i - w / 2) <= 3.
Proof.
  intros [-> | ->] Hi.
  - assert (i = 0%Z) by lia. subst i. change (0 - 1 / 2)%Z with 0%Z. lra.
  - change (8 / 2)%Z with 4%Z.
    assert (H : (-4 <= i - 4 <= 3)%Z) by lia.
    destruct H as [H1 H2]. apply IZR_le in H1, H2. lra.
Qed.

Lemma default_endpoint_in_canvas g a line r :
  line ∈ all_lines (default_gen g) -> r = point1 line \/ r = point2 line ->
  let h' := heap_after default_config a
              (elements (all_points (all_lines (default_gen g))))
              (heap (default_world g)) in
  58 <= projected_2d_x (deref h' r) <= 342 /\
  58 <= projected_2d_y (deref h' r) <= 342.
Proof.
  intros Hin Hr h'.
  pose proof (init_lines_in_heap default_config 0 g line eq_refl eq_refl Hin) as [H1 H2].
  cbn [Nat.add] in H1, H2.
  assert (Hlt : (r < length (heap (default_world g)))%nat).
  { cbn [heap default_world]. rewrite !length_app. destruct Hr as [-> | ->]; lia. }
  destruct (lookup_lt_is_Some_2 _ _ Hlt) as [p Hp].
  assert (Hd : deref h' r = transformed default_config a p).
  { unfold deref, h'. rewrite heap_after_lookup, Hp.
    cbn [fmap option_fmap option_map default from_option id].
    destruct (decide (r ∈ elements (all_points (all_lines (default_gen g)))))
      as [|Hn]; [reflexivity|].
    exfalso. apply Hn, elem_of_elements, all_points_spec.
    exists line. split; [exact Hin | exact Hr]. }
  rewrite Hd. apply transformed_in_canvas.
  apply (default_heap_on_sphere g). now apply list_elem_of_lookup_2 in Hp.
Qed.

(** X12. Whatever the random stream and the angle, every stroke of a frame
    of the program's scene runs between two points of the square
    [54, 345] x [54, 345], well inside the 400 x 400 canvas. *)
Theorem default_strokes_in_canvas (g : Rng) (a : R) :
  exists img gen' w',
    draw_frame (default_gen g) a (default_world g) = Ok ((img, gen'), w') /\
    image_width img = 400%Z /\ image_height img = 400%Z /\
    forall s, s ∈ strokes img ->
      54 <= from_x s <= 345 /\ 54 <= from_y s <= 345 /\
      54 <= to_x s <= 345 /\ 54 <= to_y s <= 345.
Proof.
  destruct (frame_ok (default_gen g) a (default_world g) (default_scene_renderable g))
    as (lines' & w' & groups & Hh & HF & Hrun & HG).
  cbv zeta in *.
  set (h' := heap_after (config (default_gen g)) a
               (elements (all_points (all_lines (default_gen g))))
               (heap (default_world g))) in *.
  eexists _, _, w'. split; [exact Hrun|]. cbn [image_width image_height strokes].
  split; [reflexivity|]. split; [reflexivity|].
  intros s Hs. apply list_elem_of_In, in_concat in Hs as (group & Hgroup & Hs).
  apply list_elem_of_In, list_elem_of_lookup in Hgroup as [i Hi].
  destruct (Forall2_lookup_r _ _ _ _ _ HG Hi) as (line & Hline & (r & gg & b & _ & ->)).
  apply list_elem_of_lookup_2 in Hline.
  destruct (sorted_shaded _ _ _ _ _ line HF Hline) as (l0 & Hl0 & Hsh).
  apply list_elem_of_In, draw_line_elem in Hs as (i0 & j0 & Hi0 & Hj0 & ->).
  cbn [from_x from_y to_x to_y].
  assert (Hpw : pixel_width line = 1%Z \/ pixel_width line = 8%Z).
  { destruct (shaded_width _ _ _ _ Hsh) as [Hw|Hw].
    - right. now apply overlay_pixel_width.
    - left. now apply plain_pixel_width. }
  pose proof (offset_bound _ _ Hpw Hi0) as Hoi.
  pose proof (offset_bound _ _ Hpw Hj0) as Hoj.
  destruct Hsh as (E1 & E2 & _).
  assert (H1 : 58 <= projected_2d_x (deref h' (point1 line)) <= 342 /\
               58 <= projected_2d_y (deref h' (point1 line)) <= 342)
    by exact (default_endpoint_in_canvas g a l0 (point1 line) Hl0 (or_introl E1)).
  assert (H2 : 58 <= projected_2d_x (deref h' (point2 line)) <= 342 /\
               58 <= projected_2d_y (deref h' (point2 line)) <= 342)
    by exact (default_endpoint_in_canvas g a l0 (point2 line) Hl0 (or_intror E2)).
  clearbody h'. clear - H1 H2 Hoi Hoj.
  destruct H1 as [Hx1 Hy1], H2 as [Hx2 Hy2].
  repeat split; lra.
Qed.

(** ** The zig-zag and the overlay *)

Lemma frac_part_unit x : 0 <= x < 1 -> frac_part x = x.
Proof.
  intros H. symmetry.
  apply (proj2 (Int_part_frac_part_spec x 0 x H ltac:(lra))).
Qed.

Lemma frac_part_shift x : frac_part (x + 1) = frac_part x.
Proof.
  symmetry.
  refine (proj2 (Int_part_frac_part_spec (x + 1) (Int_part x + 1) (frac_part x) _ _)).
  - destruct (base_fp x). lra.
  - rewrite plus_IZR. pose proof (Rplus_Int_part_frac_part x). lra.
Qed.

Lemma w_shape_range x : 0 <= w_shape x <= 1.
Proof.
  unfold w_shape. destruct (base_fp x) as [H0 H1].
  repeat destruct (Rlt_dec _ _); lra.
Qed.

(** X13. [w_shape] has period 1 and takes values between 0 and 1; over one
    period it rises from 0 to 1 on the first quarter, falls back to 0 on
    the second, and does the same again on the second half. *)
Theorem w_shape_zigzag (t : R) :
  0 <= w_shape t <= 1 /\
  w_shape (t + 1) = w_shape t /\
  (0 <= t < 1 / 4 -> w_shape t = 4 * t) /\
  (1 / 4 <= t < 1 / 2 -> w_shape t = 2 - 4 * t) /\
  (1 / 2 <= t < 3 / 4 -> w_shape t = 4 * t - 2) /\
  (3 / 4 <= t < 1 -> w_shape t = 4 - 4 * t).
Proof.
  split; [apply w_shape_range|]. split.
  { unfold w_shape. now rewrite frac_part_shift. }
  repeat split; intros H; unfold w_shape; rewrite frac_part_unit by lra;
    repeat destruct (Rlt_dec _ _); lra.
Qed.

Lemma w_shape_zigzag_witness : w_shape (1 / 8) = 4 * (1 / 8).
Proof.
  destruct (w_shape_zigzag (1 / 8)) as (_ & _ & H & _).
  apply H. lra.
Defined.








(** ** Random draws of a frame and of the animation *)

Lemma update_line_draws cfg line w line' w' :
  update_line cfg line w = Ok (line', w') ->
  heap w' = heap w /\
  floats (rng w') = floats (rng w) /\
  ints (rng w') = ints (rng w) /\
  cursor (rng w') = (cursor (rng w) + length (plain_lines [line]))%nat.
Proof.
  unfold update_line, get_heap. unfold bind at 1. unfold plain_lines.
  cbn [List.filter]. destruct (is_artifact line); cbn [negb length].
  - unfold ret. intros H. inversion H; subst. repeat split; lia.
  - destruct (Req_dec (radius cfg) 0) as [Hr|Hr].
    + unfold bind. now rewrite (get_color_for_point_radius0 _ _ _ Hr).
    + unfold bind. rewrite (get_color_for_point_band _ _ _ Hr). unfold choice.
      destruct (_ !! _); [|discriminate].
      unfold ret. intros H. inversion H; subst. cbn. repeat split; lia.
Qed.

Lemma update_lines_draws cfg lines :
  forall w lines' w',
    mapM (update_line cfg) lines w = Ok (lines', w') ->
    heap w' = heap w /\
    floats (rng w') = floats (rng w) /\
    ints (rng w') = ints (rng w) /\
    cursor (rng w') = (cursor (rng w) + length (plain_lines lines))%nat.
Proof.
  induction lines as [|line lines IH]; intros w lines' w' H.
  - inversion H; subst. cbn. repeat split; lia.
  - cbn [mapM] in H. unfold bind at 1 in H.
    destruct (update_line cfg line w) as [[l1 w1]|] eqn:H1; [|discriminate].
    unfold bind at 1 in H.
    destruct (mapM (update_line cfg) lines w1) as [[ls w2]|] eqn:H2; [|discriminate].
    inversion H; subst.
    destruct (update_line_draws _ _ _ _ _ H1) as (Ha & Hb & Hc & Hd).
    destruct (IH _ _ _ H2) as (Ha' & Hb' & Hc' & Hd').
    change (line :: lines) with ([line] ++ lines).
    unfold plain_lines in *. rewrite List.filter_app, length_app.
    repeat split; try congruence. lia.
Qed.

Lemma hex_to_rgb_pure c w rgb w' : hex_to_rgb c w = Ok (rgb, w') -> w' = w.
Proof.
  unfold hex_to_rgb, bind, lift, ret.
  repeat (destruct (int16 _); [|discriminate]).
  intros H. now inversion H.
Qed.

Lemma for_pure {A S} (xs : list A) (body : A -> S -> M S) :
  (forall a s w s' w', body a s w = Ok (s', w') -> w' = w) ->
  forall s w s' w', for_ xs body s w = Ok (s', w') -> w' = w.
Proof.
  intros Hb. induction xs as [|a xs IH]; intros s w s' w' H.
  - now inversion H.
  - cbn [for_] in H. unfold bind in H.
    destruct (body a s w) as [[s1 w1]|] eqn:H1; [|discriminate].
    apply Hb in H1. subst w1. now apply IH in H.
Qed.

Lemma frame_draws gen a w :
  renderable gen w ->
  exists img gen' w',
    draw_frame gen a w = Ok ((img, gen'), w') /\
    floats (rng w') = floats (rng w) /\
    ints (rng w') = ints (rng w) /\
    cursor (rng w') = (cursor (rng w) + length (plain_lines (all_lines gen)))%nat.
Proof.
  intros Hren.
  destruct (frame_ok gen a w Hren) as (lines' & w' & groups & _ & _ & Hrun & _).
  cbv zeta in Hrun. eexists _, _, w'. split; [exact Hrun|].
  unfold draw_frame in Hrun. unfold bind at 1 in Hrun.
  destruct (update_geometry gen a w) as [[gen1 w1]|] eqn:Hu; [|discriminate].
  unfold get_heap in Hrun. unfold bind at 1 in Hrun. unfold bind at 1 in Hrun.
  match type of Hrun with
  | match ?loop with _ => _ end = _ => destruct loop as [[img2 w2]|] eqn:Hloop
  end; [|discriminate].
  apply for_pure in Hloop.
  2:{ intros line img0 w0 img1 w3. unfold bind.
      destruct (hex_to_rgb (color line) w0) as [[[[r g] b] w4]|] eqn:Hc; [|discriminate].
      apply hex_to_rgb_pure in Hc. subst w4. unfold ret. intros H. now inversion H. }
  unfold ret in Hrun. inversion Hrun; subst. clear Hrun.
  unfold update_geometry in Hu. destruct Hren as [_ Hvis _ _].
  rewrite (bind_ok _ _ _ _ _ (points_loop_ok _ a _ w (NoDup_elements _) Hvis)) in Hu.
  unfold bind in Hu.
  match type of Hu with
  | match ?m with _ => _ end = _ => destruct m as [[ls w5]|] eqn:Hm
  end; [|discriminate].
  unfold ret in Hu. inversion Hu; subst.
  destruct (update_lines_draws _ _ _ _ _ Hm) as (_ & Hb & Hc & Hd). auto.
Qed.

Lemma plain_lines_same lines lines' :
  Forall2 same_segment lines lines' ->
  length (plain_lines lines') = length (plain_lines lines).
Proof.
  unfold plain_lines.
  induction 1 as [|l l' ls ls' (_ & _ & H3) _ IH]; [reflexivity|].
  cbn [List.filter]. rewrite H3. destruct (is_artifact l); cbn; lia.
Qed.

(** X15. The colour of every non-overlay line is drawn afresh in every
    frame: a frame of a renderable scene consumes exactly one random draw
    for each non-overlay line and none for an overlay line, and an animation
    of [frames] frames consumes that number times [frames]; the stream
    itself is left as it was. *)
Theorem animation_random_draws (gen : Generator) (a : R) (frames : Z) (w : World) :
  renderable gen w ->
  (exists img gen' w',
      draw_frame gen a w = Ok ((img, gen'), w') /\
      floats (rng w') = floats (rng w) /\
      ints (rng w') = ints (rng w) /\
      cursor (rng w') = (cursor (rng w) + length (plain_lines (all_lines gen)))%nat) /\
  (exists images gen' w',
      render_frames gen frames w = Ok ((images, gen'), w') /\
      floats (rng w') = floats (rng w) /\
      ints (rng w') = ints (rng w) /\
      cursor (rng w') =
        (cursor (rng w) + Z.to_nat frames * length (plain_lines (all_lines gen)))%nat).
Proof.
  intros Hren. split; [now apply frame_draws|].
  unfold render_frames.
  pose (I := fun (done : list Z) (s : list Image * Generator) (w' : World) =>
    renderable (snd s) w' /\
    Forall2 same_segment (all_lines gen) (all_lines (snd s)) /\
    floats (rng w') = floats (rng w) /\
    ints (rng w') = ints (rng w) /\
    cursor (rng w') =
      (cursor (rng w) + length done * length (plain_lines (all_lines gen)))%nat).
  edestruct (for_inv0 I) as ([images gen'] & w' & Hrun & _ & _ & Hf & Hi & Hc); cycle 2.
  - exists images, gen', w'. rewrite Hrun. rewrite range_length in Hc. auto.
  - unfold I. cbn [fst snd length]. split; [exact Hren|].
    split; [|repeat split; lia].
    apply Forall_Forall2_diag, Forall_forall. intros l _. now repeat split.
  - intros done frame rest [images gen0] w0 Hall (Hr0 & Hs0 & Hf0 & Hi0 & Hc0).
    cbn [fst snd] in Hr0, Hs0.
    apply range_prefix in Hall as [_ Hframe].
    erewrite bind_ok; [|apply pydiv_ok, IZR_neq0; lia].
    set (angle := start_angle + IZR frame * 2 * PI / IZR frames).
    destruct (frame_draws gen0 angle w0 Hr0) as (img & gen1 & w1 & Hdraw & Hf1 & Hi1 & Hc1).
    destruct (frame_keeps_geometry gen0 angle w0 Hr0)
      as (img2 & gen2 & w2 & Hdraw2 & _ & _ & _ & Hs1 & Hr1).
    rewrite Hdraw in Hdraw2. inversion Hdraw2; subst img2 gen2 w2.
    rewrite (bind_ok _ _ _ _ _ Hdraw).
    eexists (_, _), _. split; [reflexivity|]. unfold I. cbn [fst snd].
    split; [exact Hr1|].
    split; [exact (same_segment_trans _ _ _ Hs0 Hs1)|].
    split; [congruence|]. split; [congruence|].
    rewrite Hc1, Hc0, (plain_lines_same _ _ Hs0), length_app. cbn [length]. lia.
Qed.

Lemma animation_random_draws_witness :
  exists images gen' w',
    render_frames (default_gen demo_rng) 240 (default_world demo_rng)
      = Ok ((images, gen'), w') /\
    cursor (rng w') =
      (cursor (rng (default_world demo_rng))
       + Z.to_nat 240 * length (plain_lines (all_lines (default_gen demo_rng))))%nat.
Proof.
  destruct (animation_random_draws (default_gen demo_rng) 0 240
              (default_world demo_rng) (default_scene_renderable demo_rng))
    as (_ & images & gen' & w' & Hrun & _ & _ & Hc).
  exists images, gen', w'. split; [exact Hrun | exact Hc].
Defined.

(** ** Colour parsing *)

Lemma hex_digit_range c d : hex_digit c = Some d -> (0 <= d <= 15)%Z.
Proof.
  unfold hex_digit. set (n := Z.of_nat (nat_of_ascii c)).
  repeat match goal with
         | |- context [if ?b then _ else _] => destruct b eqn:?
         end; intros H; inversion H; lia.
Qed.

Lemma hex_digit_plain c d :
  hex_digit c = Some d ->
  is_space c = false /\ Ascii.eqb c "#" = false /\
  Ascii.eqb c "+" = false /\ Ascii.eqb c "-" = false.
Proof.
  destruct c as [[] [] [] [] [] [] [] []]; vm_compute; intros H;
    try discriminate H; auto.
Qed.

Lemma lstrip_hash_cons a s :
  lstrip_hash (String a s) = if Ascii.eqb a "#" then lstrip_hash s else String a s.
Proof. destruct a as [[] [] [] [] [] [] [] []]; reflexivity. Qed.

Lemma lstrip_space_length s : (String.length (lstrip_space s) <= String.length s)%nat.
Proof.
  induction s as [|c s IH]; cbn; [lia|]. destruct (is_space c); cbn; lia.
Qed.

Lemma rstrip_space_length s : (String.length (rstrip_space s) <= String.length s)%nat.
Proof.
  induction s as [|c s IH]; cbn [rstrip_space String.length]; [lia|].
  destruct (rstrip_space s); [destruct (is_space c)|]; cbn [String.length] in *; lia.
Qed.

Lemma substring_length n m s : (String.length (substring n m s) <= m)%nat.
Proof.
  revert n m. induction s as [|c s IH]; intros [|n] [|m]; cbn; try lia.
  - specialize (IH 0%nat m). lia.
  - apply (IH n 0%nat).
  - apply (IH n (S m)).
Qed.

Lemma substring_short n m s :
  (String.length s <= n)%nat -> substring n m s = EmptyString.
Proof.
  revert n. induction s as [|c s IH]; intros [|n] H; cbn in *;
    try (destruct m; reflexivity); try lia.
  apply IH. lia.
Qed.

(** The sign and the digits that [int()] reads in a stripped text. *)
Lemma int16_sign body :
  match body with
  | String "+" d => (1%Z, d)
  | String "-" d => ((-1)%Z, d)
  | d => (1%Z, d)
  end =
  match body with
  | EmptyString => (1%Z, body)
  | String a d => if Ascii.eqb a "+" then (1%Z, d)
                  else if Ascii.eqb a "-" then ((-1)%Z, d)
                  else (1%Z, body)
  end.
Proof.
  destruct body as [|a d]; [reflexivity|].
  destruct a as [[] [] [] [] [] [] [] []]; reflexivity.
Qed.

Lemma hex_digits_short s n :
  (String.length s <= 2)%nat -> hex_digits s 0 = Some n -> (0 <= n <= 255)%Z.
Proof.
  destruct s as [|c1 [|c2 [|c3 s]]]; cbn; intros Hl H; try lia.
  - inversion H. lia.
  - destruct (hex_digit c1) as [d1|] eqn:H1; [|discriminate].
    apply hex_digit_range in H1. inversion H. lia.
  - destruct (hex_digit c1) as [d1|] eqn:H1; [|discriminate].
    destruct (hex_digit c2) as [d2|] eqn:H2; [|discriminate].
    apply hex_digit_range in H1, H2. inversion H. lia.
Qed.

Lemma hex_digits_one s n :
  (String.length s <= 1)%nat -> hex_digits s 0 = Some n -> (0 <= n <= 15)%Z.
Proof.
  destruct s as [|c1 [|c2 s]]; cbn; intros Hl H; try lia.
  - inversion H. lia.
  - destruct (hex_digit c1) as [d1|] eqn:H1; [|discriminate].
    apply hex_digit_range in H1. inversion H. lia.
Qed.

Lemma int16_range s n :
  (String.length s <= 2)%nat -> int16 s = Ok n -> (-15 <= n <= 255)%Z.
Proof.
  intros Hl. unfold int16. rewrite int16_sign.
  pose proof (lstrip_space_length s) as H1.
  pose proof (rstrip_space_length (lstrip_space s)) as H2.
  destruct (rstrip_space (lstrip_space s)) as [|a d] eqn:Hb.
  - discriminate.
  - cbn [String.length] in H2.
    destruct (Ascii.eqb a "+"); [|destruct (Ascii.eqb a "-")].
    + destruct d as [|c d]; [discriminate|].
      destruct (hex_digits (String c d) 0) as [v|] eqn:Hv; [|discriminate].
      apply hex_digits_one in Hv; [|cbn [String.length] in *; lia].
      intros H. inversion H. lia.
    + destruct d as [|c d]; [discriminate|].
      destruct (hex_digits (String c d) 0) as [v|] eqn:Hv; [|discriminate].
      apply hex_digits_one in Hv; [|cbn [String.length] in *; lia].
      intros H. inversion H. lia.
    + destruct (hex_digits (String a d) 0) as [v|] eqn:Hv; [|discriminate].
      apply hex_digits_short in Hv; [|cbn [String.length] in *; lia].
      intros H. inversion H. lia.
Qed.

Lemma int16_error s e : int16 s = Raise e -> e = ValueError.
Proof.
  unfold int16. destruct (match rstrip_space (lstrip_space s) with
                          | EmptyString => _ | String _ _ => _ end) as [sign digits].
  destruct digits; [intros H; now inversion H|].
  destruct (hex_digits _ _); intros H; now inversion H.
Qed.

Lemma int16_pair c1 c2 d1 d2 :
  hex_digit c1 = Some d1 -> hex_digit c2 = Some d2 ->
  int16 (String c1 (String c2 EmptyString)) = Ok (16 * d1 + d2)%Z.
Proof.
  intros H1 H2.
  destruct (hex_digit_plain _ _ H1) as (S1 & _ & P1 & M1).
  destruct (hex_digit_plain _ _ H2) as (S2 & _ & _ & _).
  unfold int16. rewrite int16_sign. cbn [lstrip_space rstrip_space].
  rewrite S1. cbn [rstrip_space]. rewrite S2, P1, M1.
  cbn [hex_digits]. rewrite H1, H2. f_equal. lia.
Qed.

Lemma int16_single c d :
  hex_digit c = Some d -> int16 (String c EmptyString) = Ok d.
Proof.
  intros H1. destruct (hex_digit_plain _ _ H1) as (S1 & _ & P1 & M1).
  unfold int16. rewrite int16_sign. cbn [lstrip_space rstrip_space].
  rewrite S1. cbn [rstrip_space]. rewrite S1, P1, M1.
  cbn [hex_digits]. rewrite H1. f_equal. lia.
Qed.

Lemma hex_to_rgb_run c w :
  hex_to_rgb c w =
  match int16 (substring 0 2 (lstrip_hash c)) with
  | Raise e => Raise e
  | Ok r =>
      match int16 (substring 2 2 (lstrip_hash c)) with
      | Raise e => Raise e
      | Ok g =>
          match int16 (substring 4 2 (lstrip_hash c)) with
          | Raise e => Raise e
          | Ok b => Ok ((r, g, b), w)
          end
      end
  end.
Proof.
  unfold hex_to_rgb, bind, lift, ret.
  repeat (destruct (int16 _); [|reflexivity]). reflexivity.
Qed.

Lemma hex_to_rgb_ok c w r g b w' :
  hex_to_rgb c w = Ok ((r, g, b), w') ->
  w' = w /\ (-15 <= r <= 255)%Z /\ (-15 <= g <= 255)%Z /\ (-15 <= b <= 255)%Z.
Proof.
  rewrite hex_to_rgb_run.
  destruct (int16 (substring 0 2 _)) eqn:E1; [|discriminate].
  destruct (int16 (substring 2 2 _)) eqn:E2; [|discriminate].
  destruct (int16 (substring 4 2 _)) eqn:E3; [|discriminate].
  intros H. inversion H; subst.
  apply int16_range in E1, E2, E3; try apply substring_length. auto.
Qed.

(** X16. [hex_to_rgb] reads and writes no state and raises nothing but
    [ValueError].  It raises it whenever fewer than five characters follow
    the leading [#] signs, a three-digit colour included.  When it returns,
    every component lies between -15 and 255: a sign in front of a digit is
    accepted, so a component can be negative. *)
Theorem hex_to_rgb_range (c : string) (w : World) :
  (forall e, hex_to_rgb c w = Raise e -> e = ValueError) /\
  ((String.length (lstrip_hash c) <= 4)%nat -> hex_to_rgb c w = Raise ValueError) /\
  (forall r g b w',
      hex_to_rgb c w = Ok ((r, g, b), w') ->
      w' = w /\ (-15 <= r <= 255)%Z /\ (-15 <= g <= 255)%Z /\ (-15 <= b <= 255)%Z) /\
  hex_to_rgb "#-f+f-1" w = Ok (((-15)%Z, 15%Z, (-1)%Z), w).
Proof.
  rewrite hex_to_rgb_run. split; [|split; [|split]].
  - intros e.
    destruct (int16 (substring 0 2 _)) eqn:E1; [|intros H; inversion H; subst;
                                                  now apply int16_error in E1].
    destruct (int16 (substring 2 2 _)) eqn:E2; [|intros H; inversion H; subst;
                                                  now apply int16_error in E2].
    destruct (int16 (substring 4 2 _)) eqn:E3; [discriminate|].
    intros H; inversion H; subst. now apply int16_error in E3.
  - intros Hl. rewrite (substring_short 4 2 _ Hl).
    destruct (int16 (substring 0 2 _)) eqn:E1; [|now rewrite (int16_error _ _ E1)].
    destruct (int16 (substring 2 2 _)) eqn:E2; [|now rewrite (int16_error _ _ E2)].
    reflexivity.
  - intros r g b w'. rewrite <- hex_to_rgb_run. apply hex_to_rgb_ok.
  - reflexivity.
Qed.

Lemma hex_to_rgb_range_witness :
  hex_to_rgb "#abc" demo_world = Raise ValueError.
Proof.
  destruct (hex_to_rgb_range "#abc" demo_world) as (_ & H & _).
  apply H. cbn. lia.
Defined.

Lemma substring_0_0 s : substring 0 0 s = EmptyString.
Proof. now destruct s. Qed.

Lemma append_cons c (s rest : string) :
  (String c s ++ rest)%string = String c (s ++ rest).
Proof. reflexivity. Qed.

Lemma substring_app n m s rest :
  (n + m <= String.length s)%nat ->
  substring n m (s ++ rest) = substring n m s.
Proof.
  revert n m. induction s as [|c s IH]; intros n m H; cbn [String.length] in H.
  - assert (n = 0 /\ m = 0)%nat as [-> ->] by lia. now destruct rest.
  - destruct n as [|n]; rewrite append_cons; cbn [substring].
    + destruct m as [|m]; [reflexivity|]. f_equal. apply (IH 0%nat). lia.
    + apply IH. lia.
Qed.

Lemma lstrip_hash_app c rest :
  lstrip_hash c <> EmptyString ->
  lstrip_hash (c ++ rest) = (lstrip_hash c ++ rest)%string.
Proof.
  induction c as [|a c IH]; intros H; [now contradiction H|].
  rewrite append_cons, !lstrip_hash_cons in *.
  destruct (Ascii.eqb a "#"); [now apply IH | reflexivity].
Qed.

Lemma hex_to_rgb_six w c1 c2 c3 c4 c5 c6 d1 d2 d3 d4 d5 d6 rest :
  hex_digit c1 = Some d1 -> hex_digit c2 = Some d2 -> hex_digit c3 = Some d3 ->
  hex_digit c4 = Some d4 -> hex_digit c5 = Some d5 -> hex_digit c6 = Some d6 ->
  hex_to_rgb (String c1 (String c2 (String c3 (String c4 (String c5 (String c6 rest)))))) w
    = Ok ((16 * d1 + d2, 16 * d3 + d4, 16 * d5 + d6)%Z, w).
Proof.
  intros H1 H2 H3 H4 H5 H6.
  destruct (hex_digit_plain _ _ H1) as (_ & N1 & _ & _).
  rewrite hex_to_rgb_run, lstrip_hash_cons, N1. cbn [substring].
  rewrite substring_0_0.
  now rewrite (int16_pair _ _ _ _ H1 H2), (int16_pair _ _ _ _ H3 H4),
              (int16_pair _ _ _ _ H5 H6).
Qed.

(** X17. [hex_to_rgb] strips every leading [#], reads the next six
    characters two by two and ignores whatever follows them.  Six
    hexadecimal digits, in either case, give the three bytes they denote;
    five digits are accepted too, the last component being read from a
    single digit. *)
Theorem hex_to_rgb_reads_six (c rest : string) (w : World)
        (c1 c2 c3 c4 c5 c6 : ascii) (d1 d2 d3 d4 d5 d6 : Z) :
  hex_digit c1 = Some d1 -> hex_digit c2 = Some d2 -> hex_digit c3 = Some d3 ->
  hex_digit c4 = Some d4 -> hex_digit c5 = Some d5 -> hex_digit c6 = Some d6 ->
  hex_to_rgb (String "#" c) w = hex_to_rgb c w /\
  ((6 <= String.length (lstrip_hash c))%nat ->
   hex_to_rgb (c ++ rest) w = hex_to_rgb c w) /\
  hex_to_rgb (String c1 (String c2 (String c3 (String c4 (String c5 (String c6 rest)))))) w
    = Ok ((16 * d1 + d2, 16 * d3 + d4, 16 * d5 + d6)%Z, w) /\
  hex_to_rgb (String c1 (String c2 (String c3 (String c4 (String c5 EmptyString))))) w
    = Ok ((16 * d1 + d2, 16 * d3 + d4, d5)%Z, w).
Proof.
  intros H1 H2 H3 H4 H5 H6.
  destruct (hex_digit_plain _ _ H1) as (_ & N1 & _ & _).
  split; [reflexivity|]. split; [|split].
  - intros Hl. rewrite !hex_to_rgb_run.
    rewrite lstrip_hash_app by (destruct (lstrip_hash c); [cbn in Hl; lia | discriminate]).
    now rewrite !substring_app by lia.
  - now apply hex_to_rgb_six.
  - rewrite hex_to_rgb_run, lstrip_hash_cons, N1. cbn [substring].
    now rewrite (int16_pair _ _ _ _ H1 H2), (int16_pair _ _ _ _ H3 H4),
                (int16_single _ _ H5).
Qed.

Lemma hex_to_rgb_reads_six_witness :
  hex_to_rgb "ff6B35;" demo_world = Ok ((255, 107, 53)%Z, demo_world) /\
  hex_to_rgb "ff6B3" demo_world = Ok ((255, 107, 3)%Z, demo_world).
Proof.
  destruct (hex_to_rgb_reads_six "" ";" demo_world "f" "f" "6" "B" "3" "5"
              15 15 6 11 3 5 eq_refl eq_refl eq_refl eq_refl eq_refl eq_refl)
    as (_ & _ & H & H').
  split; [exact H | exact H'].
Defined.

(** ** Colour darkening *)

Lemma byte_round_trip_all : forallb byte_round_trip (range 256) = true.
Proof. vm_compute. reflexivity. Qed.

Lemma format_02x_byte n :
  (0 <= n <= 255)%Z ->
  exists c1 c2 d1 d2,
    format_02x n = String c1 (String c2 EmptyString) /\
    hex_digit c1 = Some d1 /\ hex_digit c2 = Some d2 /\ (16 * d1 + d2)%Z = n.
Proof.
  intros Hn. pose proof byte_round_trip_all as H.
  rewrite forallb_forall in H. specialize (H n).
  assert (Hin : In n (range 256)) by (apply list_elem_of_In, range_elem; lia).
  specialize (H Hin). unfold byte_round_trip in H.
  destruct (format_02x n) as [|c1 [|c2 [|]]]; try discriminate.
  destruct (hex_digit c1) as [d1|] eqn:H1; [|discriminate].
  destruct (hex_digit c2) as [d2|] eqn:H2; [|discriminate].
  exists c1, c2, d1, d2. split; [reflexivity|]. split; [exact H1|].
  split; [exact H2|]. now apply Z.eqb_eq.
Qed.

Lemma darken_color_run c amount w r g b :
  hex_to_rgb c w = Ok ((r, g, b), w) ->
  darken_color c amount w =
  Ok (String "#" (format_02x (Z.max 0 (r - amount))
                  ++ format_02x (Z.max 0 (g - amount))
                  ++ format_02x (Z.max 0 (b - amount)))%string, w).
Proof. intros H. unfold darken_color. now rewrite (bind_ok _ _ _ _ _ H). Qed.

Lemma darken_color_ok c amount w r g b :
  (0 <= amount)%Z -> hex_to_rgb c w = Ok ((r, g, b), w) ->
  exists s,
    darken_color c amount w = Ok (s, w) /\
    String.length s = 7%nat /\
    hex_to_rgb s w =
      Ok ((Z.max 0 (r - amount), Z.max 0 (g - amount), Z.max 0 (b - amount)), w).
Proof.
  intros Ha H. destruct (hex_to_rgb_ok _ _ _ _ _ _ H) as (_ & Hr & Hg & Hb).
  rewrite (darken_color_run _ amount _ _ _ _ H).
  destruct (format_02x_byte (Z.max 0 (r - amount))) as (c1 & c2 & d1 & d2 & -> & H1 & H2 & <-);
    [lia|].
  destruct (format_02x_byte (Z.max 0 (g - amount))) as (c3 & c4 & d3 & d4 & -> & H3 & H4 & <-);
    [lia|].
  destruct (format_02x_byte (Z.max 0 (b - amount))) as (c5 & c6 & d5 & d6 & -> & H5 & H6 & <-);
    [lia|].
  eexists. split; [reflexivity|]. split; [reflexivity|].
  rewrite !append_cons. change (EmptyString ++ ?s)%string with s.
  change (hex_to_rgb (String "#" ?s) w) with (hex_to_rgb s w).
  now apply hex_to_rgb_six.
Qed.

(** X18. For a non-negative [amount], [darken_color] fails exactly as
    [hex_to_rgb] fails on the colour; otherwise it changes no state and
    returns a text of seven characters, [#] and six hexadecimal digits,
    that [hex_to_rgb] reads back as the three components lowered by
    [amount] and clamped at 0. *)
Theorem darken_color_clamps (c : string) (amount : Z) (w : World) :
  (0 <= amount)%Z ->
  match hex_to_rgb c w with
  | Raise e => darken_color c amount w = Raise e
  | Ok ((r, g, b), _) =>
      exists s,
        darken_color c amount w = Ok (s, w) /\
        String.length s = 7%nat /\
        hex_to_rgb s w =
          Ok ((Z.max 0 (r - amount), Z.max 0 (g - amount), Z.max 0 (b - amount)), w)
  end.
Proof.
  intros Ha. destruct (hex_to_rgb c w) as [[[[r g] b] w']|e] eqn:H.
  - destruct (hex_to_rgb_ok _ _ _ _ _ _ H) as (-> & _). now apply darken_color_ok.
  - unfold darken_color. now apply bind_raise.
Qed.

Lemma darken_color_clamps_witness :
  exists s,
    darken_color "#1A0806" 20 demo_world = Ok (s, demo_world) /\
    String.length s = 7%nat /\
    hex_to_rgb s demo_world = Ok ((6, 0, 0)%Z, demo_world).
Proof.
  exact (darken_color_clamps "#1A0806" 20 demo_world ltac:(lia)).
Defined.

(** X19. Darkening twice by non-negative amounts is darkening once by
    their sum: the clamping at 0 loses nothing that a later darkening could
    still use. *)
Theorem darken_color_composes (c s : string) (a b : Z) (w w' : World) :
  (0 <= a)%Z -> (0 <= b)%Z ->
  darken_color c a w = Ok (s, w') ->
  darken_color s b w' = darken_color c (a + b) w.
Proof.
  intros Ha Hb Hs.
  destruct (hex_to_rgb c w) as [[[[r g] bl] w1]|e] eqn:H.
  2:{ unfold darken_color in Hs. now rewrite (bind_raise _ _ _ _ H) in Hs. }
  destruct (hex_to_rgb_ok _ _ _ _ _ _ H) as (-> & _).
  destruct (darken_color_ok c a w r g bl Ha H) as (s0 & Hrun & _ & Hparse).
  rewrite Hrun in Hs. inversion Hs; subst s0 w'.
  rewrite (darken_color_run _ b _ _ _ _ Hparse), (darken_color_run _ (a + b) _ _ _ _ H).
  replace (Z.max 0 (Z.max 0 (r - a) - b)) with (Z.max 0 (r - (a + b))) by lia.
  replace (Z.max 0 (Z.max 0 (g - a) - b)) with (Z.max 0 (g - (a + b))) by lia.
  replace (Z.max 0 (Z.max 0 (bl - a) - b)) with (Z.max 0 (bl - (a + b))) by lia.
  reflexivity.
Qed.

Lemma darken_color_composes_witness :
  darken_color "#ff6b35" 20 demo_world = Ok ("#eb5721"%string, demo_world) /\
  darken_color "#eb5721" 100 demo_world = darken_color "#ff6b35" (20 + 100) demo_world.
Proof.
  assert (H : darken_color "#ff6b35" 20 demo_world = Ok ("#eb5721"%string, demo_world))
    by reflexivity.
  split; [exact H|].
  exact (darken_color_composes "#ff6b35" "#eb5721" 20 100 demo_world demo_world
           ltac:(lia) ltac:(lia) H).
Defined.

Lemma string_length_app (s1 s2 : string) :
  String.length (s1 ++ s2) = (String.length s1 + String.length s2)%nat.
Proof.
  induction s1 as [|c s1 IH]; [reflexivity|].
  rewrite append_cons. cbn [String.length]. now rewrite IH.
Qed.

Lemma hex_of_length fuel :
  forall n acc, (String.length acc <= String.length (hex_of fuel n acc))%nat.
Proof.
  induction fuel as [|fuel IH]; intros n acc; cbn [hex_of]; [lia|].
  destruct (n / 16 =? 0)%Z; [cbn [String.length]; lia|].
  specialize (IH (n / 16)%Z (String (hex_char (n mod 16)) acc)).
  cbn [String.length] in IH. lia.
Qed.

Lemma format_02x_length n : (2 <= String.length (format_02x n))%nat.
Proof.
  unfold format_02x.
  assert (H : (1 <= String.length (hex n) /\ 1 <= String.length (hex (- n)))%nat).
  { unfold hex. cbn [hex_of]. split.
    - destruct (n / 16 =? 0)%Z; [cbn [String.length]; lia|].
      pose proof (hex_of_length (Z.to_nat (Z.log2 n)) (n / 16)
                    (String (hex_char (n mod 16)) EmptyString)) as H.
      cbn [String.length] in H. lia.
    - destruct (- n / 16 =? 0)%Z; [cbn [String.length]; lia|].
      pose proof (hex_of_length (Z.to_nat (Z.log2 (- n))) (- n / 16)
                    (String (hex_char (- n mod 16)) EmptyString)) as H.
      cbn [String.length] in H. lia. }
  destruct (n <? 0)%Z; [cbn [String.length]; lia|].
  cbv zeta. destruct (String.length (hex n) <? 2)%nat eqn:E.
  - cbn [String.length]. lia.
  - apply Nat.ltb_ge in E. exact E.
Qed.

Lemma format_02x_overflow n :
  (256 <= n)%Z -> (3 <= String.length (format_02x n))%nat.
Proof.
  intros Hn. unfold format_02x.
  destruct (n <? 0)%Z eqn:E; [apply Z.ltb_lt in E; lia|]. cbv zeta.
  assert (H : (3 <= String.length (hex n))%nat).
  { unfold hex.
    assert (Hl : (8 <= Z.log2 n)%Z) by (apply (Z.log2_le_mono 256 n); lia).
    destruct (Z.to_nat (Z.log2 n)) as [|[|k]] eqn:Ek; try lia.
    cbn [hex_of].
    assert (Hq : (16 <= n / 16)%Z) by (apply Z.div_le_lower_bound; lia).
    assert (Hq' : (1 <= n / 16 / 16)%Z) by (apply Z.div_le_lower_bound; lia).
    destruct (n / 16 =? 0)%Z eqn:E1; [apply Z.eqb_eq in E1; lia|].
    destruct (n / 16 / 16 =? 0)%Z eqn:E2; [apply Z.eqb_eq in E2; lia|].
    destruct (n / 16 / 16 / 16 =? 0)%Z; [cbn [String.length]; lia|].
    match goal with
    | |- (_ <= String.length (hex_of ?f ?m ?acc))%nat =>
        pose proof (hex_of_length f m acc) as H
    end.
    cbn [String.length] in H. lia. }
  destruct (String.length (hex n) <? 2)%nat; [cbn [String.length]|]; lia.
Qed.

Lemma hex_digits_app s1 s2 :
  forall a, hex_digits (s1 ++ s2) a =
            match hex_digits s1 a with
            | Some v => hex_digits s2 v
            | None => None
            end.
Proof.
  induction s1 as [|c s1 IH]; intros a; [reflexivity|].
  rewrite append_cons. cbn [hex_digits]. destruct (hex_digit c); [apply IH | reflexivity].
Qed.

Lemma hex_char_digit d : (0 <= d < 16)%Z -> hex_digit (hex_char d) = Some d.
Proof.
  intros H. assert (H16 : In d (range 16)) by (apply list_elem_of_In, range_elem; lia).
  vm_compute in H16.
  repeat (destruct H16 as [<-|H16]; [reflexivity|]). contradiction.
Qed.

Lemma string_app_assoc (s1 s2 s3 : string) :
  ((s1 ++ s2) ++ s3)%string = (s1 ++ (s2 ++ s3))%string.
Proof.
  induction s1 as [|c s1 IH]; [reflexivity|]. rewrite !append_cons. now rewrite IH.
Qed.

Lemma string_app_nil (s : string) : (s ++ EmptyString)%string = s.
Proof. induction s as [|c s IH]; [reflexivity|]. rewrite append_cons. now rewrite IH. Qed.

(** The fuel of [hex] is enough: every digit is written. *)
Lemma hex_of_spec fuel :
  forall n acc,
    (0 <= n < 16 ^ Z.of_nat fuel)%Z -> (0 < fuel)%nat ->
    exists s, hex_of fuel n acc = (s ++ acc)%string /\
              forall a, hex_digits s a
                        = Some (a * 16 ^ Z.of_nat (String.length s) + n)%Z.
Proof.
  induction fuel as [|fuel IH]; intros n acc Hn Hf; [lia|].
  cbn [hex_of]. set (c := hex_char (n mod 16)).
  assert (Hc : hex_digit c = Some (n mod 16)%Z)
    by (apply hex_char_digit, Z.mod_pos_bound; lia).
  destruct (n / 16 =? 0)%Z eqn:E.
  - apply Z.eqb_eq in E. exists (String c EmptyString). split; [reflexivity|].
    intros a. cbn [hex_digits String.length]. rewrite Hc. f_equal.
    pose proof (Z.div_mod n 16 ltac:(lia)) as Hd. change (Z.of_nat 1) with 1%Z.
    rewrite Z.pow_1_r. lia.
  - apply Z.eqb_neq in E.
    assert (Hq : (0 <= n / 16 < 16 ^ Z.of_nat fuel)%Z).
    { split; [apply Z.div_pos; lia|].
      apply Z.div_lt_upper_bound; [lia|].
      rewrite Nat2Z.inj_succ, Z.pow_succ_r in Hn by lia. lia. }
    assert (Hf' : (0 < fuel)%nat).
    { destruct fuel; [|lia]. change (16 ^ Z.of_nat 0)%Z with 1%Z in Hq. lia. }
    destruct (IH (n / 16)%Z (String c acc) Hq Hf') as (s & Hs & Hv).
    exists (s ++ String c EmptyString)%string. split.
    + rewrite Hs. now rewrite string_app_assoc.
    + intros a. rewrite hex_digits_app, Hv. cbn [hex_digits]. rewrite Hc. f_equal.
      rewrite string_length_app. cbn [String.length].
      replace (Z.of_nat (String.length s + 1)) with (Z.succ (Z.of_nat (String.length s)))
        by lia.
      rewrite Z.pow_succ_r by lia.
      pose proof (Z.div_mod n 16 ltac:(lia)) as Hd. lia.
Qed.

Lemma hex_reads_back n : (0 <= n)%Z -> hex_digits (hex n) 0 = Some n.
Proof.
  intros Hn. unfold hex.
  assert (Hb : (0 <= n < 16 ^ Z.of_nat (S (Z.to_nat (Z.log2 n))))%Z).
  { split; [exact Hn|].
    destruct (Z.eq_dec n 0%Z) as [->|Hne]; [reflexivity|].
    pose proof (Z.log2_nonneg n) as Hl.
    pose proof (proj2 (Z.log2_spec n ltac:(lia))) as Hlt.
    rewrite Nat2Z.inj_succ, Z2Nat.id by exact Hl.
    eapply Z.lt_le_trans; [exact Hlt|].
    apply Z.pow_le_mono_l. lia. }
  destruct (hex_of_spec _ n EmptyString Hb ltac:(lia)) as (s & Hrun & Hs).
  rewrite Hrun, string_app_nil, Hs. f_equal; lia.
Qed.

Lemma format_02x_reads_back n : (0 <= n)%Z -> hex_digits (format_02x n) 0 = Some n.
Proof.
  intros Hn. unfold format_02x.
  destruct (n <? 0)%Z eqn:E; [apply Z.ltb_lt in E; lia|]. cbv zeta.
  destruct (String.length (hex n) <? 2)%nat; [|now apply hex_reads_back].
  cbn [hex_digits]. change (hex_digit "0") with (Some 0%Z). cbv iota beta.
  change (16 * 0 + 0)%Z with 0%Z. now apply hex_reads_back.
Qed.

(** X20. Nothing clamps at 255.  The two-digit format writes every digit
    of a larger number, so when the amount is so negative that a component
    minus the amount exceeds 255, [darken_color] still returns, with a text
    of more than seven characters, which is no [#rrggbb] colour; read back,
    [#ffffff] lightened by 1 is the colour (16, 1, 0). *)
Theorem darken_color_no_upper_clamp (c : string) (amount : Z) (w : World) (r g b : Z) :
  hex_to_rgb c w = Ok ((r, g, b), w) ->
  (256 <= r - amount \/ 256 <= g - amount \/ 256 <= b - amount)%Z ->
  (exists s, darken_color c amount w = Ok (s, w) /\ (8 <= String.length s)%nat) /\
  (forall n, (0 <= n)%Z -> hex_digits (format_02x n) 0 = Some n) /\
  darken_color "#ffffff" (-1) w = Ok ("#100100100"%string, w) /\
  hex_to_rgb "#100100100" w = Ok ((16, 1, 0)%Z, w).
Proof.
  intros H Hover. split; [|split; [exact format_02x_reads_back | split; reflexivity]].
  rewrite (darken_color_run _ amount _ _ _ _ H).
  eexists. split; [reflexivity|].
  cbn [String.length]. rewrite !string_length_app.
  pose proof (format_02x_length (Z.max 0 (r - amount))).
  pose proof (format_02x_length (Z.max 0 (g - amount))).
  pose proof (format_02x_length (Z.max 0 (b - amount))).
  destruct Hover as [Ho|[Ho|Ho]].
  - pose proof (format_02x_overflow (Z.max 0 (r - amount)) ltac:(lia)). lia.
  - pose proof (format_02x_overflow (Z.max 0 (g - amount)) ltac:(lia)). lia.
  - pose proof (format_02x_overflow (Z.max 0 (b - amount)) ltac:(lia)). lia.
Qed.

Lemma darken_color_no_upper_clamp_witness :
  exists s,
    darken_color "#FFB366" (-20) demo_world = Ok (s, demo_world) /\
    (8 <= String.length s)%nat.
Proof.
  assert (H : hex_to_rgb "#FFB366" demo_world = Ok ((255, 179, 102)%Z, demo_world))
    by reflexivity.
  destruct (darken_color_no_upper_clamp "#FFB366" (-20) demo_world 255 179 102 H) as [Hs _].
  - left. lia.
  - exact Hs.
Defined.
